(** * Flaky test pattern detector: a shallow embedding of
      [scripts/detect-flaky.ts] and of the command line driver, with the
      properties of its specification.

    Strings are JavaScript strings, that is sequences of UTF-16 code units;
    indices and lengths are naturals, and the two places where the source
    clamps a difference with [Math.max(0, _)] are computed over [Z].
    The regular expressions of the catalogue are kept as syntax trees and
    run by a backtracking matcher that follows the ECMAScript matcher
    (continuation passing, greedy quantifiers, leftmost match). *)

From Stdlib Require Import String Ascii.
From Stdlib Require Import List Bool Arith PeanoNat NArith ZArith Lia.
From Stdlib Require Import Permutation DecimalNat.
Import ListNotations.

Set Implicit Arguments.
Set Warnings "-register-all,-notation-for-abbreviation".

(** ** JavaScript strings *)

Notation char := N (only parsing).
Notation jsstring := (list N) (only parsing).

(** A source literal (all the literals of the program are ASCII). *)
Definition js (s : string) : jsstring :=
  map N_of_ascii (list_ascii_of_string s).

Fixpoint jsstring_eqb (a b : jsstring) : bool :=
  match a, b with
  | [], [] => true
  | x :: a', y :: b' => N.eqb x y && jsstring_eqb a' b'
  | _, _ => false
  end.

(** [s.substring(a, b)]: both ends are clamped to the length and swapped
    when [a > b]. *)
Definition substring (s : jsstring) (a b : nat) : jsstring :=
  let lo := Nat.min a b in
  let hi := Nat.max a b in
  firstn (hi - lo) (skipn lo s).

(** [s.startsWith(p)] and [s.endsWith(p)]. *)
Fixpoint startsWith (s p : jsstring) : bool :=
  match p, s with
  | [], _ => true
  | c :: p', d :: s' => N.eqb c d && startsWith s' p'
  | _ :: _, [] => false
  end.

Definition endsWith (s p : jsstring) : bool :=
  startsWith (rev s) (rev p).

(** [s.split("\n")]: the pieces between the newline characters; there is
    always at least one piece. *)
Definition NL : char := 10%N.

Fixpoint split_nl_aux (cur : jsstring) (s : jsstring) : list jsstring :=
  match s with
  | [] => [rev cur]
  | c :: s' =>
      if N.eqb c NL then rev cur :: split_nl_aux [] s'
      else split_nl_aux (c :: cur) s'
  end.

Definition split_nl (s : jsstring) : list jsstring := split_nl_aux [] s.

(** [pieces.join(sep)]. *)
Fixpoint join (sep : jsstring) (pieces : list jsstring) : jsstring :=
  match pieces with
  | [] => []
  | [p] => p
  | p :: ps => p ++ sep ++ join sep ps
  end.

(** Decimal rendering of a non-negative integer, [n.toString()]. *)
Fixpoint chars_of_uint (u : Decimal.uint) : jsstring :=
  match u with
  | Decimal.Nil => []
  | Decimal.D0 u' => 48%N :: chars_of_uint u'
  | Decimal.D1 u' => 49%N :: chars_of_uint u'
  | Decimal.D2 u' => 50%N :: chars_of_uint u'
  | Decimal.D3 u' => 51%N :: chars_of_uint u'
  | Decimal.D4 u' => 52%N :: chars_of_uint u'
  | Decimal.D5 u' => 53%N :: chars_of_uint u'
  | Decimal.D6 u' => 54%N :: chars_of_uint u'
  | Decimal.D7 u' => 55%N :: chars_of_uint u'
  | Decimal.D8 u' => 56%N :: chars_of_uint u'
  | Decimal.D9 u' => 57%N :: chars_of_uint u'
  end.

Definition toString (n : nat) : jsstring := chars_of_uint (Nat.to_uint n).

(** [s.padStart(n)]: spaces are added in front up to length [n]. *)
Definition padStart (s : jsstring) (n : nat) : jsstring :=
  repeat 32%N (n - length s) ++ s.

(** ** Regular expressions *)

Module Regex.

(** Members of a character class. *)
Inductive class_item : Type :=
| CChar (c : char)
| CRange (lo hi : char)
| CSpace        (* \s *)
| CDigit.       (* \d *)

Arguments CChar c%_N.
Arguments CRange (lo hi)%_N.

(** One-character atoms. *)
Inductive atom : Type :=
| Chr (c : char)
| Cls (items : list class_item)       (* [...]  *)
| NotCls (items : list class_item).   (* [^...] *)

Arguments Chr c%_N.

(** The fragment of the regular expression syntax the program uses: every
    quantifier of the source applies to a one-character atom. *)
Inductive rx : Type :=
| Eps
| One (a : atom)
| Quant (a : atom) (min : nat) (max : option nat)   (* greedy a{min,max} *)
| Seq (r1 r2 : rx)
| Alt (r1 r2 : rx)
| Group (r : rx)                                 (* capturing parentheses *)
| WordBoundary.                                     (* \b *)

(** [\s]: WhiteSpace and LineTerminator code units. *)
Definition is_space (c : char) : bool :=
  existsb (N.eqb c)
    [9; 10; 11; 12; 13; 32; 160; 5760; 8232; 8233; 8239; 8287; 12288; 65279]%N
  || (N.leb 8192 c && N.leb c 8202).

Definition is_digit (c : char) : bool := N.leb 48 c && N.leb c 57.

(** [\w], which decides [\b]. *)
Definition is_word (c : char) : bool :=
  (N.leb 97 c && N.leb c 122) || (N.leb 65 c && N.leb c 90)
  || is_digit c || N.eqb c 95.

Definition to_upper (c : char) : char :=
  if N.leb 97 c && N.leb c 122 then (c - 32)%N else c.

Definition to_lower (c : char) : char :=
  if N.leb 65 c && N.leb c 90 then (c + 32)%N else c.

(** Canonicalize of the [i] flag.  Without the [u] flag a code unit
    outside ASCII never canonicalizes to an ASCII one, so against the ASCII
    pattern characters of this program only the two ASCII cases agree. *)
Definition canonicalize (ignoreCase : bool) (c : char) : char :=
  if ignoreCase then to_upper c else c.

Definition item_matches (it : class_item) (c : char) : bool :=
  match it with
  | CChar d => N.eqb c d
  | CRange lo hi => N.leb lo c && N.leb c hi
  | CSpace => is_space c
  | CDigit => is_digit c
  end.

Definition in_class (ignoreCase : bool) (items : list class_item) (c : char)
  : bool :=
  existsb (fun it => item_matches it c) items
  || (ignoreCase
      && (existsb (fun it => item_matches it (to_upper c)) items
          || existsb (fun it => item_matches it (to_lower c)) items)).

Definition atom_matches (ignoreCase : bool) (a : atom) (c : char) : bool :=
  match a with
  | Chr d => N.eqb (canonicalize ignoreCase c) (canonicalize ignoreCase d)
  | Cls items => in_class ignoreCase items c
  | NotCls items => negb (in_class ignoreCase items c)
  end.

(** The matcher state: the position, the code unit just before it (for
    [\b]) and the input still to read. *)
Record cursor : Type := Cursor {
  pos : nat;
  prev : option char;
  rest : jsstring
}.

Definition advance (x : cursor) : option (char * cursor) :=
  match rest x with
  | [] => None
  | c :: tl => Some (c, Cursor (S (pos x)) (Some c) tl)
  end.

Definition is_word_opt (c : option char) : bool :=
  match c with
  | Some c => is_word c
  | None => false
  end.

Definition at_word_boundary (x : cursor) : bool :=
  xorb (is_word_opt (prev x)) (is_word_opt (hd_error (rest x))).

Definition orelse {A : Type} (a b : option A) : option A :=
  match a with
  | Some _ => a
  | None => b
  end.

(** RepeatMatcher for a one-character atom: as many repetitions as allowed
    first, one fewer on failure of the continuation. The recursion is on the
    input left. *)
Fixpoint repeat_greedy (ic : bool) (a : atom) (min : nat) (max : option nat)
  (input : jsstring) (p : nat) (pv : option char)
  (k : cursor -> option nat) {struct input} : option nat :=
  let here := Cursor p pv input in
  match max with
  | Some 0 => k here
  | _ =>
      let more :=
        match input with
        | c :: tl =>
            if atom_matches ic a c
            then repeat_greedy ic a (Nat.pred min) (option_map Nat.pred max)
                   tl (S p) (Some c) k
            else None
        | [] => None
        end in
      match min with
      | 0 => orelse more (k here)
      | S _ => more
      end
  end.

(** The matcher of a pattern: [k] is the continuation, the result is the end
    index of the whole match. *)
Fixpoint run (ic : bool) (r : rx) (x : cursor)
  (k : cursor -> option nat) : option nat :=
  match r with
  | Eps => k x
  | One a =>
      match advance x with
      | Some (c, x') => if atom_matches ic a c then k x' else None
      | None => None
      end
  | Quant a min max => repeat_greedy ic a min max (rest x) (pos x) (prev x) k
  | Seq r1 r2 => run ic r1 x (fun y => run ic r2 y k)
  | Alt r1 r2 => orelse (run ic r1 x k) (run ic r2 x k)
  | Group r1 => run ic r1 x k
  | WordBoundary => if at_word_boundary x then k x else None
  end.

Definition match_at (ic : bool) (r : rx) (x : cursor) : option nat :=
  run ic r x (fun y => Some (pos y)).

(** The search of RegExpBuiltinExec: the first start position, from the
    cursor on, at which the pattern matches. *)
Fixpoint search (ic : bool) (r : rx) (input : jsstring) (p : nat)
  (pv : option char) {struct input} : option (nat * nat) :=
  match match_at ic r (Cursor p pv input) with
  | Some e => Some (p, e)
  | None =>
      match input with
      | [] => None
      | c :: tl => search ic r tl (S p) (Some c)
      end
  end.

Definition cursor_at (s : jsstring) (i : nat) : cursor :=
  Cursor i (match i with 0 => None | S j => nth_error s j end) (skipn i s).

(** A RegExp object: the pattern, its flags and the mutable [lastIndex]
    is kept by the caller. *)
Record RegExp : Type := {
  source : rx;
  ignoreCase : bool;
  global : bool
}.

(** The result of a successful [exec]: [index] and the end of [match[0]]. *)
Record MatchResult : Type := {
  index : nat;
  endIndex : nat
}.

(** [re.exec(s)] with the [lastIndex] of [re] before the call; the second
    component is [lastIndex] after it. *)
Definition exec (re : RegExp) (s : jsstring) (lastIndex : nat)
  : option MatchResult * nat :=
  let start := if global re then lastIndex else 0 in
  if Nat.ltb (length s) start then (None, if global re then 0 else lastIndex)
  else
    let x := cursor_at s start in
    match search (ignoreCase re) (source re) (rest x) (pos x) (prev x) with
    | Some (i, e) =>
        (Some {| index := i; endIndex := e |},
         if global re then e else lastIndex)
    | None => (None, if global re then 0 else lastIndex)
    end.

(** [re.test(s)] for a regular expression without the [g] flag. *)
Definition test (re : RegExp) (s : jsstring) : bool :=
  match fst (exec re s 0) with
  | Some _ => true
  | None => false
  end.

(** Building patterns from the source text. *)
Fixpoint seq (rs : list rx) : rx :=
  match rs with
  | [] => Eps
  | [r] => r
  | r :: rs' => Seq r (seq rs')
  end.

(** A run of literal characters. *)
Definition lits (cs : jsstring) : rx := seq (map (fun c => One (Chr c)) cs).

Definition str (s : string) : rx := lits (js s).

Definition star (a : atom) : rx := Quant a 0 None.
Definition plus (a : atom) : rx := Quant a 1 None.
Definition opt (a : atom) : rx := Quant a 0 (Some 1).
Definition ws : atom := Cls [CSpace].
Definition digit : atom := Cls [CDigit].
Definition ch (s : string) : atom :=
  match js s with
  | c :: _ => Chr c
  | [] => Cls []
  end.
Definition chars (s : string) : list class_item := map CChar (js s).

(** *** What a pattern matches, stated without the matcher *)

(** [x] taken [n] code units further, all of them in the atom. *)
Inductive Derives (ic : bool) : rx -> cursor -> cursor -> Prop :=
| D_Eps : forall x, Derives ic Eps x x
| D_One : forall a x c y,
    advance x = Some (c, y) -> atom_matches ic a c = true ->
    Derives ic (One a) x y
| D_QuantStop : forall a max x, Derives ic (Quant a 0 max) x x
| D_QuantFull : forall a min x, Derives ic (Quant a min (Some 0)) x x
| D_QuantStep : forall a min max x c x' y,
    max <> Some 0 ->
    advance x = Some (c, x') -> atom_matches ic a c = true ->
    Derives ic (Quant a (Nat.pred min) (option_map Nat.pred max)) x' y ->
    Derives ic (Quant a min max) x y
| D_Seq : forall r1 r2 x y z,
    Derives ic r1 x y -> Derives ic r2 y z -> Derives ic (Seq r1 r2) x z
| D_AltL : forall r1 r2 x y, Derives ic r1 x y -> Derives ic (Alt r1 r2) x y
| D_AltR : forall r1 r2 x y, Derives ic r2 x y -> Derives ic (Alt r1 r2) x y
| D_Group : forall r x y, Derives ic r x y -> Derives ic (Group r) x y
| D_WordBoundary : forall x,
    at_word_boundary x = true -> Derives ic WordBoundary x x.

(** The cursor after reading [w]. *)
Fixpoint after (x : cursor) (w : jsstring) : cursor :=
  match w with
  | [] => x
  | c :: w' => after (Cursor (S (pos x)) (Some c) (tl (rest x))) w'
  end.

(** [u] is the literal [cs], up to the case of letters under the [i]
    flag. *)
Definition agree (ic : bool) (u cs : jsstring) : Prop :=
  Forall2 (fun c d => atom_matches ic (Chr d) c = true) u cs.

(** The least number of code units a match of the pattern takes. *)
Fixpoint min_len (r : rx) : nat :=
  match r with
  | Eps => 0
  | One _ => 1
  | Quant _ min max =>
      match max with
      | Some m => Nat.min min m
      | None => min
      end
  | Seq r1 r2 => min_len r1 + min_len r2
  | Alt r1 r2 => Nat.min (min_len r1) (min_len r2)
  | Group r1 => min_len r1
  | WordBoundary => 0
  end.

(** The successive results of [re.exec(s)] from a given [lastIndex] up to
    the first [null]: what a [while ((m = re.exec(s)) !== null)] loop goes
    through. *)
Inductive Enumerates (re : RegExp) (s : jsstring)
  : nat -> list MatchResult -> Prop :=
| E_done : forall lastIndex li,
    exec re s lastIndex = (None, li) -> Enumerates re s lastIndex []
| E_next : forall lastIndex m li ms,
    exec re s lastIndex = (Some m, li) -> Enumerates re s li ms ->
    Enumerates re s lastIndex (m :: ms).

End Regex.

(** ** The data model of [detect-flaky.ts] *)

Inductive Severity : Type := High | Medium | Low.

Definition Severity_eqb (a b : Severity) : bool :=
  match a, b with
  | High, High | Medium, Medium | Low, Low => true
  | _, _ => false
  end.

(** The string a severity is at run time. *)
Definition Severity_text (s : Severity) : jsstring :=
  match s with
  | High => js "high"
  | Medium => js "medium"
  | Low => js "low"
  end.

Record FlakyPattern : Type := {
  name : jsstring;
  regex : Regex.RegExp;
  severity : Severity;
  risk : jsstring;
  fix_ : jsstring
}.

Record Detection : Type := {
  file : jsstring;
  line : nat;
  pattern : jsstring;
  matchedText : jsstring;
  d_severity : Severity;
  d_risk : jsstring;
  d_fix : jsstring;
  context : list jsstring
}.

Record BySeverity : Type := {
  high : list Detection;
  medium : list Detection;
  low : list Detection
}.

(** A [Map<string, Detection[]>]: the entries in insertion order. *)
Definition FileMap := list (jsstring * list Detection).

Fixpoint Map_set (m : FileMap) (key : jsstring) (v : list Detection)
  : FileMap :=
  match m with
  | [] => [(key, v)]
  | (k, w) :: m' =>
      if jsstring_eqb k key then (k, v) :: m'
      else (k, w) :: Map_set m' key v
  end.

Fixpoint Map_get (m : FileMap) (key : jsstring) : option (list Detection) :=
  match m with
  | [] => None
  | (k, w) :: m' => if jsstring_eqb k key then Some w else Map_get m' key
  end.

Record ScanResult : Type := {
  scannedFiles : nat;
  totalDetections : nat;
  detections : list Detection;
  byFile : FileMap;
  bySeverity : BySeverity
}.

(** ** The pattern catalogue *)

Module Catalogue.
Import Regex.

Definition g (r : rx) : RegExp :=
  {| source := r; ignoreCase := false; global := true |}.

(* /ttl[Ss]?econds?\s*[=:]\s*1\b/g *)
Definition re_ttl : rx :=
  seq [str "ttl"; opt (Cls (chars "Ss")); str "econd"; opt (ch "s"); star ws;
       One (Cls (chars "=:")); star ws; str "1"; WordBoundary].

(* /Math\.floor\s*\(\s*Date\.now\s*\(\s*\)\s*\/\s*1000\s*\)/g *)
Definition re_truncation : rx :=
  seq [str "Math.floor"; star ws; str "("; star ws; str "Date.now"; star ws;
       str "("; star ws; str ")"; star ws; str "/"; star ws; str "1000";
       star ws; str ")"].

(* /setTimeout\s*\([^,]+,\s*(\d{1,2})\s*\)/g *)
Definition re_setTimeout : rx :=
  seq [str "setTimeout"; star ws; str "("; plus (NotCls (chars ","));
       str ","; star ws; Group (Quant digit 1 (Some 2)); star ws; str ")"].

(* /(?:delay|sleep|wait)\s*\(\s*(\d{1,2})\s*\)/g *)
Definition re_delay : rx :=
  seq [Alt (str "delay") (Alt (str "sleep") (str "wait")); star ws; str "(";
       star ws; Group (Quant digit 1 (Some 2)); star ws; str ")"].

(* /Date\.now\s*\(\s*\)/g *)
Definition re_dateNow : rx :=
  seq [str "Date.now"; star ws; str "("; star ws; str ")"].

(* /new\s+Date\s*\(\s*\)/g *)
Definition re_newDate : rx :=
  seq [str "new"; plus ws; str "Date"; star ws; str "("; star ws; str ")"].

(* /timeout\s*[=:]\s*([1-9]0?)\b/g *)
Definition re_timeout : rx :=
  seq [str "timeout"; star ws; One (Cls (chars "=:")); star ws;
       Group (Seq (One (Cls [CRange 49 57])) (opt (ch "0"))); WordBoundary].

(* /setInterval\s*\([^-]+\)/g *)
Definition re_setInterval : rx :=
  seq [str "setInterval"; star ws; str "("; plus (NotCls (chars "-"));
       str ")"].

(* /Promise\.race\s*\(\s*\[[^\]]*\]\s*\)/g *)
Definition re_race : rx :=
  seq [str "Promise.race"; star ws; str "("; star ws; str "[";
       star (NotCls (chars "]")); str "]"; star ws; str ")"].

(* /Math\.random\s*\(\s*\)/g *)
Definition re_random : rx :=
  seq [str "Math.random"; star ws; str "("; star ws; str ")"].

(* /process\.nextTick\s*\(/g *)
Definition re_nextTick : rx :=
  seq [str "process.nextTick"; star ws; str "("].

(* /(?:port|PORT)\s*[=:]\s*(\d{4,5})\b/g *)
Definition re_port : rx :=
  seq [Alt (str "port") (str "PORT"); star ws; One (Cls (chars "=:"));
       star ws; Group (Quant digit 4 (Some 5)); WordBoundary].

(* The class of the last pattern: the single quote, the backquote and the
   double quote (code units 39, 96 and 34). *)
Definition quotes : list class_item := [CChar 39; CChar 96; CChar 34].

(* /[quotes]\/tmp\/[^quotes]+[quotes]/g *)
Definition re_tmp : rx :=
  seq [One (Cls quotes); str "/tmp/"; plus (NotCls quotes);
       One (Cls quotes)].

Definition FLAKY_PATTERNS : list FlakyPattern := [
  (* HIGH severity *)
  {| name := js "1-second TTL";
     regex := g re_ttl;
     severity := High;
     risk := js "1-second TTL causes second-boundary race conditions. Tests may pass or fail depending on when they cross the second boundary.";
     fix_ := js "Use vi.useFakeTimers() to control time, or increase TTL to 5+ seconds for real-time tests." |};
  {| name := js "Second truncation";
     regex := g re_truncation;
     severity := High;
     risk := js "Second truncation creates edge cases at second boundaries. A test starting at X.999s may see different values than expected.";
     fix_ := js "Mock Date.now() with vi.useFakeTimers() and vi.setSystemTime() for deterministic timestamps." |};
  {| name := js "Very short setTimeout";
     regex := g re_setTimeout;
     severity := High;
     risk := js "Timeouts under 100ms are unreliable across different machines and CI environments.";
     fix_ := js "Use vi.useFakeTimers() and vi.advanceTimersByTime() instead of real timeouts." |};
  {| name := js "Short delay/sleep";
     regex := g re_delay;
     severity := High;
     risk := js "Very short delays are unreliable and cause race conditions.";
     fix_ := js "Use vi.useFakeTimers() or await specific conditions instead of arbitrary delays." |};
  (* MEDIUM severity *)
  {| name := js "Unmocked Date.now()";
     regex := g re_dateNow;
     severity := Medium;
     risk := js "Real time in tests causes non-determinism. Tests may fail near second/minute boundaries.";
     fix_ := js "Mock with vi.useFakeTimers() and vi.setSystemTime(new Date('2024-01-01T12:00:00Z'))." |};
  {| name := js "Unmocked new Date()";
     regex := g re_newDate;
     severity := Medium;
     risk := js "Real date creates non-deterministic behavior. Timezone and time-of-day can affect results.";
     fix_ := js "Mock with vi.useFakeTimers() or pass explicit date values to constructors." |};
  {| name := js "Low timeout value";
     regex := g re_timeout;
     severity := Medium;
     risk := js "Low timeout values (under 100ms) cause race conditions in CI environments with variable load.";
     fix_ := js "Increase timeout to 1000+ ms or use vi.useFakeTimers() for timeout-dependent logic." |};
  {| name := js "setInterval without cleanup";
     regex := g re_setInterval;
     severity := Medium;
     risk := js "Intervals without cleanup can leak between tests and cause interference.";
     fix_ := js "Store interval ID and call clearInterval in afterEach/cleanup, or use vi.useFakeTimers()." |};
  {| name := js "Promise.race without timeout";
     regex := g re_race;
     severity := Medium;
     risk := js "Promise.race can hang indefinitely if no timeout promise is included.";
     fix_ := js "Always include a timeout promise: Promise.race([operation(), timeout(5000)])." |};
  (* LOW severity *)
  {| name := js "Unseeded Math.random()";
     regex := g re_random;
     severity := Low;
     risk := js "Random values without seeding cause non-reproducible test behavior.";
     fix_ := js "Use a seeded random generator or mock Math.random with vi.spyOn(Math, 'random')." |};
  {| name := js "process.nextTick in tests";
     regex := g re_nextTick;
     severity := Low;
     risk := js "Timing-dependent assertions using nextTick can be order-dependent.";
     fix_ := js "Use await flushPromises() or explicit async/await patterns." |};
  {| name := js "Hardcoded port numbers";
     regex := g re_port;
     severity := Low;
     risk := js "Hardcoded ports can conflict when tests run in parallel.";
     fix_ := js "Use port 0 for random available port, or use getPort() utility." |};
  {| name := js "File system temp paths";
     regex := g re_tmp;
     severity := Low;
     risk := js "Shared temp paths can conflict between parallel test runs.";
     fix_ := js "Use os.tmpdir() with unique subdirectories, or use tmp-promise package." |}
].

(** The patterns of [isLikelyMocked]; none has the [g] flag. *)
Definition plain (r : rx) : RegExp :=
  {| source := r; ignoreCase := false; global := false |}.

Definition mockPatterns : list RegExp := [
  plain (str "vi.useFakeTimers");
  plain (str "jest.useFakeTimers");
  plain (str "vi.setSystemTime");
  plain (str "jest.setSystemTime");
  (* /vi\.spyOn\s*\(\s*Date/ *)
  plain (seq [str "vi.spyOn"; star ws; str "("; star ws; str "Date"]);
  (* /jest\.spyOn\s*\(\s*Date/ *)
  plain (seq [str "jest.spyOn"; star ws; str "("; star ws; str "Date"]);
  (* /mockDate/i *)
  {| source := str "mockDate"; ignoreCase := true; global := false |};
  plain (str "MockDate")
].

End Catalogue.

Definition FLAKY_PATTERNS := Catalogue.FLAKY_PATTERNS.

(** ** The runtime the program runs in *)

(** How a call ends: it returns a value, or it throws and nothing up to
    the top of the program catches the exception. *)
Inductive Completion (A : Type) : Type :=
| Normal (value : A)
| Throw.

Arguments Normal {A} value.
Arguments Throw {A}.

(** A directory entry as [readdirSync(dir, { withFileTypes: true })] gives it:
    the tree below a directory is a snapshot of the file system.
    [Directory n entries] is a directory that [readdirSync] lists,
    [Unlistable n] a directory on which [readdirSync] throws (no permission
    to read it), and [Other] stands for an entry that is neither a regular
    file nor a directory. *)
Inductive Dirent : Type :=
| File (entry_name : jsstring)
| Directory (entry_name : jsstring) (entries : list Dirent)
| Unlistable (entry_name : jsstring)
| Other (entry_name : jsstring).

(** What the program uses of Node: [path.join], [path.basename],
    [path.resolve] and [process.cwd()], and of the file system whether
    something exists at a path ([fs.existsSync]), the directory tree that
    [fs.readdirSync] finds there ([None]: [readdirSync] throws, as it does
    on a regular file, on a directory that cannot be read and on a path
    where nothing is) and the text of a file ([None]: [readFileSync]
    throws). *)
Record Node : Type := {
  path_join : jsstring -> jsstring -> jsstring;
  path_basename : jsstring -> jsstring;
  path_resolve : jsstring -> jsstring;
  cwd : jsstring;
  existsSync : jsstring -> bool;
  readdirSync : jsstring -> option (list Dirent);
  readFileSync : jsstring -> option jsstring
}.

(** ** [findTestFiles] *)

Definition ignoredDirectories : list jsstring :=
  [js "node_modules"; js "dist"; js "build"; js ".git"; js "coverage"].

(** [list.includes(x)] on strings. *)
Definition includes (l : list jsstring) (x : jsstring) : bool :=
  existsb (jsstring_eqb x) l.

Definition isTestFileName (n : jsstring) : bool :=
  endsWith n (js ".test.ts") || endsWith n (js ".spec.ts")
  || endsWith n (js ".test.tsx") || endsWith n (js ".spec.tsx")
  || endsWith n (js ".test.js") || endsWith n (js ".spec.js").

(** A [for (const x of l)] loop whose body may throw: the loop goes on
    with what the body returns and ends where the body throws. *)
Fixpoint forEach {A B : Type} (body : A -> B -> Completion A) (l : list B)
  (a : A) : Completion A :=
  match l with
  | [] => Normal a
  | x :: l' =>
      match body a x with
      | Normal a' => forEach body l' a'
      | Throw => Throw
      end
  end.

(** One turn of the loop over the entries of [dir]; a directory that is not
    ignored is walked by the recursive call, which pushes on the same
    array. The directory just listed exists, so the recursive call goes
    on to its [readdirSync], which throws on a directory that cannot be
    listed; nothing catches the exception. *)
Fixpoint visitEntry (env : Node) (dir : jsstring) (entry : Dirent)
  (files : list jsstring) : Completion (list jsstring) :=
  match entry with
  | Directory n sub =>
      if includes ignoredDirectories n then Normal files
      else
        forEach (fun fs e => visitEntry env (path_join env dir n) e fs)
          sub files
  | Unlistable n =>
      if includes ignoredDirectories n then Normal files else Throw
  | File n =>
      if isTestFileName n then Normal (files ++ [path_join env dir n])
      else Normal files
  | Other _ => Normal files
  end.

Definition findTestFilesIn (env : Node) (dir : jsstring)
  (entries : list Dirent) (files : list jsstring)
  : Completion (list jsstring) :=
  forEach (fun fs e => visitEntry env dir e fs) entries files.

Definition findTestFiles (env : Node) (dir : jsstring)
  (files : list jsstring) : Completion (list jsstring) :=
  if negb (existsSync env dir) then Normal files
  else
    match readdirSync env dir with
    | None => Throw
    | Some entries => findTestFilesIn env dir entries files
    end.

(** ** [extractContext] *)

Fixpoint mapi_from {A B : Type} (f : A -> nat -> B) (i : nat) (l : list A)
  : list B :=
  match l with
  | [] => []
  | x :: l' => f x i :: mapi_from f (S i) l'
  end.

(** [l.map((x, idx) => f(x, idx))]. *)
Definition mapi {A B : Type} (f : A -> nat -> B) (l : list A) : list B :=
  mapi_from f 0 l.

(** [l.slice(a, b)] for [0 <= a] and [0 <= b]. *)
Definition slice {A : Type} (l : list A) (a b : nat) : list A :=
  firstn (b - a) (skipn a l).

Definition extractContext (lines : list jsstring) (lineIndex : nat)
  (contextSize : nat) : list jsstring :=
  let start := Z.to_nat (Z.max 0 (Z.of_nat lineIndex - Z.of_nat contextSize)) in
  let end_ := Nat.min (length lines) (lineIndex + contextSize + 1) in
  mapi (fun line idx =>
          let actualLineNum := start + idx + 1 in
          let marker :=
            if Nat.eqb actualLineNum (lineIndex + 1) then js ">" else js " " in
          marker ++ js " " ++ padStart (toString actualLineNum) 4
            ++ js ": " ++ line)
       (slice lines start end_).

(** ** [isLikelyMocked] *)

Definition lookback : Z := 2000.

Definition beforeContent (content : jsstring) (matchIndex : nat) : jsstring :=
  substring content
    (Z.to_nat (Z.max 0 (Z.of_nat matchIndex - lookback))) matchIndex.

Definition isLikelyMocked (content : jsstring) (matchIndex : nat) : bool :=
  existsb (fun p => Regex.test p (beforeContent content matchIndex))
    Catalogue.mockPatterns.

(** ** [scanFile] *)

(** The regular expressions of the catalogue are objects shared by all the
    calls of [scanFile]: the state that outlives a call is the [lastIndex] of
    each of them, by position in the catalogue. *)
Definition RegexState := nat -> nat.

Definition setLastIndex (st : RegexState) (i v : nat) : RegexState :=
  fun j => if Nat.eqb j i then v else st j.

Definition lineNumberAt (content : jsstring) (matchIndex : nat) : nat :=
  length (split_nl (substring content 0 matchIndex)).

(** The object pushed for an accepted match. *)
Definition mkDetection (filePath content : jsstring) (lines : list jsstring)
  (p : FlakyPattern) (m : Regex.MatchResult) : Detection :=
  let lineNumber := lineNumberAt content (Regex.index m) in
  let lineIndex := lineNumber - 1 in
  {| file := filePath;
     line := lineNumber;
     pattern := name p;
     matchedText :=
       substring content (Regex.index m) (Regex.endIndex m);
     d_severity := severity p;
     d_risk := risk p;
     d_fix := fix_ p;
     context := extractContext lines lineIndex 3 |}.

Definition skipped (p : FlakyPattern) (content : jsstring)
  (m : Regex.MatchResult) : bool :=
  negb (Severity_eqb (severity p) High)
  && isLikelyMocked content (Regex.index m).

(** The [while ((match = pattern.regex.exec(content)) !== null)] loop. Each
    turn costs one unit of [fuel]; [None] is a loop that has not ended when
    the fuel is spent. The result is the array and the [lastIndex] left in
    the regular expression. *)
Fixpoint execLoop (fuel : nat) (filePath content : jsstring)
  (lines : list jsstring) (p : FlakyPattern) (lastIndex : nat)
  (acc : list Detection) : option (list Detection * nat) :=
  match fuel with
  | 0 => None
  | S fuel' =>
      match Regex.exec (regex p) content lastIndex with
      | (None, li) => Some (acc, li)
      | (Some m, li) =>
          if skipped p content m
          then execLoop fuel' filePath content lines p li acc
          else execLoop fuel' filePath content lines p li
                 (acc ++ [mkDetection filePath content lines p m])
      end
  end.

(** The [for (const pattern of FLAKY_PATTERNS)] loop, from the pattern at
    position [i] on. *)
Fixpoint scanPatterns (fuel : nat) (filePath content : jsstring)
  (lines : list jsstring) (ps : list FlakyPattern) (i : nat)
  (st : RegexState) (acc : list Detection)
  : option (list Detection * RegexState) :=
  match ps with
  | [] => Some (acc, st)
  | p :: ps' =>
      (* pattern.regex.lastIndex = 0 *)
      let st0 := setLastIndex st i 0 in
      match execLoop fuel filePath content lines p (st0 i) acc with
      | None => None
      | Some (acc', li) =>
          scanPatterns fuel filePath content lines ps' (S i)
            (setLastIndex st0 i li) acc'
      end
  end.

(** [scanFile] with a bound on the turns of each matching loop. A file
    that cannot be read is caught: the array returned is empty. *)
Definition scanFileWithin (fuel : nat) (env : Node) (st : RegexState)
  (filePath : jsstring) : option (list Detection * RegexState) :=
  match readFileSync env filePath with
  | None => Some ([], st)
  | Some content =>
      scanPatterns fuel filePath content (split_nl content)
        FLAKY_PATTERNS 0 st []
  end.

(** The turns [scanFile] needs on a text: every match is at least one code
    unit long (lemma [catalogue_patterns]). *)
Definition turns (env : Node) (filePath : jsstring) : nat :=
  match readFileSync env filePath with
  | None => 0
  | Some content => S (length content)
  end.

Definition scanFile (env : Node) (st : RegexState) (filePath : jsstring)
  : list Detection * RegexState :=
  match scanFileWithin (turns env filePath) env st filePath with
  | Some r => r
  | None => ([], st)
  end.

(** ** [scanDirectory] *)

(** The [for (const file of testFiles)] loop. *)
Fixpoint scanFiles (env : Node) (testFiles : list jsstring)
  (st : RegexState) (allDetections : list Detection) (byFile_ : FileMap)
  : list Detection * FileMap * RegexState :=
  match testFiles with
  | [] => (allDetections, byFile_, st)
  | f :: fs =>
      let (fileDetections, st') := scanFile env st f in
      if Nat.ltb 0 (length fileDetections)
      then scanFiles env fs st' (allDetections ++ fileDetections)
             (Map_set byFile_ f fileDetections)
      else scanFiles env fs st' allDetections byFile_
  end.

Definition hasSeverity (s : Severity) (d : Detection) : bool :=
  Severity_eqb (d_severity d) s.

(** [scanDirectory] has no [try]: what [findTestFiles] throws goes
    through it. *)
Definition scanDirectory (env : Node) (st : RegexState) (dir : jsstring)
  : Completion (ScanResult * RegexState) :=
  match findTestFiles env dir [] with
  | Throw => Throw
  | Normal testFiles =>
      let '(allDetections, byFile_, st') := scanFiles env testFiles st [] [] in
      Normal
        ({| scannedFiles := length testFiles;
            totalDetections := length allDetections;
            detections := allDetections;
            byFile := byFile_;
            bySeverity :=
              {| high := filter (hasSeverity High) allDetections;
                 medium := filter (hasSeverity Medium) allDetections;
                 low := filter (hasSeverity Low) allDetections |} |},
         st')
  end.

(** ** JSON texts *)

Module JSON.

(** The values the program serializes: objects with their members in
    insertion order, arrays, strings and non-negative integers. *)
Inductive value : Type :=
| Num (n : nat)
| Str (s : jsstring)
| Arr (items : list value)
| Obj (members : list (jsstring * value)).

Definition hexDigit (n : N) : char :=
  if N.ltb n 10 then (48 + n)%N else (87 + n)%N.

(** [\uXXXX] with lower case digits. *)
Definition unicodeEscape (c : char) : jsstring :=
  [92; 117; hexDigit ((c / 4096) mod 16); hexDigit ((c / 256) mod 16);
   hexDigit ((c / 16) mod 16); hexDigit (c mod 16)]%N.

Definition isHighSurrogate (c : char) : bool :=
  N.leb 55296 c && N.leb c 56319.
Definition isLowSurrogate (c : char) : bool :=
  N.leb 56320 c && N.leb c 57343.

(** The escape of one code unit that is not a surrogate. *)
Definition escapeUnit (c : char) : jsstring :=
  if N.eqb c 8 then [92; 98]%N
  else if N.eqb c 9 then [92; 116]%N
  else if N.eqb c 10 then [92; 110]%N
  else if N.eqb c 12 then [92; 102]%N
  else if N.eqb c 13 then [92; 114]%N
  else if N.eqb c 34 then [92; 34]%N
  else if N.eqb c 92 then [92; 92]%N
  else if N.ltb c 32 then unicodeEscape c
  else [c].

(** QuoteJSONString without the quotes: a surrogate pair is copied, a
    surrogate alone is escaped. *)
Fixpoint quoteBody (s : jsstring) : jsstring :=
  match s with
  | [] => []
  | c :: tl =>
      if isHighSurrogate c then
        match tl with
        | d :: tl' =>
            if isLowSurrogate d then c :: d :: quoteBody tl'
            else unicodeEscape c ++ quoteBody tl
        | [] => unicodeEscape c
        end
      else if isLowSurrogate c then unicodeEscape c ++ quoteBody tl
      else escapeUnit c ++ quoteBody tl
  end.

Definition quote (s : jsstring) : jsstring := [34%N] ++ quoteBody s ++ [34%N].

(** [JSON.stringify(v, null, gap)] for a gap that is not empty; [indent] is
    the current indentation. *)
Fixpoint serialize (gap indent : jsstring) (v : value) : jsstring :=
  match v with
  | Num n => toString n
  | Str s => quote s
  | Arr items =>
      match items with
      | [] => js "[]"
      | _ =>
          let inner := indent ++ gap in
          js "[" ++ [NL] ++ inner
            ++ join (js "," ++ [NL] ++ inner) (map (serialize gap inner) items)
            ++ [NL] ++ indent ++ js "]"
      end
  | Obj members =>
      match members with
      | [] => js "{}"
      | _ =>
          let inner := indent ++ gap in
          js "{" ++ [NL] ++ inner
            ++ join (js "," ++ [NL] ++ inner)
                 (map (fun kv => quote (fst kv) ++ js ": "
                                   ++ serialize gap inner (snd kv)) members)
            ++ [NL] ++ indent ++ js "}"
      end
  end.

Definition stringify (v : value) (space : nat) : jsstring :=
  serialize (repeat 32%N space) [] v.

(** *** Reading a JSON text back *)

Definition isWs (c : char) : bool :=
  N.eqb c 32 || N.eqb c 9 || N.eqb c 10 || N.eqb c 13.

Fixpoint skipWs (s : jsstring) : jsstring :=
  match s with
  | c :: tl => if isWs c then skipWs tl else s
  | [] => []
  end.

Definition hexValue (c : char) : option N :=
  if N.leb 48 c && N.leb c 57 then Some (c - 48)%N
  else if N.leb 97 c && N.leb c 102 then Some (c - 87)%N
  else if N.leb 65 c && N.leb c 70 then Some (c - 55)%N
  else None.

Definition unescape (c : char) : option char :=
  if N.eqb c 98 then Some 8%N
  else if N.eqb c 116 then Some 9%N
  else if N.eqb c 110 then Some 10%N
  else if N.eqb c 102 then Some 12%N
  else if N.eqb c 114 then Some 13%N
  else if N.eqb c 34 then Some 34%N
  else if N.eqb c 92 then Some 92%N
  else if N.eqb c 47 then Some 47%N
  else None.

(** The characters of a string after the opening quote, up to the closing
    one. *)
Fixpoint parseChars (s : jsstring) : option (jsstring * jsstring) :=
  match s with
  | [] => None
  | c :: tl =>
      if N.eqb c 34 then Some ([], tl)
      else if N.eqb c 92 then
        match tl with
        | [] => None
        | e :: tl1 =>
            if N.eqb e 117 then
              match tl1 with
              | h1 :: h2 :: h3 :: h4 :: tl2 =>
                  match hexValue h1, hexValue h2, hexValue h3, hexValue h4 with
                  | Some a, Some b, Some c', Some d =>
                      match parseChars tl2 with
                      | Some (body, r) =>
                          Some ((a * 4096 + b * 256 + c' * 16 + d)%N :: body, r)
                      | None => None
                      end
                  | _, _, _, _ => None
                  end
              | _ => None
              end
            else
              match unescape e with
              | Some u =>
                  match parseChars tl1 with
                  | Some (body, r) => Some (u :: body, r)
                  | None => None
                  end
              | None => None
              end
        end
      else if N.ltb c 32 then None
      else
        match parseChars tl with
        | Some (body, r) => Some (c :: body, r)
        | None => None
        end
  end.

Definition digitOfChar (c : char) : option (Decimal.uint -> Decimal.uint) :=
  if N.eqb c 48 then Some Decimal.D0
  else if N.eqb c 49 then Some Decimal.D1
  else if N.eqb c 50 then Some Decimal.D2
  else if N.eqb c 51 then Some Decimal.D3
  else if N.eqb c 52 then Some Decimal.D4
  else if N.eqb c 53 then Some Decimal.D5
  else if N.eqb c 54 then Some Decimal.D6
  else if N.eqb c 55 then Some Decimal.D7
  else if N.eqb c 56 then Some Decimal.D8
  else if N.eqb c 57 then Some Decimal.D9
  else None.

(** The longest run of digits in front of [s]. *)
Fixpoint parseDigits (s : jsstring) : Decimal.uint * jsstring :=
  match s with
  | [] => (Decimal.Nil, [])
  | c :: tl =>
      match digitOfChar c with
      | Some digit => let (u, r) := parseDigits tl in (digit u, r)
      | None => (Decimal.Nil, s)
      end
  end.

(** An integer without sign, fraction or exponent; a zero in front of
    another digit is refused. *)
Definition parseNumber (s : jsstring) : option (nat * jsstring) :=
  match parseDigits s with
  | (Decimal.Nil, _) => None
  | (Decimal.D0 (Decimal.Nil), r) => Some (0, r)
  | (Decimal.D0 _, _) => None
  | (u, r) => Some (Nat.of_uint u, r)
  end.

Fixpoint parseValue (fuel : nat) (s : jsstring) {struct fuel}
  : option (value * jsstring) :=
  match fuel with
  | 0 => None
  | S fuel' =>
      match skipWs s with
      | [] => None
      | c :: tl =>
          if N.eqb c 34 then
            match parseChars tl with
            | Some (body, r) => Some (Str body, r)
            | None => None
            end
          else if N.eqb c 91 then
            match skipWs tl with
            | [] => None
            | d :: tl' =>
                if N.eqb d 93 then Some (Arr [], tl')
                else
                  match parseElements fuel' (d :: tl') with
                  | Some (items, r) => Some (Arr items, r)
                  | None => None
                  end
            end
          else if N.eqb c 123 then
            match skipWs tl with
            | [] => None
            | d :: tl' =>
                if N.eqb d 125 then Some (Obj [], tl')
                else
                  match parseMembers fuel' (d :: tl') with
                  | Some (members, r) => Some (Obj members, r)
                  | None => None
                  end
            end
          else
            match parseNumber (c :: tl) with
            | Some (n, r) => Some (Num n, r)
            | None => None
            end
      end
  end
with parseElements (fuel : nat) (s : jsstring) {struct fuel}
  : option (list value * jsstring) :=
  match fuel with
  | 0 => None
  | S fuel' =>
      match parseValue fuel' s with
      | None => None
      | Some (v, r) =>
          match skipWs r with
          | [] => None
          | c :: tl =>
              if N.eqb c 44 then
                match parseElements fuel' tl with
                | Some (vs, r') => Some (v :: vs, r')
                | None => None
                end
              else if N.eqb c 93 then Some ([v], tl)
              else None
          end
      end
  end
with parseMembers (fuel : nat) (s : jsstring) {struct fuel}
  : option (list (jsstring * value) * jsstring) :=
  match fuel with
  | 0 => None
  | S fuel' =>
      match skipWs s with
      | [] => None
      | q :: tl0 =>
          if N.eqb q 34 then
            match parseChars tl0 with
            | None => None
            | Some (key, r0) =>
                match skipWs r0 with
                | [] => None
                | colon :: r1 =>
                    if N.eqb colon 58 then
                      match parseValue fuel' r1 with
                      | None => None
                      | Some (v, r) =>
                          match skipWs r with
                          | [] => None
                          | c :: tl =>
                              if N.eqb c 44 then
                                match parseMembers fuel' tl with
                                | Some (ms, r') => Some ((key, v) :: ms, r')
                                | None => None
                                end
                              else if N.eqb c 125 then Some ([(key, v)], tl)
                              else None
                          end
                      end
                    else None
                end
            end
          else None
      end
  end.

(** [JSON.parse(text)] on the texts above; anything but white space after
    the value is refused. *)
Definition parse (text : jsstring) : option value :=
  match parseValue (S (length text)) text with
  | Some (v, r) =>
      match skipWs r with
      | [] => Some v
      | _ :: _ => None
      end
  | None => None
  end.

(** What the round trip needs of the text after a number: no digit comes
    next. *)
Definition noDigitAhead (rest : jsstring) : Prop :=
  match rest with
  | [] => True
  | c :: _ => digitOfChar c = None
  end.

Definition allWs (l : jsstring) : Prop := Forall (fun c => isWs c = true) l.

(** The text of one member of an object. *)
Definition memberText (gap inner : jsstring) (kv : jsstring * value)
  : jsstring :=
  quote (fst kv) ++ js ": " ++ serialize gap inner (snd kv).

(** [parseValue] reads the text of [v] back, white space in front of it
    skipped, given fuel beyond the length of the text. *)
Definition reads (gap : jsstring) (v : value) : Prop :=
  forall indent pre rest fuel,
    allWs indent -> allWs pre -> noDigitAhead rest ->
    length (serialize gap indent v) < fuel ->
    parseValue fuel (pre ++ serialize gap indent v ++ rest) = Some (v, rest).

(** [o.key] for an object. *)
Fixpoint get (members : list (jsstring * value)) (key : jsstring)
  : option value :=
  match members with
  | [] => None
  | (k, v) :: ms => if jsstring_eqb k key then Some v else get ms key
  end.

End JSON.

(** ** [formatAsMarkdown] *)

(** A literal that ends with a newline. *)
Definition jsn (s : string) : jsstring := js s ++ [NL].

Definition allClear : jsstring :=
  jsn "No flaky patterns detected. Your tests look deterministic!".

Definition highSection (env : Node) (d : Detection) : list jsstring :=
  [js "**" ++ path_basename env (file d) ++ js ":" ++ toString (line d)
     ++ js "**";
   js "- Pattern: `" ++ matchedText d ++ js "`";
   js "- Risk: " ++ d_risk d;
   js "- Fix: " ++ d_fix d;
   [NL] ++ js "```typescript";
   join [NL] (context d);
   jsn "```"].

Definition mediumSection (env : Node) (d : Detection) : list jsstring :=
  [js "**" ++ path_basename env (file d) ++ js ":" ++ toString (line d)
     ++ js "**";
   js "- Pattern: `" ++ matchedText d ++ js "`";
   js "- Risk: " ++ d_risk d;
   js "- Fix: " ++ d_fix d ++ [NL]].

Definition lowLine (env : Node) (d : Detection) : jsstring :=
  js "- **" ++ path_basename env (file d) ++ js ":" ++ toString (line d)
    ++ js "**: `" ++ matchedText d ++ js "`".

Definition nonEmpty {A : Type} (l : list A) : bool := Nat.ltb 0 (length l).

Definition formatAsMarkdown (env : Node) (result : ScanResult) : jsstring :=
  let lines0 :=
    [jsn "## Flaky Test Analysis";
     js "Scanned **" ++ toString (scannedFiles result)
       ++ js "** test files, found **" ++ toString (totalDetections result)
       ++ jsn "** potential flaky patterns."] in
  if Nat.eqb (totalDetections result) 0 then
    join [NL] (lines0 ++ [allClear])
  else
    let by_ := bySeverity result in
    let summary :=
      [jsn "### Summary";
       js "| Severity | Count |";
       js "|----------|-------|";
       js "| High | " ++ toString (length (high by_)) ++ js " |";
       js "| Medium | " ++ toString (length (medium by_)) ++ js " |";
       js "| Low | " ++ toString (length (low by_)) ++ js " |";
       []] in
    let highPart :=
      if nonEmpty (high by_)
      then jsn "### High Risk" :: flat_map (highSection env) (high by_)
      else [] in
    let mediumPart :=
      if nonEmpty (medium by_)
      then jsn "### Medium Risk" :: flat_map (mediumSection env) (medium by_)
      else [] in
    let lowPart :=
      if nonEmpty (low by_)
      then [jsn "### Low Risk";
            js "<details><summary>Show " ++ toString (length (low by_))
              ++ jsn " low-risk patterns</summary>"]
           ++ map (lowLine env) (low by_)
           ++ [[NL] ++ jsn "</details>"]
      else [] in
    let actions :=
      [jsn "### Recommended Actions"]
      ++ (if nonEmpty (high by_)
          then [js "1. **Immediate**: Fix all HIGH severity issues before merging";
                js "2. Add `vi.useFakeTimers()` in `beforeEach` for time-dependent tests";
                js "3. Use `vi.setSystemTime()` for deterministic date/time"]
          else [])
      ++ (if nonEmpty (medium by_)
          then [js "4. Review MEDIUM severity patterns for potential issues"]
          else [])
      ++ [jsn "5. Consider adding this check to CI to prevent new flaky patterns"] in
    join [NL]
      (lines0 ++ summary ++ highPart ++ mediumPart ++ lowPart ++ actions).

(** ** [formatAsJson] *)

Definition detectionJson (d : Detection) : JSON.value :=
  JSON.Obj
    [(js "file", JSON.Str (file d));
     (js "line", JSON.Num (line d));
     (js "pattern", JSON.Str (pattern d));
     (js "matchedText", JSON.Str (matchedText d));
     (js "severity", JSON.Str (Severity_text (d_severity d)));
     (js "risk", JSON.Str (d_risk d));
     (js "fix", JSON.Str (d_fix d))].

(** The object handed to [JSON.stringify]. *)
Definition reportJson (result : ScanResult) : JSON.value :=
  JSON.Obj
    [(js "scannedFiles", JSON.Num (scannedFiles result));
     (js "totalDetections", JSON.Num (totalDetections result));
     (js "summary",
      JSON.Obj
        [(js "high", JSON.Num (length (high (bySeverity result))));
         (js "medium", JSON.Num (length (medium (bySeverity result))));
         (js "low", JSON.Num (length (low (bySeverity result))))]);
     (js "detections", JSON.Arr (map detectionJson (detections result)))].

Definition formatAsJson (result : ScanResult) : jsstring :=
  JSON.stringify (reportJson result) 2.

(** ** The command line driver *)

Definition helpText : jsstring :=
  js "
Flaky Test Detector - Find patterns that cause intermittent test failures

Usage:
  npx tsx index.ts [directory] [options]

Arguments:
  directory    Directory to scan (default: current directory)

Options:
  --json       Output results as JSON
  --ci         CI mode: exit with code 1 if HIGH severity issues found
  --quiet      Suppress output except errors (for CI)
  --help       Show this help message

Examples:
  # Scan current directory
  npx tsx index.ts

  # Scan specific directory
  npx tsx index.ts ./src/tests

  # CI pipeline usage
  npx tsx index.ts --ci

  # JSON output for tooling
  npx tsx index.ts --json > flaky-report.json
".

(** What a run leaves: the calls of [console.log], the exit status and the
    result of the scan when one was made and returned. The lines of
    [console.error] are left out. *)
Record Outcome : Type := {
  stdout : list jsstring;
  exitCode : nat;
  scanned : option ScanResult
}.

(** At start every regular expression of the catalogue has [lastIndex] 0. *)
Definition initialState : RegexState := fun _ => 0.

Definition targetDirOf (env : Node) (args : list jsstring) : jsstring :=
  match find (fun arg => negb (startsWith arg (js "--"))) args with
  | Some (c :: dirArg) => path_resolve env (c :: dirArg)
  | _ => cwd env
  end.

Definition main (env : Node) (args : list jsstring) : Outcome :=
  let jsonOutput := includes args (js "--json") in
  let ciMode := includes args (js "--ci") in
  let quiet := includes args (js "--quiet") in
  let help := includes args (js "--help") || includes args (js "-h") in
  if help then
    {| stdout := [helpText]; exitCode := 0; scanned := None |}
  else
    let targetDir := targetDirOf env args in
    match scanDirectory env initialState targetDir with
    | Throw =>
        (* an uncaught exception: Node prints it on the standard error and
           the process ends with status 1, before any [console.log] *)
        {| stdout := []; exitCode := 1; scanned := None |}
    | Normal (result, _) =>
        let out :=
          if jsonOutput then [formatAsJson result]
          else if negb quiet then [formatAsMarkdown env result]
          else [] in
        if ciMode && nonEmpty (high (bySeverity result)) then
          {| stdout := out; exitCode := 1; scanned := Some result |}
        else
          {| stdout := out; exitCode := 0; scanned := Some result |}
    end.

(** ** The scanner, as the specification words it *)

(** What one match contributes to the array of [scanFile]. *)
Definition emit (filePath content : jsstring) (lines : list jsstring)
  (p : FlakyPattern) (m : Regex.MatchResult) : list Detection :=
  if skipped p content m then []
  else [mkDetection filePath content lines p m].

(** The detections of a file, given for each pattern of the catalogue the
    matches its loop goes through. *)
Definition detectionsOf (filePath content : jsstring)
  (found : list (FlakyPattern * list Regex.MatchResult)) : list Detection :=
  flat_map
    (fun pm => flat_map (emit filePath content (split_nl content) (fst pm))
                 (snd pm))
    found.

(** The window before a match: the code units of [content] from [start -
    2000], or from the start of the file, up to [start]. *)
Definition lookbackWindow (content : jsstring) (start : nat) : jsstring :=
  skipn (start - 2000) (firstn start content).

Definition occurs (sig w : jsstring) : Prop :=
  exists a b, w = a ++ sig ++ b.

Definition occursAnyCase (sig w : jsstring) : Prop :=
  exists a u b, w = a ++ u ++ b
                /\ map Regex.to_upper u = map Regex.to_upper sig.

Definition blank (u : jsstring) : Prop :=
  Forall (fun c => Regex.is_space c = true) u.

(** [obj.spyOn(Date], with any white space around the parenthesis. *)
Definition spiesOnDate (obj w : jsstring) : Prop :=
  exists a s1 s2 b,
    blank s1 /\ blank s2
    /\ w = a ++ (obj ++ js ".spyOn") ++ s1 ++ js "(" ++ s2 ++ js "Date" ++ b.

Definition hasMitigationSignature (w : jsstring) : Prop :=
  occurs (js "vi.useFakeTimers") w \/ occurs (js "jest.useFakeTimers") w
  \/ occurs (js "vi.setSystemTime") w \/ occurs (js "jest.setSystemTime") w
  \/ spiesOnDate (js "vi") w \/ spiesOnDate (js "jest") w
  \/ occursAnyCase (js "mockDate") w \/ occurs (js "MockDate") w.

(** The newline characters of a text. *)
Definition newlines (s : jsstring) : nat := count_occ N.eq_dec s NL.

(** The offset at which line [n] (counted from 0) starts, in a text whose
    lines are [ls]: every line before it takes its length and a newline. *)
Definition lineStart (ls : list jsstring) (n : nat) : nat :=
  list_sum (map (fun l => S (length l)) (firstn n ls)).

(** The offset [i] of [content] is on the line of number [N], counted from
    1: between the start of that line and its end. *)
Definition onLine (content : jsstring) (i N : nat) : Prop :=
  1 <= N <= length (split_nl content)
  /\ lineStart (split_nl content) (N - 1) <= i
  /\ i <= lineStart (split_nl content) (N - 1)
          + length (nth (N - 1) (split_nl content) []).

(** A regular file named [n] is in the tree [entries], below the
    directories [names] (outermost first). *)
Inductive FileAt : list Dirent -> list jsstring -> jsstring -> Prop :=
| FileAt_here : forall entries n,
    In (File n) entries -> FileAt entries [] n
| FileAt_below : forall entries d sub names n,
    In (Directory d sub) entries -> FileAt sub names n ->
    FileAt entries (d :: names) n.

(** The result of a scan that found nothing in [n] files. *)
Definition emptyResult (n : nat) : ScanResult :=
  {| scannedFiles := n;
     totalDetections := 0;
     detections := [];
     byFile := [];
     bySeverity := {| high := []; medium := []; low := [] |} |}.

(** The detection with its [file] field replaced. *)
Definition withFile (f : jsstring) (d : Detection) : Detection :=
  {| file := f;
     line := line d;
     pattern := pattern d;
     matchedText := matchedText d;
     d_severity := d_severity d;
     d_risk := d_risk d;
     d_fix := d_fix d;
     context := context d |}.

(** A directory name the walk does not skip. *)
Definition notIgnored (n : jsstring) : Prop :=
  includes ignoredDirectories n = false.

(** The path of the file [n] below the directories [names] of [dir]. *)
Definition pathOf (env : Node) (dir : jsstring) (names : list jsstring)
  (n : jsstring) : jsstring :=
  path_join env (fold_left (path_join env) names dir) n.

(** The paths that the walk of the entry [e] of [dir] pushes, in order,
    when nothing throws. *)
Fixpoint filesUnder (env : Node) (dir : jsstring) (e : Dirent)
  : list jsstring :=
  match e with
  | File n => if isTestFileName n then [path_join env dir n] else []
  | Directory n sub =>
      if includes ignoredDirectories n then []
      else flat_map (filesUnder env (path_join env dir n)) sub
  | Unlistable _ => []
  | Other _ => []
  end.



(** The same, decided on one entry. *)
Fixpoint blocked (e : Dirent) : bool :=
  match e with
  | Directory n sub =>
      negb (includes ignoredDirectories n) && existsb blocked sub
  | Unlistable n => negb (includes ignoredDirectories n)
  | File _ => false
  | Other _ => false
  end.

(** The result of a scan that returned. *)
Definition resultOf (c : Completion (ScanResult * RegexState))
  : option ScanResult :=
  match c with
  | Normal (r, _) => Some r
  | Throw => None
  end.

(** What [scanFile] finds in a file, the state of the regular expressions
    being immaterial (lemma [scanFile_same_text]). *)
Definition detectionsIn (env : Node) (f : jsstring) : list Detection :=
  fst (scanFile env initialState f).






(** ** A small runtime, for the examples *)

(** [path.join] and [path.basename] of POSIX on a normalized directory and
    a plain name. *)
Definition posixJoin (dir n : jsstring) : jsstring := dir ++ js "/" ++ n.

Fixpoint posixBasenameFrom (cur p : jsstring) : jsstring :=
  match p with
  | [] => rev cur
  | c :: p' =>
      if N.eqb c 47 then posixBasenameFrom [] p'
      else posixBasenameFrom (c :: cur) p'
  end.

Definition posixBasename (p : jsstring) : jsstring := posixBasenameFrom [] p.

Fixpoint textOf (files : list (jsstring * jsstring)) (p : jsstring)
  : option jsstring :=
  match files with
  | [] => None
  | (k, t) :: files' => if jsstring_eqb k p then Some t else textOf files' p
  end.

Definition sampleTree : list Dirent :=
  [Directory (js "src") [File (js "clock.test.ts"); File (js "clock.ts")];
   Directory (js "node_modules") [File (js "dep.test.js")];
   File (js "server.spec.js");
   Other (js "link.test.ts")].

Definition clockTest : jsstring :=
  js "vi.useFakeTimers();" ++ [NL]
  ++ js "const t = Date.now();" ++ [NL]
  ++ js "const ttlSeconds = 1;".

Definition serverSpec : jsstring :=
  js "const now = Date.now();" ++ [NL]
  ++ js "await sleep(5);" ++ [NL]
  ++ js "const PORT = 8080;".

Definition sampleTexts : list (jsstring * jsstring) :=
  [(js "/repo/src/clock.test.ts", clockTest);
   (js "/repo/server.spec.js", serverSpec);
   (js "/repo/node_modules/dep.test.js", js "const ttlSeconds = 1;")].

(** The directory [/repo] and the regular files of [sampleTexts] exist;
    [readdirSync] throws on all but the directory. *)
Definition sampleNode : Node :=
  {| path_join := posixJoin;
     path_basename := posixBasename;
     path_resolve := fun p => p;
     cwd := js "/repo";
     existsSync :=
       fun d => jsstring_eqb d (js "/repo")
                || match textOf sampleTexts d with
                   | Some _ => true
                   | None => false
                   end;
     readdirSync :=
       fun d => if jsstring_eqb d (js "/repo") then Some sampleTree else None;
     readFileSync := textOf sampleTexts |}.

(** A state in which earlier scans left positions in the regular
    expressions. *)
Definition usedState : RegexState := fun i => 7 + i.

Definition clockPath : jsstring := js "/repo/src/clock.test.ts".
Definition serverPath : jsstring := js "/repo/server.spec.js".

(** ** Trees as a file system has them *)

Definition entryName (e : Dirent) : jsstring :=
  match e with
  | File n => n
  | Directory n _ => n
  | Unlistable n => n
  | Other n => n
  end.

(** A name without the path separator. *)
Definition plainName (n : jsstring) : Prop := ~ In 47%N n.

(** In every directory of the tree the names are plain and distinct. *)
Inductive wellNamed : list Dirent -> Prop :=
| WellNamed : forall entries,
    NoDup (map entryName entries) ->
    Forall (fun e => plainName (entryName e)) entries ->
    (forall d sub, In (Directory d sub) entries -> wellNamed sub) ->
    wellNamed entries.

(** ** Occurrences of a pattern *)

(** The pattern of [re] matches the code units of [s] from offset [i] up to
    offset [e]. *)
Definition matchesAt (re : Regex.RegExp) (s : jsstring) (i e : nat) : Prop :=
  i <= length s
  /\ exists y,
       Regex.Derives (Regex.ignoreCase re) (Regex.source re)
         (Regex.cursor_at s i) y
       /\ Regex.pos y = e.

(** The order of the severities in the catalogue. *)
Definition severityRank (s : Severity) : nat :=
  match s with
  | High => 0
  | Medium => 1
  | Low => 2
  end.

(** The map [byFile] after the loop of [scanDirectory] over [files], from
    the map [m]. *)
Definition byFileAfter (env : Node) (files : list jsstring) (m : FileMap)
  : FileMap :=
  fold_left
    (fun mp f =>
       if nonEmpty (detectionsIn env f)
       then Map_set mp f (detectionsIn env f) else mp)
    files m.

(** One line of a context block. *)
Definition contextLine (lines : list jsstring) (lineIndex n : nat)
  : jsstring :=
  (if Nat.eqb n lineIndex then js ">" else js " ")
  ++ js " " ++ padStart (toString (n + 1)) 4 ++ js ": " ++ nth n lines [].

(** [d] does not come after [d'] in the order of the severities. *)
Definition rankLe (d d' : Detection) : Prop :=
  severityRank (d_severity d) <= severityRank (d_severity d').

(** The six endings of a test-file name. *)
Definition testSuffixes : list jsstring :=
  [js ".test.ts"; js ".spec.ts"; js ".test.tsx"; js ".spec.tsx";
   js ".test.js"; js ".spec.js"].

(** ** A second sample: a file of timers *)

Definition timersSpec : jsstring :=
  js "setTimeout(done, 50);" ++ [NL]
  ++ js "const opts = { timeout: 20 };" ++ [NL]
  ++ js "const span = Date.now() - Date.now();".

Definition timersPath : jsstring := js "/lab/timers.spec.ts".

Definition timersNode : Node :=
  {| path_join := posixJoin;
     path_basename := posixBasename;
     path_resolve := fun p => p;
     cwd := js "/lab";
     existsSync := fun d => jsstring_eqb d (js "/lab");
     readdirSync :=
       fun d => if jsstring_eqb d (js "/lab")
                then Some [File (js "timers.spec.ts")] else None;
     readFileSync := textOf [(timersPath, timersSpec)] |}.

(** ** A third sample: a directory that cannot be read *)

(** No test file, and a sub-directory that [readdirSync] cannot list. *)
Definition docsTree : list Dirent :=
  [File (js "notes.txt");
   Directory (js "coverage") [Unlistable (js "raw")]].

Definition vaultTree : list Dirent :=
  [File (js "README.md");
   Directory (js "docs") docsTree;
   Unlistable (js "private")].

(** [/vault] and [/vault/docs] are directories that can be listed;
    [/vault/private] and [/vault/docs/coverage/raw] cannot. *)
Definition vaultNode : Node :=
  {| path_join := posixJoin;
     path_basename := posixBasename;
     path_resolve := fun p => p;
     cwd := js "/vault";
     existsSync :=
       fun d => includes [js "/vault"; js "/vault/docs"; js "/vault/private"] d;
     readdirSync :=
       fun d => if jsstring_eqb d (js "/vault") then Some vaultTree
                else if jsstring_eqb d (js "/vault/docs") then Some docsTree
                else None;
     readFileSync := fun _ => None |}.

(** * Properties *)

Unset Implicit Arguments.

(** ** The matcher *)

Module RegexFacts.
Import Regex.

Lemma orelse_some {A} (a b : option A) (e : A) :
  orelse a b = Some e -> a = Some e \/ (a = None /\ b = Some e).
Proof. destruct a; simpl; intros H; [left | right]; auto. Qed.

Lemma repeat_greedy_unfold ic a min max input p pv k :
  repeat_greedy ic a min max input p pv k =
  let here := Cursor p pv input in
  match max with
  | Some 0 => k here
  | _ =>
      let more :=
        match input with
        | c :: tl =>
            if atom_matches ic a c
            then repeat_greedy ic a (Nat.pred min) (option_map Nat.pred max)
                   tl (S p) (Some c) k
            else None
        | [] => None
        end in
      match min with
      | 0 => orelse more (k here)
      | S _ => more
      end
  end.
Proof. destruct input; reflexivity. Qed.

Lemma repeat_greedy_sound ic a : forall input min max p pv k e,
  repeat_greedy ic a min max input p pv k = Some e ->
  exists y, Derives ic (Quant a min max) (Cursor p pv input) y /\ k y = Some e.
Proof.
  induction input as [|c tl IH]; intros min max p pv k e H;
    rewrite repeat_greedy_unfold in H; cbv zeta in H.
  - destruct max as [[|m]|]; [ eexists; split; [apply D_QuantFull | exact H] | | ];
      (destruct min; [simpl in H; eexists; split; [apply D_QuantStop | exact H] | discriminate]).
  - assert (Hmore : max <> Some 0 ->
              (if atom_matches ic a c
               then repeat_greedy ic a (Nat.pred min) (option_map Nat.pred max) tl (S p) (Some c) k
               else None) = Some e ->
              exists y, Derives ic (Quant a min max) (Cursor p pv (c :: tl)) y /\ k y = Some e).
    { intros Hne Hm. destruct (atom_matches ic a c) eqn:Ea; [|discriminate].
      apply IH in Hm. destruct Hm as (y & Hd & Hk). exists y. split; [|exact Hk].
      eapply D_QuantStep; [exact Hne | reflexivity | exact Ea | exact Hd]. }
    destruct max as [[|m]|].
    + eexists; split; [apply D_QuantFull | exact H].
    + destruct min.
      * apply orelse_some in H. destruct H as [H | [_ H]].
        -- apply Hmore; [discriminate | exact H].
        -- eexists; split; [apply D_QuantStop | exact H].
      * apply Hmore; [discriminate | exact H].
    + destruct min.
      * apply orelse_some in H. destruct H as [H | [_ H]].
        -- apply Hmore; [discriminate | exact H].
        -- eexists; split; [apply D_QuantStop | exact H].
      * apply Hmore; [discriminate | exact H].
Qed.

Lemma run_sound ic : forall r x k e,
  run ic r x k = Some e -> exists y, Derives ic r x y /\ k y = Some e.
Proof.
  induction r; intros x k e H; simpl in H.
  - exists x; split; [constructor | exact H].
  - destruct (advance x) as [[c x']|] eqn:E; [|discriminate].
    destruct (atom_matches ic a c) eqn:Ea; [|discriminate].
    exists x'; split; [econstructor; eauto | exact H].
  - destruct x as [p pv input]. simpl in H. apply repeat_greedy_sound in H. exact H.
  - apply IHr1 in H. destruct H as (y & Hd1 & H). apply IHr2 in H.
    destruct H as (z & Hd2 & H). exists z; split; [econstructor; eauto | exact H].
  - apply orelse_some in H. destruct H as [H | [_ H]].
    + apply IHr1 in H. destruct H as (y & Hd & H). exists y; split; [apply D_AltL; auto | auto].
    + apply IHr2 in H. destruct H as (y & Hd & H). exists y; split; [apply D_AltR; auto | auto].
  - apply IHr in H. destruct H as (y & Hd & H). exists y; split; [constructor; auto | auto].
  - destruct (at_word_boundary x) eqn:E; [|discriminate].
    exists x; split; [constructor; auto | auto].
Qed.

(** Completeness: a derivation the continuation accepts makes the matcher succeed. *)
Lemma orelse_not_none {A} (a b : option A) :
  a <> None \/ b <> None -> orelse a b <> None.
Proof. destruct a; simpl; intros [H | H]; congruence. Qed.

Lemma run_complete ic : forall r x y,
  Derives ic r x y -> forall k, k y <> None -> run ic r x k <> None.
Proof.
  induction 1 as [x | a x c y Hadv Ha | a max x | a min x
                 | a min max x c x' y Hmax Hadv Ha Hd IH
                 | r1 r2 x y z H1 IH1 H2 IH2 | r1 r2 x y H1 IH1
                 | r1 r2 x y H1 IH1 | r x y H1 IH1 | x Hb]; intros k Hk; simpl.
  - exact Hk.
  - rewrite Hadv, Ha. exact Hk.
  - destruct x as [p pv input]. simpl. rewrite repeat_greedy_unfold. cbv zeta.
    destruct max as [[|m]|]; auto; apply orelse_not_none; right; exact Hk.
  - destruct x as [p pv input]. simpl. rewrite repeat_greedy_unfold. exact Hk.
  - destruct x as [p pv input]. unfold advance in Hadv. simpl in Hadv.
    destruct input as [|c0 tl]; [discriminate|]. inversion Hadv; subst. clear Hadv.
    simpl run in IH. specialize (IH k Hk).
    cbn [rest pos prev]. rewrite repeat_greedy_unfold. cbv zeta. rewrite Ha.
    destruct max as [[|m]|]; [congruence | | ];
      (destruct min; [apply orelse_not_none; left; exact IH | exact IH]).
  - apply IH1. apply IH2. exact Hk.
  - apply orelse_not_none. left. apply IH1. exact Hk.
  - apply orelse_not_none. right. apply IH1. exact Hk.
  - apply IH1. exact Hk.
  - rewrite Hb. exact Hk.
Qed.


Lemma after_app x u v : after x (u ++ v) = after (after x u) v.
Proof. revert x; induction u; intros; simpl; auto. Qed.

Lemma after_rest : forall w x t, rest x = w ++ t -> rest (after x w) = t.
Proof.
  induction w as [|c w IH]; intros x t H; simpl in *; auto.
  apply IH. simpl. rewrite H. reflexivity.
Qed.

Lemma after_pos : forall w x, pos (after x w) = pos x + length w.
Proof. induction w; intros; simpl; [lia | rewrite IHw; simpl; lia]. Qed.

Lemma advance_after x c y :
  advance x = Some (c, y) -> rest x = c :: rest y /\ y = after x [c].
Proof.
  unfold advance. destruct x as [p pv [|d t]]; simpl; [discriminate|].
  intros H; inversion H; subst; auto.
Qed.

(** A derivation reads a word [w] in front of the input: the end cursor is
    the start cursor after [w], and [w] is at least [min_len r] long. *)
Lemma Derives_word ic r x y :
  Derives ic r x y ->
  exists w, rest x = w ++ rest y /\ y = after x w /\ min_len r <= length w.
Proof.
  induction 1 as [x | a x c y Hadv Ha | a max x | a min x
                 | a min max x c x' y Hmax Hadv Ha Hd IH
                 | r1 r2 x y z H1 IH1 H2 IH2 | r1 r2 x y H1 IH1
                 | r1 r2 x y H1 IH1 | r x y H1 IH1 | x Hb].
  - exists []; simpl; auto.
  - apply advance_after in Hadv. destruct Hadv as [Hr Hy].
    exists [c]; simpl; auto.
  - exists []; simpl; split; [auto | split; [auto | destruct max; lia]].
  - exists []; simpl; split; [auto | split; [auto | lia]].
  - apply advance_after in Hadv. destruct Hadv as [Hr Hy].
    destruct IH as (w & Hw & Hy' & Hl).
    exists (c :: w). split; [simpl; rewrite Hr, Hw; reflexivity|].
    split; [rewrite Hy', Hy; reflexivity|].
    simpl in *. destruct max as [m|]; simpl in Hl; lia.
  - destruct IH1 as (u & Hu & Hy & Hlu). destruct IH2 as (v & Hv & Hz & Hlv).
    exists (u ++ v). rewrite <- app_assoc, <- Hv, <- Hu, after_app, <- Hy, <- Hz.
    rewrite length_app. simpl. repeat split; auto; lia.
  - destruct IH1 as (u & Hu & Hy & Hlu). exists u; simpl; repeat split; auto; lia.
  - destruct IH1 as (u & Hu & Hy & Hlu). exists u; simpl; repeat split; auto; lia.
  - exact IH1.
  - exists []; simpl; auto.
Qed.

Lemma match_at_bounds ic r x e :
  match_at ic r x = Some e ->
  pos x + min_len r <= e /\ e <= pos x + length (rest x).
Proof.
  unfold match_at. intros H. apply run_sound in H.
  destruct H as (y & Hd & Hy). inversion Hy; subst.
  apply Derives_word in Hd. destruct Hd as (w & Hw & Hy' & Hl).
  rewrite Hy', after_pos. rewrite Hw, length_app. lia.
Qed.

Lemma search_bounds ic r : forall input p pv i e,
  search ic r input p pv = Some (i, e) ->
  p <= i /\ i + min_len r <= e /\ e <= p + length input.
Proof.
  induction input as [|c tl IH]; intros p pv i e H; simpl in H.
  - destruct (match_at ic r (Cursor p pv [])) eqn:E; [|discriminate].
    inversion H; subst. apply match_at_bounds in E. simpl in E. lia.
  - destruct (match_at ic r (Cursor p pv (c :: tl))) eqn:E.
    + inversion H; subst. apply match_at_bounds in E. simpl in *. lia.
    + apply IH in H. simpl. lia.
Qed.

Lemma cursor_at_rest s i : rest (cursor_at s i) = skipn i s.
Proof. reflexivity. Qed.

Lemma cursor_at_pos s i : pos (cursor_at s i) = i.
Proof. reflexivity. Qed.

(** A successful [exec] of a global regular expression: the match starts at
    or after [lastIndex], is at least [min_len] long, ends in the string, and
    [lastIndex] becomes its end. *)
Lemma exec_global_some re s lastIndex m li :
  global re = true ->
  exec re s lastIndex = (Some m, li) ->
  li = endIndex m /\ lastIndex <= index m /\
  index m + min_len (source re) <= endIndex m /\ endIndex m <= length s.
Proof.
  intros Hg. unfold exec. rewrite Hg.
  destruct (Nat.ltb (length s) lastIndex) eqn:El; [discriminate|].
  apply Nat.ltb_ge in El. cbv zeta. unfold cursor_at. cbn [rest pos prev].
  destruct (search _ _ _ _ _) as [[i e]|] eqn:Es; [|discriminate].
  intros H; inversion H; subst; simpl.
  apply search_bounds in Es. rewrite length_skipn in Es. lia.
Qed.

Lemma exec_global_none re s lastIndex li :
  global re = true -> exec re s lastIndex = (None, li) -> li = 0.
Proof.
  intros Hg. unfold exec. rewrite Hg.
  destruct (Nat.ltb (length s) lastIndex); [intros H; inversion H; auto|].
  destruct (search _ _ _ _ _) as [[i e]|]; intros H; inversion H; auto.
Qed.

(** The loop over the matches of a global regular expression whose matches
    are never empty comes to an end, after at most as many matches as there
    are code units left. *)
Lemma Enumerates_total re s :
  global re = true -> 1 <= min_len (source re) ->
  forall lastIndex, exists ms,
    Enumerates re s lastIndex ms /\ length ms <= length s - lastIndex.
Proof.
  intros Hg Hmin.
  assert (H : forall n lastIndex, length s - lastIndex < n ->
            exists ms, Enumerates re s lastIndex ms
                       /\ length ms <= length s - lastIndex).
  { induction n as [|n IH]; intros lastIndex Hn; [lia|].
    destruct (exec re s lastIndex) as [[m|] li] eqn:E.
    - destruct (exec_global_some re s lastIndex m li Hg E) as (Hli & H1 & H2 & H3).
      destruct (IH li) as (ms & Hms & Hlen); [lia|].
      exists (m :: ms). split; [eapply E_next; eauto | simpl; lia].
    - exists []. split; [eapply E_done; eauto | simpl; lia]. }
  intros lastIndex. apply (H (S (length s - lastIndex))). lia.
Qed.

Lemma Enumerates_functional re s : forall lastIndex ms ms',
  Enumerates re s lastIndex ms -> Enumerates re s lastIndex ms' -> ms = ms'.
Proof.
  intros lastIndex ms ms' H. revert ms'.
  induction H as [li li' E | li m li' ms E H IH]; intros ms' H';
    inversion H'; subst; try congruence.
  assert (m0 = m /\ li0 = li') as [-> ->] by (split; congruence).
  f_equal. apply IH. assumption.
Qed.


(** *** Derivations of the shapes the catalogue is built from *)

Lemma Derives_Eps_iff ic x y : Derives ic Eps x y <-> y = x.
Proof. split; [inversion 1; auto | intros ->; constructor]. Qed.

Lemma Derives_seq_cons ic r rs x z :
  Derives ic (seq (r :: rs)) x z <->
  exists y, Derives ic r x y /\ Derives ic (seq rs) y z.
Proof.
  destruct rs as [|r' rs].
  - simpl. split.
    + intros H; exists z; split; [exact H | constructor].
    + intros (y & H1 & H2). inversion H2; subst; exact H1.
  - change (seq (r :: r' :: rs)) with (Seq r (seq (r' :: rs))). split.
    + inversion 1; subst; eauto.
    + intros (y & H1 & H2); econstructor; eauto.
Qed.

Lemma Derives_One_elim ic a x y :
  Derives ic (One a) x y ->
  exists c, rest x = c :: rest y /\ y = after x [c]
            /\ atom_matches ic a c = true.
Proof.
  inversion 1; subst. exists c.
  destruct (advance_after x c y) as [Hr Hy]; auto.
Qed.

Lemma Derives_One_intro ic a x c t :
  rest x = c :: t -> atom_matches ic a c = true ->
  Derives ic (One a) x (after x [c]).
Proof.
  intros Hr Ha. apply D_One with (c := c); [|exact Ha].
  unfold advance. rewrite Hr. simpl. rewrite Hr. reflexivity.
Qed.

Lemma Derives_lits_elim ic : forall cs x y,
  Derives ic (lits cs) x y ->
  exists u, rest x = u ++ rest y /\ y = after x u /\ agree ic u cs.
Proof.
  induction cs as [|d cs IH]; intros x y.
  - unfold lits; simpl. rewrite Derives_Eps_iff.
    intros ->. exists []; simpl; repeat split; constructor.
  - unfold lits. simpl map. rewrite Derives_seq_cons.
    intros (m & H1 & H2). apply Derives_One_elim in H1.
    destruct H1 as (c & Hr & Hm & Ha). apply IH in H2.
    destruct H2 as (u & Hr' & Hy & Hf). exists (c :: u).
    split; [simpl; rewrite Hr, Hr'; reflexivity|].
    split; [rewrite Hy, Hm; reflexivity | constructor; auto].
Qed.

Lemma Derives_lits_intro ic : forall cs u x t,
  rest x = u ++ t -> agree ic u cs -> Derives ic (lits cs) x (after x u).
Proof.
  induction cs as [|d cs IH]; intros u x t Hr Hf.
  - inversion Hf; subst. simpl. constructor.
  - inversion Hf as [|c d' u' cs' Ha Hf']; subst.
    unfold lits. simpl map. apply Derives_seq_cons.
    exists (after x [c]). split.
    + eapply Derives_One_intro; eauto.
    + change (after x (c :: u')) with (after (after x [c]) u').
      apply IH with (t := t); [|exact Hf'].
      simpl. rewrite Hr. reflexivity.
Qed.

Lemma Derives_star_elim ic a x y :
  Derives ic (star a) x y ->
  exists u, rest x = u ++ rest y /\ y = after x u
            /\ Forall (fun c => atom_matches ic a c = true) u.
Proof.
  unfold star. remember (Quant a 0 None) as r eqn:Er. intros H. revert Er.
  induction H as [x | a' x c y Hadv Ha | a' max x | a' min x
               | a' min max x c x' y Hmax Hadv Ha Hd IH
               | r1 r2 x y z H1 IH1 H2 IH2 | r1 r2 x y H1 IH1
               | r1 r2 x y H1 IH1 | r x y H1 IH1 | x Hb];
    intros Er; try discriminate.
  - exists []; simpl; auto.
  - inversion Er; subst. simpl in IH. specialize (IH eq_refl).
    destruct IH as (u & Hr & Hy & Hf).
    apply advance_after in Hadv. destruct Hadv as [Hr' Hx'].
    exists (c :: u). split; [simpl; rewrite Hr', Hr; reflexivity|].
    split; [rewrite Hy, Hx'; reflexivity | constructor; auto].
Qed.

Lemma Derives_star_intro ic a : forall u x t,
  rest x = u ++ t -> Forall (fun c => atom_matches ic a c = true) u ->
  Derives ic (star a) x (after x u).
Proof.
  unfold star. induction u as [|c u IH]; intros x t Hr Hf.
  - simpl. constructor.
  - inversion Hf as [|c' u' Ha Hf']; subst.
    eapply D_QuantStep with (c := c) (x' := after x [c]);
      [discriminate | | exact Ha |].
    + unfold advance. rewrite Hr. simpl. rewrite Hr. reflexivity.
    + simpl. apply IH with (t := t); [|exact Hf'].
      simpl. rewrite Hr. reflexivity.
Qed.

(** *** [search] and [test] *)

Lemma match_at_iff ic r x :
  match_at ic r x <> None <-> exists y, Derives ic r x y.
Proof.
  unfold match_at. split.
  - destruct (run ic r x (fun y => Some (pos y))) as [e|] eqn:E; [|congruence].
    intros _. apply run_sound in E. destruct E as (y & Hd & _). eauto.
  - intros (y & Hd). eapply run_complete; eauto. discriminate.
Qed.

Lemma search_iff ic r : forall input p pv,
  search ic r input p pv <> None <->
  exists a b, input = a ++ b
              /\ match_at ic r (after (Cursor p pv input) a) <> None.
Proof.
  induction input as [|c tl IH]; intros p pv; simpl.
  - destruct (match_at ic r (Cursor p pv [])) eqn:E.
    + split; [|discriminate]. intros _. exists [], []. simpl. rewrite E.
      split; [reflexivity | discriminate].
    + split; [congruence|]. intros (a & b & Hab & H).
      destruct a; [|discriminate]. simpl in H. congruence.
  - destruct (match_at ic r (Cursor p pv (c :: tl))) eqn:E.
    + split; [|discriminate]. intros _. exists [], (c :: tl). simpl. rewrite E.
      split; [reflexivity | discriminate].
    + rewrite IH. split.
      * intros (a & b & Hab & H). exists (c :: a), b. simpl. subst tl. auto.
      * intros (a & b & Hab & H). destruct a as [|c' a]; simpl in *.
        -- congruence.
        -- inversion Hab; subst. exists a, b. auto.
Qed.

(** [re.test(w)] for a regular expression without [g]: some suffix of [w]
    starts with a word the pattern derives. *)
Lemma test_iff re w :
  global re = false ->
  (test re w = true <->
   exists a b y, w = a ++ b
     /\ Derives (ignoreCase re) (source re) (after (Cursor 0 None w) a) y).
Proof.
  intros Hg. unfold test, exec. rewrite Hg. simpl.
  assert (Hs : search (ignoreCase re) (source re) w 0 None <> None <->
          exists a b y, w = a ++ b
            /\ Derives (ignoreCase re) (source re) (after (Cursor 0 None w) a) y).
  { rewrite search_iff. split.
    - intros (a & b & Hab & H). apply match_at_iff in H. destruct H as [y H].
      exists a, b, y. auto.
    - intros (a & b & y & Hab & H). exists a, b. split; [auto|].
      apply match_at_iff. eauto. }
  rewrite <- Hs.
  destruct (search (ignoreCase re) (source re) w 0 None) as [[i e]|]; simpl;
    split; congruence.
Qed.

End RegexFacts.

(** ** The matching loops of [scanFile] *)

Section Loops.

Variables (filePath content : jsstring) (lines : list jsstring).

(** The loop of one pattern pushes what its matches contribute, in order. *)
Lemma execLoop_spec (p : FlakyPattern) :
  forall lastIndex ms, Regex.Enumerates (regex p) content lastIndex ms ->
  forall fuel acc, length ms < fuel ->
  exists li,
    execLoop fuel filePath content lines p lastIndex acc
    = Some (acc ++ flat_map (emit filePath content lines p) ms, li).
Proof.
  induction 1 as [lastIndex li E | lastIndex m li ms E H IH];
    intros fuel acc Hf; (destruct fuel as [|fuel]; [simpl in Hf; lia|]);
    simpl; rewrite E.
  - exists li. rewrite app_nil_r. reflexivity.
  - simpl in Hf.
    assert (Hem : emit filePath content lines p m
                  = if skipped p content m then []
                    else [mkDetection filePath content lines p m])
      by reflexivity.
    rewrite Hem. destruct (skipped p content m).
    + destruct (IH fuel acc) as [li' Hli]; [lia|]. exists li'. exact Hli.
    + destruct (IH fuel (acc ++ [mkDetection filePath content lines p m]))
        as [li' Hli]; [lia|].
      exists li'. rewrite Hli. rewrite <- app_assoc. reflexivity.
Qed.

Lemma setLastIndex_same st i v : setLastIndex st i v i = v.
Proof. unfold setLastIndex. rewrite Nat.eqb_refl. reflexivity. Qed.

(** The loop over the patterns: every regular expression is rewound before
    its loop, so the matches are those from index 0 whatever the state. *)
Lemma scanPatterns_spec (fuel : nat) :
  forall ps mss,
  Forall2 (fun p ms => Regex.Enumerates (regex p) content 0 ms
                       /\ length ms < fuel) ps mss ->
  forall i st acc, exists st',
    scanPatterns fuel filePath content lines ps i st acc
    = Some (acc ++ flat_map
                     (fun pm => flat_map (emit filePath content lines (fst pm))
                                  (snd pm))
                     (combine ps mss), st').
Proof.
  induction 1 as [|p ms ps mss [He Hl] _ IH]; intros i st acc; simpl.
  - exists st. rewrite app_nil_r. reflexivity.
  - rewrite setLastIndex_same.
    destruct (execLoop_spec p 0 ms He fuel acc Hl) as [li ->].
    destruct (IH (S i) (setLastIndex (setLastIndex st i 0) i li)
                (acc ++ flat_map (emit filePath content lines p) ms))
      as [st' ->].
    exists st'. rewrite <- app_assoc. reflexivity.
Qed.

End Loops.

(** Every pattern of the catalogue is global and takes at least one code
    unit. *)
Lemma catalogue_patterns :
  Forall (fun p => Regex.global (regex p) = true
                   /\ 1 <= Regex.min_len (Regex.source (regex p)))
    FLAKY_PATTERNS.
Proof.
  unfold FLAKY_PATTERNS, Catalogue.FLAKY_PATTERNS.
  repeat (constructor; [split; [reflexivity | vm_compute; lia]|]).
  constructor.
Qed.

Lemma Forall_Forall2_exists {A B : Type} (P : A -> Prop) (Q : A -> B -> Prop)
  (l : list A) :
  (forall x, P x -> exists y, Q x y) -> Forall P l ->
  exists l', Forall2 Q l l'.
Proof.
  intros HPQ. induction 1 as [|x l Hx _ [l' IH]].
  - exists []. constructor.
  - destruct (HPQ x Hx) as [y Hy]. exists (y :: l'). constructor; auto.
Qed.

(** The matches each pattern's loop goes through on a text. *)
Lemma catalogue_matches (content : jsstring) :
  exists mss,
    Forall2 (fun p ms => Regex.Enumerates (regex p) content 0 ms
                         /\ length ms < S (length content))
      FLAKY_PATTERNS mss.
Proof.
  apply Forall_Forall2_exists with (2 := catalogue_patterns).
  intros p [Hg Hm].
  destruct (RegexFacts.Enumerates_total (regex p) content Hg Hm 0)
    as (ms & He & Hl).
  exists ms. split; [exact He | lia].
Qed.

Lemma Forall2_weaken {A B : Type} (P Q : A -> B -> Prop) l l' :
  (forall x y, P x y -> Q x y) -> Forall2 P l l' -> Forall2 Q l l'.
Proof. intros H; induction 1; constructor; auto. Qed.

(** [scanFile] on a readable file: the detections are those of the matches
    of the catalogue, whatever the state of the regular expressions. *)
Lemma scanFileWithin_spec env st filePath content fuel :
  readFileSync env filePath = Some content ->
  length content < fuel ->
  exists mss st',
    Forall2 (fun p ms => Regex.Enumerates (regex p) content 0 ms)
      FLAKY_PATTERNS mss
    /\ scanFileWithin fuel env st filePath
       = Some (detectionsOf filePath content (combine FLAKY_PATTERNS mss), st').
Proof.
  intros Hr Hf. destruct (catalogue_matches content) as [mss Hm].
  assert (Hm' : Forall2 (fun p ms => Regex.Enumerates (regex p) content 0 ms
                                     /\ length ms < fuel) FLAKY_PATTERNS mss).
  { eapply Forall2_weaken; [|exact Hm]. intros p ms [H1 H2]. split; [auto|lia]. }
  destruct (scanPatterns_spec filePath content (split_nl content) fuel
              FLAKY_PATTERNS mss Hm' 0 st []) as [st' Hs].
  exists mss, st'. split.
  - eapply Forall2_weaken; [|exact Hm]. intros p ms [H1 _]; exact H1.
  - unfold scanFileWithin. rewrite Hr. exact Hs.
Qed.

Lemma scanFile_spec env st filePath content :
  readFileSync env filePath = Some content ->
  exists mss st',
    Forall2 (fun p ms => Regex.Enumerates (regex p) content 0 ms)
      FLAKY_PATTERNS mss
    /\ scanFile env st filePath
       = (detectionsOf filePath content (combine FLAKY_PATTERNS mss), st').
Proof.
  intros Hr.
  destruct (scanFileWithin_spec env st filePath content (turns env filePath) Hr)
    as (mss & st' & Hm & Hs).
  { unfold turns. rewrite Hr. lia. }
  exists mss, st'. split; [exact Hm|]. unfold scanFile. rewrite Hs. reflexivity.
Qed.

Lemma scanFile_unreadable env st filePath :
  readFileSync env filePath = None -> scanFile env st filePath = ([], st).
Proof.
  intros Hr. unfold scanFile, scanFileWithin, turns. rewrite Hr. reflexivity.
Qed.

(** ** The mitigation heuristic *)

Module Mitigation.
Import Regex RegexFacts.

Lemma agree_exact u cs : agree false u cs <-> u = cs.
Proof.
  unfold agree. split.
  - induction 1 as [|c d u cs H _ IH]; [reflexivity|].
    simpl in H. apply N.eqb_eq in H. subst. reflexivity.
  - intros ->. induction cs; constructor; auto. simpl. apply N.eqb_refl.
Qed.

Lemma agree_any_case u cs :
  agree true u cs <-> map to_upper u = map to_upper cs.
Proof.
  unfold agree. split.
  - induction 1 as [|c d u cs H _ IH]; [reflexivity|].
    simpl in H. apply N.eqb_eq in H. simpl. rewrite H, IH. reflexivity.
  - revert cs. induction u as [|c u IH]; intros [|d cs] H; simpl in H;
      try discriminate; constructor.
    + simpl. apply N.eqb_eq. congruence.
    + apply IH. congruence.
Qed.

Lemma ws_matches c : atom_matches false ws c = is_space c.
Proof.
  unfold ws, atom_matches, in_class. simpl.
  rewrite !orb_false_r. reflexivity.
Qed.

Lemma blank_iff u :
  Forall (fun c => atom_matches false ws c = true) u <-> blank u.
Proof.
  unfold blank. split; intros H; (eapply Forall_impl; [|exact H]);
    intros c Hc; cbv beta in *;
    [rewrite <- ws_matches | rewrite ws_matches]; exact Hc.
Qed.

(** A literal pattern tests true exactly on the texts it occurs in. *)
Lemma test_literal ic sig w :
  test {| source := lits sig; ignoreCase := ic; global := false |} w = true
  <-> exists a u b, w = a ++ u ++ b /\ agree ic u sig.
Proof.
  rewrite test_iff by reflexivity. simpl. split.
  - intros (a & b & y & Hw & Hd). apply Derives_lits_elim in Hd.
    destruct Hd as (u & Hr & _ & Ha).
    rewrite (after_rest a (Cursor 0 None w) b Hw) in Hr.
    exists a, u, (rest y). subst b. auto.
  - intros (a & u & b & Hw & Ha).
    exists a, (u ++ b), (after (after (Cursor 0 None w) a) u).
    split; [exact Hw|].
    apply Derives_lits_intro with (t := b); [|exact Ha].
    apply after_rest. exact Hw.
Qed.

Lemma test_plain_literal sig w :
  test (Catalogue.plain (lits sig)) w = true <-> occurs sig w.
Proof.
  unfold Catalogue.plain. rewrite (test_literal false). unfold occurs. split.
  - intros (a & u & b & Hw & Ha). apply agree_exact in Ha. subst u. eauto.
  - intros (a & b & Hw). exists a, sig, b. split; [auto | apply agree_exact; auto].
Qed.

Lemma test_any_case sig w :
  test {| source := lits sig; ignoreCase := true; global := false |} w = true
  <-> occursAnyCase sig w.
Proof.
  rewrite (test_literal true). unfold occursAnyCase. split.
  - intros (a & u & b & Hw & Ha). apply agree_any_case in Ha. eauto.
  - intros (a & u & b & Hw & Ha). apply agree_any_case in Ha. eauto.
Qed.

(** The two patterns with white space in them. *)
Lemma test_spyOn pre w :
  test (Catalogue.plain
          (seq [lits pre; star ws; lits (js "("); star ws; lits (js "Date")]))
       w = true
  <-> exists a s1 s2 b,
        blank s1 /\ blank s2
        /\ w = a ++ pre ++ s1 ++ js "(" ++ s2 ++ js "Date" ++ b.
Proof.
  rewrite test_iff by reflexivity. cbn [Catalogue.plain source ignoreCase].
  split.
  - intros (a & b & y & Hw & Hd).
    apply Derives_seq_cons in Hd. destruct Hd as (y1 & H1 & Hd).
    apply Derives_seq_cons in Hd. destruct Hd as (y2 & H2 & Hd).
    apply Derives_seq_cons in Hd. destruct Hd as (y3 & H3 & Hd).
    apply Derives_seq_cons in Hd. destruct Hd as (y4 & H4 & Hd).
    apply Derives_seq_cons in Hd. destruct Hd as (y5 & H5 & Hd).
    apply Derives_Eps_iff in Hd. subst y5.
    apply Derives_lits_elim in H1. destruct H1 as (u1 & R1 & _ & A1).
    apply Derives_star_elim in H2. destruct H2 as (u2 & R2 & _ & A2).
    apply Derives_lits_elim in H3. destruct H3 as (u3 & R3 & _ & A3).
    apply Derives_star_elim in H4. destruct H4 as (u4 & R4 & _ & A4).
    apply Derives_lits_elim in H5. destruct H5 as (u5 & R5 & _ & A5).
    apply agree_exact in A1, A3, A5. subst u1 u3 u5.
    apply blank_iff in A2, A4.
    rewrite (after_rest a (Cursor 0 None w) b Hw) in R1.
    exists a, u2, u4, (rest y). split; [auto|]. split; [auto|].
    rewrite Hw, R1, R2, R3, R4, R5. reflexivity.
  - intros (a & s1 & s2 & b & B1 & B2 & Hw).
    apply blank_iff in B1, B2.
    set (x0 := after (Cursor 0 None w) a).
    set (x1 := after x0 pre).
    set (x2 := after x1 s1).
    set (x3 := after x2 (js "(")).
    set (x4 := after x3 s2).
    set (x5 := after x4 (js "Date")).
    assert (R0 : rest x0 = pre ++ s1 ++ js "(" ++ s2 ++ js "Date" ++ b)
      by (apply after_rest; exact Hw).
    assert (R1 : rest x1 = s1 ++ js "(" ++ s2 ++ js "Date" ++ b)
      by (apply after_rest; exact R0).
    assert (R2 : rest x2 = js "(" ++ s2 ++ js "Date" ++ b)
      by (apply after_rest; exact R1).
    assert (R3 : rest x3 = s2 ++ js "Date" ++ b)
      by (apply after_rest with (w := js "("); exact R2).
    assert (R4 : rest x4 = js "Date" ++ b)
      by (apply after_rest; exact R3).
    exists a, (pre ++ s1 ++ js "(" ++ s2 ++ js "Date" ++ b), x5.
    split; [exact Hw|].
    apply Derives_seq_cons. exists x1. split.
    { eapply Derives_lits_intro; [exact R0 | apply agree_exact; auto]. }
    apply Derives_seq_cons. exists x2. split.
    { eapply Derives_star_intro; [exact R1 | exact B1]. }
    apply Derives_seq_cons. exists x3. split.
    { eapply Derives_lits_intro; [exact R2 | apply agree_exact; auto]. }
    apply Derives_seq_cons. exists x4. split.
    { eapply Derives_star_intro; [exact R3 | exact B2]. }
    apply Derives_seq_cons. exists x5. split.
    { eapply Derives_lits_intro; [exact R4 | apply agree_exact; auto]. }
    apply Derives_Eps_iff. reflexivity.
Qed.

Lemma spiesOnDate_iff obj w :
  spiesOnDate obj w <->
  exists a s1 s2 b,
    blank s1 /\ blank s2
    /\ w = a ++ (obj ++ js ".spyOn") ++ s1 ++ js "(" ++ s2 ++ js "Date" ++ b.
Proof. reflexivity. Qed.

Lemma beforeContent_window content i :
  beforeContent content i = lookbackWindow content i.
Proof.
  unfold beforeContent, lookbackWindow, substring, lookback.
  replace (Z.to_nat (Z.max 0 (Z.of_nat i - 2000))) with (i - 2000) by lia.
  rewrite Nat.min_l, Nat.max_r by lia.
  symmetry. apply skipn_firstn_comm.
Qed.

(** [isLikelyMocked] is true exactly when the window before the match holds
    one of the signatures. *)
Lemma isLikelyMocked_spec content i :
  isLikelyMocked content i = true
  <-> hasMitigationSignature (lookbackWindow content i).
Proof.
  unfold isLikelyMocked. rewrite beforeContent_window.
  set (w := lookbackWindow content i).
  unfold Catalogue.mockPatterns, hasMitigationSignature.
  cbn [existsb]. rewrite !orb_true_iff.
  unfold str.
  rewrite !test_plain_literal, test_any_case, !test_spyOn, !spiesOnDate_iff.
  change (js "vi" ++ js ".spyOn") with (js "vi.spyOn").
  change (js "jest" ++ js ".spyOn") with (js "jest.spyOn").
  intuition discriminate.
Qed.

End Mitigation.

(** ** Termination and independence of [scanFile] *)

Lemma Forall2_Enumerates_functional content ps : forall mss mss',
  Forall2 (fun p ms => Regex.Enumerates (regex p) content 0 ms) ps mss ->
  Forall2 (fun p ms => Regex.Enumerates (regex p) content 0 ms) ps mss' ->
  mss = mss'.
Proof.
  intros mss mss' H. revert mss'.
  induction H as [|p ms ps mss Hp _ IH]; intros mss' H'; inversion H'; subst.
  - reflexivity.
  - f_equal; [eapply RegexFacts.Enumerates_functional; eauto | auto].
Qed.

(** More fuel does not change a result. *)
Lemma execLoop_more filePath content lines p :
  forall fuel lastIndex acc r,
    execLoop fuel filePath content lines p lastIndex acc = Some r ->
    forall extra,
      execLoop (fuel + extra) filePath content lines p lastIndex acc = Some r.
Proof.
  induction fuel as [|fuel IH]; intros lastIndex acc r H extra; simpl in *;
    [discriminate|].
  destruct (Regex.exec (regex p) content lastIndex) as [[m|] li]; [|exact H].
  destruct (skipped p content m); apply IH; exact H.
Qed.

Lemma scanPatterns_more filePath content lines fuel extra :
  forall ps i st acc r,
    scanPatterns fuel filePath content lines ps i st acc = Some r ->
    scanPatterns (fuel + extra) filePath content lines ps i st acc = Some r.
Proof.
  induction ps as [|p ps IH]; intros i st acc r H; simpl in *; [exact H|].
  destruct (execLoop fuel filePath content lines p (setLastIndex st i 0 i) acc)
    as [[acc' li]|] eqn:E; [|discriminate].
  rewrite (execLoop_more _ _ _ _ _ _ _ _ E extra). apply IH. exact H.
Qed.

(** C10: [scanFile] terminates on every text. A match of one of the 13
    patterns of the catalogue is never empty, so [lastIndex] grows at every
    match and stays within the text; the loop of each pattern goes through at most as many
    matches as the text has code units; and with [turns] units of fuel or
    more the bounded scan returns, with the result of [scanFile]. *)
Theorem scanFile_terminates :
  forall env st filePath,
    length FLAKY_PATTERNS = 13
    /\ (forall p content lastIndex m li,
       In p FLAKY_PATTERNS ->
       Regex.exec (regex p) content lastIndex = (Some m, li) ->
       Regex.index m < Regex.endIndex m
       /\ lastIndex < li /\ li <= length content)
    /\ (forall p content,
          In p FLAKY_PATTERNS ->
          exists ms, Regex.Enumerates (regex p) content 0 ms
                     /\ length ms <= length content)
    /\ (forall extra,
          scanFileWithin (turns env filePath + extra) env st filePath
          = Some (scanFile env st filePath)).
Proof.
  intros env st filePath. split; [reflexivity|]. split; [|split].
  - intros p content lastIndex m li Hin E.
    pose proof catalogue_patterns as Hc. rewrite Forall_forall in Hc.
    destruct (Hc p Hin) as [Hg Hm].
    destruct (RegexFacts.exec_global_some (regex p) content lastIndex m li Hg E)
      as (-> & H1 & H2 & H3).
    lia.
  - intros p content Hin.
    pose proof catalogue_patterns as Hc. rewrite Forall_forall in Hc.
    destruct (Hc p Hin) as [Hg Hm].
    destruct (RegexFacts.Enumerates_total (regex p) content Hg Hm 0)
      as (ms & He & Hl).
    exists ms. split; [exact He | lia].
  - intros extra. destruct (readFileSync env filePath) as [content|] eqn:Hr.
    + destruct (scanFileWithin_spec env st filePath content
                  (turns env filePath) Hr) as (mss & st1 & Hm & Hs).
      { unfold turns. rewrite Hr. lia. }
      unfold scanFile. rewrite Hs.
      unfold scanFileWithin in *. rewrite Hr in *.
      apply scanPatterns_more. exact Hs.
    + unfold scanFile, scanFileWithin, turns. rewrite Hr. reflexivity.
Qed.

Lemma detectionsOf_withFile f1 f2 content found :
  map (withFile f2) (detectionsOf f1 content found)
  = detectionsOf f2 content found.
Proof.
  unfold detectionsOf. induction found as [|[p ms] found IH]; simpl; [reflexivity|].
  rewrite map_app, IH. f_equal. clear IH.
  induction ms as [|m ms IHm]; simpl; [reflexivity|].
  rewrite map_app, IHm. f_equal. unfold emit.
  destruct (skipped p content m); reflexivity.
Qed.

Lemma scanFile_same_text env1 env2 st1 st2 f1 f2 :
  readFileSync env1 f1 = readFileSync env2 f2 ->
  map (withFile f2) (fst (scanFile env1 st1 f1))
  = fst (scanFile env2 st2 f2)
  /\ (f1 = f2 ->
      fst (scanFile env1 st1 f1) = fst (scanFile env2 st2 f2)).
Proof.
  intros Heq.
  assert (H : map (withFile f2) (fst (scanFile env1 st1 f1))
              = fst (scanFile env2 st2 f2)
              /\ map (withFile f1) (fst (scanFile env1 st1 f1))
                 = fst (scanFile env1 st1 f1)).
  { destruct (readFileSync env1 f1) as [content|] eqn:Hr.
    - symmetry in Heq.
      destruct (scanFile_spec env1 st1 f1 content Hr)
        as (mss1 & st1' & Hm1 & ->).
      destruct (scanFile_spec env2 st2 f2 content Heq)
        as (mss2 & st2' & Hm2 & ->).
      simpl. rewrite !detectionsOf_withFile.
      rewrite (Forall2_Enumerates_functional content FLAKY_PATTERNS
                 mss1 mss2 Hm1 Hm2).
      split; reflexivity.
    - symmetry in Heq.
      rewrite (scanFile_unreadable env1 st1 f1 Hr),
              (scanFile_unreadable env2 st2 f2 Heq).
      split; reflexivity. }
  destruct H as [H1 H2]. split; [exact H1|].
  intros <-. rewrite <- H1. symmetry. exact H2.
Qed.

(** C9: the detections of [scanFile] depend on the text of the file only
    (and on its path, which they carry in their [file] field): whatever
    [lastIndex] earlier scans left in the shared regular expressions -
    every pattern is rewound to index 0 before its loop - and whatever else
    the file system holds, the same text gives the same list; at the same
    path the two lists are identical. *)
Theorem scanFile_depends_on_content_only :
  forall env1 env2 st1 st2 f1 f2,
    readFileSync env1 f1 = readFileSync env2 f2 ->
    map (withFile f2) (fst (scanFile env1 st1 f1))
    = fst (scanFile env2 st2 f2)
    /\ (f1 = f2 ->
        fst (scanFile env1 st1 f1) = fst (scanFile env2 st2 f2)).
Proof. intros. apply scanFile_same_text. assumption. Qed.

(** ** What [scanFile] reports *)

Lemma Severity_eqb_eq a b : Severity_eqb a b = true <-> a = b.
Proof. destruct a, b; simpl; split; congruence. Qed.

Lemma skipped_iff p content m :
  skipped p content m = true
  <-> severity p <> High
      /\ hasMitigationSignature (lookbackWindow content (Regex.index m)).
Proof.
  unfold skipped. rewrite andb_true_iff, negb_true_iff.
  rewrite Mitigation.isLikelyMocked_spec.
  split; intros [H1 H2]; split; auto.
  - intros E. apply Severity_eqb_eq in E. congruence.
  - destruct (Severity_eqb (severity p) High) eqn:E; [|reflexivity].
    apply Severity_eqb_eq in E. contradiction.
Qed.

Lemma emit_cases filePath content lines p m :
  (emit filePath content lines p m
   = [mkDetection filePath content lines p m]
   <-> severity p = High
       \/ ~ hasMitigationSignature (lookbackWindow content (Regex.index m)))
  /\ (emit filePath content lines p m = []
      <-> severity p <> High
          /\ hasMitigationSignature (lookbackWindow content (Regex.index m))).
Proof.
  unfold emit. pose proof (skipped_iff p content m) as Hs.
  destruct (skipped p content m).
  - destruct Hs as [Hs _]. destruct (Hs eq_refl) as [H1 H2]. split; split.
    + discriminate.
    + intros [H | H]; contradiction.
    + auto.
    + reflexivity.
  - destruct Hs as [_ Hs]. split; split.
    + intros _. destruct (severity p) eqn:E; auto; right; intros H;
        assert (false = true) by (apply Hs; split; [congruence | exact H]);
        discriminate.
    + reflexivity.
    + discriminate.
    + intros H. assert (false = true) by (apply Hs; exact H). discriminate.
Qed.

Lemma map_fst_combine {A B : Type} (Q : A -> B -> Prop) l l' :
  Forall2 Q l l' ->
  map fst (combine l l') = l /\ Forall (fun ab => Q (fst ab) (snd ab)) (combine l l').
Proof.
  induction 1 as [|x y l l' Hxy _ [IH1 IH2]]; simpl; split; auto.
  - rewrite IH1. reflexivity.
Qed.

(** C1: on a readable file the detections of [scanFile] are, pattern by
    pattern in the order of the catalogue and match by match in the order
    the matching loop meets them, what each match contributes: exactly one
    detection when the pattern has severity high or the window of at most
    2000 code units before the start of the match holds no mitigation
    signature, and nothing when the pattern is not of severity high and the
    window holds one. *)
Theorem scanFile_mitigation :
  forall env st filePath content,
    readFileSync env filePath = Some content ->
    exists found : list (FlakyPattern * list Regex.MatchResult),
      map fst found = FLAKY_PATTERNS
      /\ Forall (fun pm => Regex.Enumerates (regex (fst pm)) content 0 (snd pm))
           found
      /\ fst (scanFile env st filePath) = detectionsOf filePath content found
      /\ forall p m,
           (emit filePath content (split_nl content) p m
            = [mkDetection filePath content (split_nl content) p m]
            <-> severity p = High
                \/ ~ hasMitigationSignature
                       (lookbackWindow content (Regex.index m)))
           /\ (emit filePath content (split_nl content) p m = []
               <-> severity p <> High
                   /\ hasMitigationSignature
                        (lookbackWindow content (Regex.index m))).
Proof.
  intros env st filePath content Hr.
  destruct (scanFile_spec env st filePath content Hr) as (mss & st' & Hm & Hs).
  destruct (map_fst_combine _ _ _ Hm) as [H1 H2].
  exists (combine FLAKY_PATTERNS mss). split; [exact H1|]. split; [exact H2|].
  split; [rewrite Hs; reflexivity|].
  intros p m. apply emit_cases.
Qed.

(** ** Line numbers *)

Lemma split_nl_aux_spec : forall s cur,
  split_nl_aux cur s
  = (rev cur ++ hd [] (split_nl s)) :: tl (split_nl s).
Proof.
  unfold split_nl.
  induction s as [|c s IH]; intros cur; simpl.
  - rewrite app_nil_r. reflexivity.
  - destruct (N.eqb c NL).
    + simpl. rewrite app_nil_r. reflexivity.
    + rewrite IH. rewrite (IH [c]). simpl. rewrite <- app_assoc. reflexivity.
Qed.

(** [split] read from the left. *)
Lemma split_nl_nil : split_nl [] = [[]].
Proof. reflexivity. Qed.

Lemma split_nl_newline s : split_nl (NL :: s) = [] :: split_nl s.
Proof. reflexivity. Qed.

Lemma split_nl_other c s :
  c <> NL ->
  split_nl (c :: s) = (c :: hd [] (split_nl s)) :: tl (split_nl s).
Proof.
  intros Hc. unfold split_nl at 1. simpl.
  apply N.eqb_neq in Hc. rewrite Hc. rewrite split_nl_aux_spec. reflexivity.
Qed.

Lemma split_nl_not_nil s : split_nl s <> [].
Proof.
  unfold split_nl. destruct s as [|c s]; simpl; [discriminate|].
  destruct (N.eqb c NL); [discriminate|].
  rewrite split_nl_aux_spec. discriminate.
Qed.

Lemma split_nl_length s : length (split_nl s) = 1 + newlines s.
Proof.
  unfold newlines. induction s as [|c s IH]; [reflexivity|].
  destruct (N.eq_dec c NL) as [->|Hc].
  - rewrite split_nl_newline. simpl length. rewrite IH.
    simpl. destruct (N.eq_dec NL NL); [lia | congruence].
  - rewrite (split_nl_other c s Hc). simpl.
    destruct (N.eq_dec c NL); [congruence|].
    pose proof (split_nl_not_nil s) as Hn.
    destruct (split_nl s) as [|h t]; [congruence|]. simpl in *. lia.
Qed.

Lemma lineNumberAt_newlines content i :
  lineNumberAt content i = 1 + newlines (firstn i content).
Proof.
  unfold lineNumberAt, substring. simpl.
  rewrite Nat.sub_0_r. apply split_nl_length.
Qed.

Lemma lineStart_0 ls : lineStart ls 0 = 0.
Proof. reflexivity. Qed.

Lemma lineStart_S l ls n :
  lineStart (l :: ls) (S n) = S (length l) + lineStart ls n.
Proof. reflexivity. Qed.

(** The offset [i] is on the line that [lineNumberAt] computes. *)
Lemma onLine_lineNumberAt : forall content i,
  i <= length content -> onLine content i (lineNumberAt content i).
Proof.
  unfold onLine, lineNumberAt, substring. simpl.
  intros content i. rewrite Nat.sub_0_r. revert i.
  induction content as [|c s IH]; intros i Hi.
  - simpl in Hi. assert (i = 0) by lia. subst. simpl firstn.
    rewrite split_nl_nil. rewrite lineStart_0. simpl. lia.
  - destruct i as [|i].
    + simpl firstn. rewrite split_nl_nil. cbn [length]. simpl Nat.sub.
      rewrite lineStart_0.
      pose proof (split_nl_not_nil (c :: s)) as Hn.
      destruct (split_nl (c :: s)); [congruence|]. simpl. lia.
    + simpl in Hi. specialize (IH i ltac:(lia)).
      simpl firstn.
      destruct IH as ([H1 H2] & H3 & H4).
      destruct (N.eq_dec c NL) as [->|Hc].
      * rewrite !split_nl_newline. cbn [length].
        remember (length (split_nl (firstn i s))) as N' eqn:HN.
        replace (S N' - 1) with (S (N' - 1)) by lia.
        rewrite lineStart_S. cbn [nth length]. lia.
      * rewrite (split_nl_other c (firstn i s) Hc), (split_nl_other c s Hc).
        pose proof (split_nl_not_nil s) as Hn.
        pose proof (split_nl_not_nil (firstn i s)) as Hn'.
        destruct (split_nl s) as [|h t]; [congruence|].
        destruct (split_nl (firstn i s)) as [|h' t']; [congruence|].
        cbn [hd tl]. cbn [length] in *.
        remember (length t') as k eqn:Hk.
        replace (S k - 1) with k in * by lia.
        destruct k as [|k].
        -- rewrite lineStart_0 in *. cbn [nth length] in *. lia.
        -- rewrite lineStart_S in *. cbn [nth length] in *. lia.
Qed.

Lemma lineStart_step : forall ls n,
  n < length ls ->
  lineStart ls (S n) = lineStart ls n + S (length (nth n ls [])).
Proof.
  induction ls as [|l ls IH]; intros n Hn; simpl in Hn; [lia|].
  destruct n as [|n].
  - rewrite lineStart_S, !lineStart_0. simpl. lia.
  - rewrite !lineStart_S. rewrite IH by lia. simpl nth. lia.
Qed.

Lemma lineStart_mono ls : forall n k,
  n + k < length ls ->
  lineStart ls n + length (nth n ls []) + k <= lineStart ls (n + k) + 0
  \/ k = 0.
Proof.
  intros n k. revert n. induction k as [|k IH]; intros n H; [right; reflexivity|].
  left. destruct (IH (S n) ltac:(lia)) as [H1 | H1].
  - rewrite lineStart_step in H1 by lia.
    replace (n + S k) with (S n + k) by lia. lia.
  - subst k. replace (n + 1) with (S n) by lia.
    rewrite lineStart_step by lia. lia.
Qed.

(** An offset is on one line only. *)
Lemma onLine_unique content i N N' :
  onLine content i N -> onLine content i N' -> N = N'.
Proof.
  unfold onLine. intros ([A1 A2] & A3 & A4) ([B1 B2] & B3 & B4).
  destruct (Nat.lt_trichotomy N N') as [H | [H | H]]; [|exact H|].
  - exfalso.
    destruct (lineStart_mono (split_nl content) (N - 1) (N' - N) ltac:(lia))
      as [H1 | H1]; [|lia].
    replace (N - 1 + (N' - N)) with (N' - 1) in H1 by lia. lia.
  - exfalso.
    destruct (lineStart_mono (split_nl content) (N' - 1) (N - N') ltac:(lia))
      as [H1 | H1]; [|lia].
    replace (N' - 1 + (N - N')) with (N - 1) in H1 by lia. lia.
Qed.

Lemma Enumerates_In re s : forall lastIndex ms,
  Regex.Enumerates re s lastIndex ms ->
  forall m, In m ms ->
  exists li0 li1, Regex.exec re s li0 = (Some m, li1).
Proof.
  induction 1 as [lastIndex li E | lastIndex m0 li ms E H IH]; intros m Hin.
  - contradiction.
  - destruct Hin as [<- | Hin]; [eauto | apply IH; exact Hin].
Qed.

(** Where a detection of a file comes from. *)
Lemma detectionsOf_In filePath content found d :
  In d (detectionsOf filePath content found) ->
  exists p ms m,
    In (p, ms) found /\ In m ms /\ skipped p content m = false
    /\ d = mkDetection filePath content (split_nl content) p m.
Proof.
  unfold detectionsOf. rewrite in_flat_map. intros ([p ms] & Hpm & Hd).
  simpl in Hd. rewrite in_flat_map in Hd. destruct Hd as (m & Hm & Hd).
  unfold emit in Hd. destruct (skipped p content m) eqn:Es; [contradiction|].
  destruct Hd as [<- | []]. exists p, ms, m. auto.
Qed.

Lemma scanFile_In env st filePath content d :
  readFileSync env filePath = Some content ->
  In d (fst (scanFile env st filePath)) ->
  exists p ms m,
    In p FLAKY_PATTERNS /\ Regex.Enumerates (regex p) content 0 ms
    /\ In m ms /\ skipped p content m = false
    /\ d = mkDetection filePath content (split_nl content) p m.
Proof.
  intros Hr Hin.
  destruct (scanFile_spec env st filePath content Hr) as (mss & st' & Hm & Hs).
  rewrite Hs in Hin. cbn [fst] in Hin. apply detectionsOf_In in Hin.
  destruct Hin as (p & ms & m & Hpm & Hin & Hsk & Hd).
  exists p, ms, m.
  destruct (map_fst_combine _ _ _ Hm) as [_ HF].
  rewrite Forall_forall in HF. specialize (HF _ Hpm). cbn [fst snd] in HF.
  apply in_combine_l in Hpm. auto.
Qed.

(** C4: the line number of a detection is one more than the number of
    newline characters before the start of its match; said otherwise, the
    line (counted from 1, lines being what the newline characters separate)
    on which the match starts has number [N] exactly when the detection has
    [line = N]. *)
Theorem detection_line_exact :
  forall env st filePath content d,
    readFileSync env filePath = Some content ->
    In d (fst (scanFile env st filePath)) ->
    exists p ms m,
      In p FLAKY_PATTERNS /\ Regex.Enumerates (regex p) content 0 ms
      /\ In m ms
      /\ d = mkDetection filePath content (split_nl content) p m
      /\ line d = 1 + newlines (firstn (Regex.index m) content)
      /\ forall N, onLine content (Regex.index m) N <-> line d = N.
Proof.
  intros env st filePath content d Hr Hin.
  destruct (scanFile_In env st filePath content d Hr Hin)
    as (p & ms & m & Hp & He & Hm & _ & Hd).
  exists p, ms, m. repeat (split; [assumption|]).
  assert (Hline : line d = lineNumberAt content (Regex.index m))
    by (subst d; reflexivity).
  split; [rewrite Hline; apply lineNumberAt_newlines|].
  assert (Hi : Regex.index m <= length content).
  { destruct (Enumerates_In _ _ _ _ He m Hm) as (li0 & li1 & E).
    pose proof catalogue_patterns as Hc. rewrite Forall_forall in Hc.
    destruct (Hc p Hp) as [Hg _].
    destruct (RegexFacts.exec_global_some (regex p) content li0 m li1 Hg E)
      as (_ & _ & H2 & H3). lia. }
  pose proof (onLine_lineNumberAt content (Regex.index m) Hi) as Hon.
  intros N. rewrite Hline. split.
  - intros H. eapply onLine_unique; eauto.
  - intros <-. exact Hon.
Qed.

(** ** [findTestFiles] *)

Lemma Dirent_nested_ind (P : Dirent -> Prop) :
  (forall n, P (File n)) ->
  (forall n sub, Forall P sub -> P (Directory n sub)) ->
  (forall n, P (Unlistable n)) ->
  (forall n, P (Other n)) ->
  forall e, P e.
Proof.
  intros Hf Hd Hu Ho. fix IH 1. intros [n | n sub | n | n].
  - apply Hf.
  - apply Hd. induction sub as [|e sub IHsub]; constructor; [apply IH | exact IHsub].
  - apply Hu.
  - apply Ho.
Qed.

Section Walk.

Variable env : Node.

(** The loop over the entries throws where the first entry throws, and
    else pushes what each entry pushes. *)
Lemma forEach_visit dir sub :
  Forall (fun e => forall dir files,
            visitEntry env dir e files
            = if blocked e then Throw
              else Normal (files ++ filesUnder env dir e)) sub ->
  forall files,
    forEach (fun fs e => visitEntry env dir e fs) sub files
    = if existsb blocked sub then Throw
      else Normal (files ++ flat_map (filesUnder env dir) sub).
Proof.
  induction 1 as [|e sub He _ IH]; intros files; cbn [forEach existsb flat_map].
  - rewrite app_nil_r. reflexivity.
  - rewrite He. destruct (blocked e); cbn [orb]; [reflexivity|].
    rewrite IH. destruct (existsb blocked sub); [reflexivity|].
    rewrite <- app_assoc. reflexivity.
Qed.

(** The walk of an entry only pushes on the array it is given, unless it
    throws. *)
Lemma visitEntry_run : forall e dir files,
  visitEntry env dir e files
  = if blocked e then Throw else Normal (files ++ filesUnder env dir e).
Proof.
  induction e as [n | n sub IH | n | n] using Dirent_nested_ind;
    intros dir files; cbn [visitEntry blocked filesUnder].
  - destruct (isTestFileName n); [reflexivity | rewrite app_nil_r; reflexivity].
  - destruct (includes ignoredDirectories n); cbn [negb andb];
      [rewrite app_nil_r; reflexivity|].
    apply (forEach_visit _ _ IH files).
  - destruct (includes ignoredDirectories n); cbn [negb];
      [rewrite app_nil_r; reflexivity | reflexivity].
  - rewrite app_nil_r. reflexivity.
Qed.

Lemma findTestFilesIn_run dir entries files :
  findTestFilesIn env dir entries files
  = if existsb blocked entries then Throw
    else Normal (files ++ flat_map (filesUnder env dir) entries).
Proof.
  unfold findTestFilesIn. apply forEach_visit.
  apply Forall_forall. intros e _. apply visitEntry_run.
Qed.

Lemma findTestFiles_run dir files :
  findTestFiles env dir files
  = if negb (existsSync env dir) then Normal files
    else match readdirSync env dir with
         | None => Throw
         | Some entries =>
             if existsb blocked entries then Throw
             else Normal (files ++ flat_map (filesUnder env dir) entries)
         end.
Proof.
  unfold findTestFiles. destruct (negb (existsSync env dir)); [reflexivity|].
  destruct (readdirSync env dir) as [entries|]; [|reflexivity].
  apply findTestFilesIn_run.
Qed.

Lemma FileAt_single entries names n :
  FileAt entries names n <-> exists e, In e entries /\ FileAt [e] names n.
Proof.
  split.
  - intros H. inversion H as [es f Hin | es d sub ns f Hin Hsub]; subst.
    + exists (File n). split; [exact Hin|]. constructor. left; reflexivity.
    + exists (Directory d sub). split; [exact Hin|].
      econstructor; [left; reflexivity | exact Hsub].
  - intros (e & Hin & H).
    inversion H as [es f Hin' | es d sub ns f Hin' Hsub]; subst;
      simpl in Hin'; destruct Hin' as [-> | []].
    + constructor. exact Hin.
    + econstructor; eauto.
Qed.






Lemma filesUnder_In : forall e dir p,
  In p (filesUnder env dir e) <->
  exists names n,
    FileAt [e] names n /\ Forall notIgnored names
    /\ isTestFileName n = true /\ p = pathOf env dir names n.
Proof.
  induction e as [n | n sub IH | n | n] using Dirent_nested_ind; intros dir p.
  - cbn [filesUnder]. split.
    + destruct (isTestFileName n) eqn:Et; [|contradiction].
      intros [<- | []]. exists [], n. repeat split; auto.
      constructor. left; reflexivity.
    + intros (names & f & Hat & Hni & Ht & ->).
      inversion Hat as [es f' Hin | es d sub' ns f' Hin Hsub]; subst;
        simpl in Hin; destruct Hin as [E | []]; [|discriminate].
      inversion E; subst. rewrite Ht. left. reflexivity.
  - cbn [filesUnder]. rewrite Forall_forall in IH. split.
    + destruct (includes ignoredDirectories n) eqn:Ei; [contradiction|].
      rewrite in_flat_map. intros (e & He & Hp).
      apply (IH e He) in Hp. destruct Hp as (names & f & Hat & Hni & Ht & ->).
      exists (n :: names), f.
      split; [econstructor; [left; reflexivity|];
              apply FileAt_single; exists e; auto|].
      split; [constructor; [exact Ei | exact Hni]|].
      split; [exact Ht | reflexivity].
    + intros (names & f & Hat & Hni & Ht & ->).
      inversion Hat as [es f' Hin | es d sub' ns f' Hin Hsub]; subst;
        simpl in Hin; destruct Hin as [E | []]; [discriminate|].
      inversion E; subst. inversion Hni as [|x l Hn Hni']; subst.
      unfold notIgnored in Hn. rewrite Hn.
      rewrite in_flat_map.
      apply FileAt_single in Hsub. destruct Hsub as (e & He & Hat').
      exists e. split; [exact He|]. apply (IH e He).
      exists ns, f. auto.
  - cbn [filesUnder]. split; [contradiction|].
    intros (names & f & Hat & _).
    inversion Hat as [es f' Hin | es d sub' ns f' Hin Hsub]; subst;
      simpl in Hin; destruct Hin as [E | []]; discriminate.
  - cbn [filesUnder]. split; [contradiction|].
    intros (names & f & Hat & _).
    inversion Hat as [es f' Hin | es d sub' ns f' Hin Hsub]; subst;
      simpl in Hin; destruct Hin as [E | []]; discriminate.
Qed.

Lemma filesUnder_flat_In dir entries p :
  In p (flat_map (filesUnder env dir) entries) <->
  exists names n,
    FileAt entries names n /\ Forall notIgnored names
    /\ isTestFileName n = true /\ p = pathOf env dir names n.
Proof.
  rewrite in_flat_map. split.
  - intros (e & He & Hp). apply filesUnder_In in Hp.
    destruct Hp as (names & n & Hat & H).
    exists names, n. split; [|exact H]. apply FileAt_single. eauto.
  - intros (names & n & Hat & H). apply FileAt_single in Hat.
    destruct Hat as (e & He & Hat). exists e. split; [exact He|].
    apply filesUnder_In. eauto.
Qed.

End Walk.

(** What a call of [findTestFiles] that returns has returned. *)
Lemma findTestFiles_Normal env dir files l :
  findTestFiles env dir files = Normal l ->
  (existsSync env dir = false /\ l = files)
  \/ exists entries,
       existsSync env dir = true /\ readdirSync env dir = Some entries
       /\ existsb blocked entries = false
       /\ l = files ++ flat_map (filesUnder env dir) entries.
Proof.
  rewrite findTestFiles_run.
  destruct (existsSync env dir); cbn [negb].
  - destruct (readdirSync env dir) as [entries|]; [|discriminate].
    destruct (existsb blocked entries) eqn:Eb; [discriminate|].
    intros H; inversion H; subst. right. exists entries. auto.
  - intros H; inversion H; subst. left. auto.
Qed.

Lemma findTestFiles_In env dir files :
  findTestFiles env dir [] = Normal files ->
  forall p,
    In p files <->
    exists entries names n,
      existsSync env dir = true
      /\ readdirSync env dir = Some entries
      /\ FileAt entries names n
      /\ Forall notIgnored names
      /\ isTestFileName n = true
      /\ p = pathOf env dir names n.
Proof.
  intros H p. apply findTestFiles_Normal in H.
  destruct H as [[Hex ->] | (entries & Hex & Hr & _ & ->)].
  - split; [contradiction|]. intros (entries & names & n & E & _). congruence.
  - cbn [app]. rewrite filesUnder_flat_In. split.
    + intros (names & n & H). exists entries, names, n. auto.
    + intros (entries' & names & n & _ & E & H). rewrite Hr in E.
      inversion E; subst. eauto.
Qed.

(** C6: what [findTestFiles] returns is exactly the paths of the regular
    files with a test-file name that are reached from the root through
    directories none of which has a name of the ignore list: a directory
    named [node_modules], [dist], [build], [.git] or [coverage] is never
    entered, whatever it holds. *)
Theorem findTestFiles_prunes_ignored :
  forall env dir files,
    findTestFiles env dir [] = Normal files ->
    forall p,
      In p files <->
      exists entries names n,
        existsSync env dir = true
        /\ readdirSync env dir = Some entries
        /\ FileAt entries names n
        /\ Forall notIgnored names
        /\ isTestFileName n = true
        /\ p = pathOf env dir names n.
Proof. intros env dir files H. apply (findTestFiles_In env dir files H). Qed.

(** ** [scanDirectory] *)

Lemma jsstring_eqb_eq : forall a b, jsstring_eqb a b = true <-> a = b.
Proof.
  induction a as [|x a IH]; intros [|y b]; simpl; split; try congruence.
  - rewrite andb_true_iff, N.eqb_eq, IH. intros [-> ->]. reflexivity.
  - intros E. inversion E; subst. rewrite N.eqb_refl. simpl. apply IH. reflexivity.
Qed.


Lemma scanFile_state_free env st f :
  fst (scanFile env st f) = detectionsIn env f.
Proof.
  unfold detectionsIn.
  apply (scanFile_same_text env env st initialState f f eq_refl).
  reflexivity.
Qed.









(** ** Distinct paths *)

(** With the join of POSIX, the files of a tree whose directories hold
    plain and distinct names have distinct paths: the hypothesis of
    [scanDirectory_spec] on a file system. *)

Lemma plain_prefix : forall n1 n2 t1 t2,
  plainName n1 -> plainName n2 ->
  (t1 = [] \/ exists t, t1 = 47%N :: t) ->
  (t2 = [] \/ exists t, t2 = 47%N :: t) ->
  n1 ++ t1 = n2 ++ t2 -> n1 = n2.
Proof.
  unfold plainName.
  induction n1 as [|c n1 IH]; intros [|d n2] t1 t2 H1 H2 T1 T2 E; simpl in *.
  - reflexivity.
  - exfalso. destruct T1 as [-> | [t ->]]; [discriminate|].
    inversion E; subst. apply H2. left. reflexivity.
  - exfalso. destruct T2 as [-> | [t ->]]; [discriminate|].
    inversion E; subst. apply H1. left. reflexivity.
  - inversion E; subst. f_equal.
    apply (IH n2 t1 t2); auto.
Qed.

Section PosixPaths.

Variable env : Node.
Hypothesis env_join : path_join env = posixJoin.

(** A path found under the entry [e] of [dir] goes on, after the
    directory, with the name of [e], and then ends or has a separator. *)
Lemma filesUnder_shape : forall e dir p,
  In p (filesUnder env dir e) ->
  exists t, p = dir ++ 47%N :: entryName e ++ t
            /\ (t = [] \/ exists t', t = 47%N :: t').
Proof.
  induction e as [n | n sub IH | n | n] using Dirent_nested_ind; intros dir p;
    cbn [filesUnder entryName].
  - destruct (isTestFileName n); [|contradiction].
    intros [<- | []]. exists []. rewrite env_join, app_nil_r.
    split; [reflexivity | left; reflexivity].
  - destruct (includes ignoredDirectories n); [contradiction|].
    rewrite in_flat_map. intros (e & He & Hp).
    rewrite Forall_forall in IH. apply (IH e He) in Hp.
    destruct Hp as (t & -> & _). rewrite env_join. unfold posixJoin.
    exists (47%N :: entryName e ++ t). split; [|right; eauto].
    change (js "/") with [47%N]. rewrite <- !app_assoc. reflexivity.
  - contradiction.
  - contradiction.
Qed.

Lemma NoDup_append {A : Type} (l l' : list A) :
  NoDup l -> NoDup l' -> (forall a, In a l -> ~ In a l') -> NoDup (l ++ l').
Proof.
  induction 1 as [|x l Hx Hl IH]; intros Hl' Hd; simpl; [exact Hl'|].
  constructor.
  - rewrite in_app_iff. intros [H | H]; [contradiction|].
    apply (Hd x); [left; reflexivity | exact H].
  - apply IH; [exact Hl'|]. intros a Ha. apply Hd. right. exact Ha.
Qed.

Lemma flat_visit_NoDup dir : forall entries,
  NoDup (map entryName entries) ->
  Forall (fun e => plainName (entryName e)) entries ->
  (forall e, In e entries -> NoDup (filesUnder env dir e)) ->
  NoDup (flat_map (filesUnder env dir) entries).
Proof.
  induction entries as [|e entries IH]; intros Hnd Hpl Heach; simpl.
  - constructor.
  - inversion Hnd as [|x l Hx Hnd']; subst.
    inversion Hpl as [|x l Hpe Hpl']; subst.
    apply NoDup_append.
    + apply Heach. left. reflexivity.
    + apply IH; [exact Hnd' | exact Hpl'|].
      intros e' He'. apply Heach. right. exact He'.
    + intros p Hp Hp'. apply in_flat_map in Hp'.
      destruct Hp' as (e' & He' & Hp').
      apply filesUnder_shape in Hp. destruct Hp as (t & -> & Ht).
      apply filesUnder_shape in Hp'. destruct Hp' as (t' & E & Ht').
      apply app_inv_head in E. inversion E as [E'].
      rewrite Forall_forall in Hpl'.
      apply plain_prefix in E'; [| exact Hpe | apply Hpl'; exact He' | exact Ht | exact Ht'].
      apply Hx. rewrite E'. apply in_map. exact He'.
Qed.

Lemma filesUnder_NoDup : forall e dir,
  (forall n sub, e = Directory n sub -> wellNamed sub) ->
  NoDup (filesUnder env dir e).
Proof.
  induction e as [n | n sub IH | n | n] using Dirent_nested_ind;
    intros dir Hwn; cbn [filesUnder].
  - destruct (isTestFileName n); [|constructor].
    constructor; [intros [] | constructor].
  - destruct (includes ignoredDirectories n); [constructor|].
    destruct (Hwn n sub eq_refl) as [entries Hnd Hpl Hsub].
    apply flat_visit_NoDup; [exact Hnd | exact Hpl|].
    intros e He. rewrite Forall_forall in IH. apply (IH e He).
    intros n' sub' ->. apply (Hsub n' sub'). exact He.
  - constructor.
  - constructor.
Qed.

Lemma posix_paths_distinct dir entries files :
  readdirSync env dir = Some entries -> wellNamed entries ->
  findTestFiles env dir [] = Normal files ->
  NoDup files.
Proof.
  intros Hr Hwn Hf. apply findTestFiles_Normal in Hf.
  destruct Hf as [[_ ->] | (entries' & _ & Hr' & _ & ->)]; [constructor|].
  rewrite Hr in Hr'. inversion Hr'; subst entries'. cbn [app].
  destruct Hwn as [entries Hnd Hpl Hsub].
  apply flat_visit_NoDup; [exact Hnd | exact Hpl|].
  intros e He. apply filesUnder_NoDup.
  intros n sub ->. apply (Hsub n sub). exact He.
Qed.

End PosixPaths.



(** ** The reports *)

(** C3, as the code has it: without detections the report of the Markdown
    reporter is the heading, the line of the counts and the congratulation,
    each followed by an empty line, and nothing else - no table, no section
    and no recommendation. *)
Theorem formatAsMarkdown_all_clear :
  forall env r,
    totalDetections r = 0 ->
    formatAsMarkdown env r
    = jsn "## Flaky Test Analysis" ++ [NL]
      ++ js "Scanned **" ++ toString (scannedFiles r)
      ++ jsn "** test files, found **0** potential flaky patterns." ++ [NL]
      ++ allClear.
Proof.
  intros env r H0. unfold formatAsMarkdown. rewrite H0.
  simpl Nat.eqb. cbv iota.
  unfold jsn. simpl join.
  change (toString 0) with (js "0").
  rewrite <- !app_assoc. reflexivity.
Qed.


(** ** The command line driver *)

Lemma includes_In l x : includes l x = true <-> In x l.
Proof.
  unfold includes. rewrite existsb_exists. split.
  - intros (y & Hy & E). apply jsstring_eqb_eq in E. subst. exact Hy.
  - intros H. exists x. split; [exact H | apply jsstring_eqb_eq; reflexivity].
Qed.

Lemma nonEmpty_true {A : Type} (l : list A) : nonEmpty l = true <-> l <> [].
Proof.
  unfold nonEmpty. destruct l; simpl; split; try congruence; try discriminate.
  - intros _. reflexivity.
Qed.

Lemma includes_false l x : ~ In x l -> includes l x = false.
Proof.
  intros H. destruct (includes l x) eqn:E; [|reflexivity].
  apply includes_In in E. contradiction.
Qed.

(** What a run without a help flag leaves, by the way the scan ends. *)
Lemma main_outcome env args :
  ~ In (js "--help") args -> ~ In (js "-h") args ->
  match scanDirectory env initialState (targetDirOf env args) with
  | Throw =>
      main env args = {| stdout := []; exitCode := 1; scanned := None |}
  | Normal (r, _) =>
      main env args
      = {| stdout :=
             if includes args (js "--json") then [formatAsJson r]
             else if negb (includes args (js "--quiet"))
                  then [formatAsMarkdown env r]
                  else [];
           exitCode :=
             if includes args (js "--ci") && nonEmpty (high (bySeverity r))
             then 1 else 0;
           scanned := Some r |}
  end.
Proof.
  intros H1 H2. unfold main.
  rewrite (includes_false args (js "--help") H1),
          (includes_false args (js "-h") H2).
  cbn [orb].
  destruct (scanDirectory env initialState (targetDirOf env args))
    as [[r st']|]; [|reflexivity].
  destruct (includes args (js "--ci") && nonEmpty (high (bySeverity r)));
    reflexivity.
Qed.

Lemma main_help env args :
  In (js "--help") args \/ In (js "-h") args ->
  main env args = {| stdout := [helpText]; exitCode := 0; scanned := None |}.
Proof.
  intros H. unfold main.
  assert (E : includes args (js "--help") || includes args (js "-h") = true).
  { apply orb_true_iff.
    destruct H as [H | H]; [left | right]; apply includes_In; exact H. }
  rewrite E. reflexivity.
Qed.



(** ** The properties on the sample runtime *)

(** In [clock.test.ts] the call of [Date.now()] comes after
    [vi.useFakeTimers()] and is not reported; the TTL of one second, of
    severity high, is. *)
Example clock_detections :
  map (fun d => (pattern d, line d, d_severity d, matchedText d))
    (fst (scanFile sampleNode initialState clockPath))
  = [(js "1-second TTL", 3, High, js "ttlSeconds = 1")].
Proof. vm_compute. reflexivity. Qed.

(** In [server.spec.js] nothing mitigates: one detection per match. *)
Example server_detections :
  map (fun d => (pattern d, line d, d_severity d, matchedText d))
    (fst (scanFile sampleNode initialState serverPath))
  = [(js "Short delay/sleep", 2, High, js "sleep(5)");
     (js "Unmocked Date.now()", 1, Medium, js "Date.now()");
     (js "Hardcoded port numbers", 3, Low, js "PORT = 8080")].
Proof. vm_compute. reflexivity. Qed.

(** The test file of [node_modules] is not found, nor the entry that is
    not a regular file. *)
Example sample_files :
  findTestFiles sampleNode (js "/repo") [] = Normal [clockPath; serverPath].
Proof. vm_compute. reflexivity. Qed.



(** The walk of the vault throws, at [private]; that of [docs] returns:
    it does not enter [coverage], where it could not list [raw]. *)
Example vault_walks :
  findTestFiles vaultNode (js "/vault") [] = Throw
  /\ findTestFiles vaultNode (js "/vault/docs") [] = Normal [].
Proof. vm_compute. split; reflexivity. Qed.

Lemma scanFile_mitigation_witness :
  readFileSync sampleNode clockPath = Some clockTest
  /\ exists found,
       map fst found = FLAKY_PATTERNS
       /\ Forall (fun pm => Regex.Enumerates (regex (fst pm)) clockTest 0 (snd pm))
            found
       /\ fst (scanFile sampleNode usedState clockPath)
          = detectionsOf clockPath clockTest found.
Proof.
  split; [reflexivity|].
  destruct (scanFile_mitigation sampleNode usedState clockPath clockTest eq_refl)
    as (found & H1 & H2 & H3 & _).
  exists found. split; [exact H1 | split; [exact H2 | exact H3]].
Defined.


Lemma findTestFiles_prunes_ignored_witness :
  findTestFiles sampleNode (js "/repo") [] = Normal [clockPath; serverPath]
  /\ forall p,
       In p [clockPath; serverPath] <->
       exists entries names n,
         existsSync sampleNode (js "/repo") = true
         /\ readdirSync sampleNode (js "/repo") = Some entries
         /\ FileAt entries names n
         /\ Forall notIgnored names
         /\ isTestFileName n = true
         /\ p = pathOf sampleNode (js "/repo") names n.
Proof.
  split; [exact sample_files|].
  exact (findTestFiles_prunes_ignored sampleNode (js "/repo")
           [clockPath; serverPath] sample_files).
Defined.

Lemma formatAsMarkdown_all_clear_witness :
  totalDetections (emptyResult 2) = 0
  /\ formatAsMarkdown sampleNode (emptyResult 2)
     = jsn "## Flaky Test Analysis" ++ [NL]
       ++ js "Scanned **" ++ toString (scannedFiles (emptyResult 2))
       ++ jsn "** test files, found **0** potential flaky patterns." ++ [NL]
       ++ allClear.
Proof.
  split; [reflexivity|].
  exact (formatAsMarkdown_all_clear sampleNode (emptyResult 2) eq_refl).
Defined.

(** C3 as it is stated fails: the report of a result without detection is
    not the congratulation alone. *)
Lemma formatAsMarkdown_not_a_single_line :
  totalDetections (emptyResult 0) = 0
  /\ formatAsMarkdown sampleNode (emptyResult 0) <> allClear
  /\ length (split_nl (formatAsMarkdown sampleNode (emptyResult 0))) = 6.
Proof.
  split; [reflexivity|]. split; [vm_compute; discriminate | vm_compute; reflexivity].
Qed.

Lemma detection_line_exact_witness :
  readFileSync sampleNode serverPath = Some serverSpec
  /\ exists d p ms m,
       In d (fst (scanFile sampleNode initialState serverPath))
       /\ In p FLAKY_PATTERNS
       /\ Regex.Enumerates (regex p) serverSpec 0 ms /\ In m ms
       /\ d = mkDetection serverPath serverSpec (split_nl serverSpec) p m
       /\ line d = 1 + newlines (firstn (Regex.index m) serverSpec)
       /\ forall N, onLine serverSpec (Regex.index m) N <-> line d = N.
Proof.
  split; [reflexivity|].
  assert (Hd : exists d l,
             fst (scanFile sampleNode initialState serverPath) = d :: l)
    by (vm_compute; eauto).
  destruct Hd as (d & l & Hd).
  assert (Hin : In d (fst (scanFile sampleNode initialState serverPath)))
    by (rewrite Hd; left; reflexivity).
  destruct (detection_line_exact sampleNode initialState serverPath serverSpec d
              eq_refl Hin) as (p & ms & m & H).
  exists d, p, ms, m. split; [exact Hin | exact H].
Defined.







(** On the sample tree [--ci] fails the run, and does not when the
    directory has nothing to scan or when the help is asked for. *)
Example ci_runs :
  exitCode (main sampleNode [js "--ci"; js "/repo"]) = 1
  /\ exitCode (main sampleNode [js "--ci"; js "/nowhere"]) = 0
  /\ exitCode (main sampleNode [js "--ci"; js "--help"; js "/repo"]) = 0
  /\ exitCode (main sampleNode [js "/repo"]) = 0.
Proof. vm_compute. repeat split. Qed.

Lemma scanFile_depends_on_content_only_witness :
  readFileSync sampleNode serverPath = readFileSync sampleNode serverPath
  /\ fst (scanFile sampleNode usedState serverPath)
     = fst (scanFile sampleNode initialState serverPath).
Proof.
  split; [reflexivity|].
  exact (proj2 (scanFile_depends_on_content_only sampleNode sampleNode
                  usedState initialState serverPath serverPath eq_refl)
               eq_refl).
Defined.

(** ** JSON: reading back what [stringify] writes *)

Module JSONFacts.
Import JSON.

(** *** Strings *)

Lemma hexValue_hexDigit d : (d < 16)%N -> hexValue (hexDigit d) = Some d.
Proof.
  intros Hd. unfold hexDigit, hexValue.
  destruct (N.ltb d 10) eqn:E.
  - apply N.ltb_lt in E.
    replace (N.leb 48 (48 + d) && N.leb (48 + d) 57) with true.
    + f_equal. lia.
    + symmetry. apply andb_true_iff. split; apply N.leb_le; lia.
  - apply N.ltb_ge in E.
    replace (N.leb 48 (87 + d) && N.leb (87 + d) 57) with false.
    + replace (N.leb 97 (87 + d) && N.leb (87 + d) 102) with true.
      * f_equal. lia.
      * symmetry. apply andb_true_iff. split; apply N.leb_le; lia.
    + symmetry. apply andb_false_iff. right. apply N.leb_gt. lia.
Qed.

Lemma hex_digits c :
  (c < 65536)%N ->
  (c / 4096 mod 16 * 4096 + c / 256 mod 16 * 256 + c / 16 mod 16 * 16
   + c mod 16 = c)%N.
Proof.
  intros Hc.
  pose proof (N.Div0.div_mod c 16) as H1.
  pose proof (N.Div0.div_mod (c / 16) 16) as H2.
  pose proof (N.Div0.div_mod (c / 256) 16) as H3.
  rewrite (N.Div0.div_div c 16 16) in H2.
  replace (c / 256 / 16)%N with (c / 4096)%N in H3
    by (rewrite (N.Div0.div_div c 256 16); reflexivity).
  change (16 * 16)%N with 256%N in H2.
  assert (H4 : (c / 4096 < 16)%N)
    by (apply N.Div0.div_lt_upper_bound; lia).
  rewrite (N.mod_small (c / 4096) 16 H4). lia.
Qed.

Lemma parseChars_unicodeEscape c t :
  (c < 65536)%N ->
  parseChars (unicodeEscape c ++ t)
  = match parseChars t with
    | Some (body, r) => Some (c :: body, r)
    | None => None
    end.
Proof.
  intros Hc. unfold unicodeEscape.
  cbn [app parseChars]. cbn [N.eqb Pos.eqb].
  rewrite !hexValue_hexDigit by (apply N.mod_lt; discriminate).
  rewrite (hex_digits c Hc). reflexivity.
Qed.

Lemma parseChars_plain c t :
  N.eqb c 34 = false -> N.eqb c 92 = false -> N.ltb c 32 = false ->
  parseChars (c :: t)
  = match parseChars t with
    | Some (body, r) => Some (c :: body, r)
    | None => None
    end.
Proof. intros H1 H2 H3. cbn [parseChars]. rewrite H1, H2, H3. reflexivity. Qed.

Lemma parseChars_escapeUnit c t :
  parseChars (escapeUnit c ++ t)
  = match parseChars t with
    | Some (body, r) => Some (c :: body, r)
    | None => None
    end.
Proof.
  unfold escapeUnit.
  destruct (N.eqb c 8) eqn:E8; [apply N.eqb_eq in E8; subst; reflexivity|].
  destruct (N.eqb c 9) eqn:E9; [apply N.eqb_eq in E9; subst; reflexivity|].
  destruct (N.eqb c 10) eqn:E10; [apply N.eqb_eq in E10; subst; reflexivity|].
  destruct (N.eqb c 12) eqn:E12; [apply N.eqb_eq in E12; subst; reflexivity|].
  destruct (N.eqb c 13) eqn:E13; [apply N.eqb_eq in E13; subst; reflexivity|].
  destruct (N.eqb c 34) eqn:E34; [apply N.eqb_eq in E34; subst; reflexivity|].
  destruct (N.eqb c 92) eqn:E92; [apply N.eqb_eq in E92; subst; reflexivity|].
  destruct (N.ltb c 32) eqn:E32.
  - apply parseChars_unicodeEscape. apply N.ltb_lt in E32. lia.
  - apply parseChars_plain; assumption.
Qed.

Lemma surrogate_plain c :
  isHighSurrogate c = true \/ isLowSurrogate c = true ->
  N.eqb c 34 = false /\ N.eqb c 92 = false /\ N.ltb c 32 = false
  /\ (c < 65536)%N.
Proof.
  unfold isHighSurrogate, isLowSurrogate.
  rewrite !andb_true_iff, !N.leb_le.
  intros H. repeat split;
    try (apply N.eqb_neq); try (apply N.ltb_ge); lia.
Qed.

(** The body of a quoted string is read back up to the closing quote. *)
Lemma parseChars_quoteBody : forall n s rest,
  length s <= n ->
  parseChars (quoteBody s ++ 34%N :: rest) = Some (s, rest).
Proof.
  induction n as [|n IH]; intros s rest Hn.
  - destruct s; [reflexivity | simpl in Hn; lia].
  - destruct s as [|c tl]; [reflexivity|]. simpl in Hn.
    cbn [quoteBody].
    destruct (isHighSurrogate c) eqn:Eh.
    + destruct (surrogate_plain c (or_introl Eh)) as (H1 & H2 & H3 & H4).
      destruct tl as [|d tl'].
      * rewrite parseChars_unicodeEscape by exact H4. reflexivity.
      * destruct (isLowSurrogate d) eqn:El.
        -- destruct (surrogate_plain d (or_intror El)) as (G1 & G2 & G3 & G4).
           cbn [app]. rewrite parseChars_plain by assumption.
           rewrite parseChars_plain by assumption.
           rewrite IH by (simpl in Hn; lia). reflexivity.
        -- rewrite <- app_assoc, parseChars_unicodeEscape by exact H4.
           rewrite IH by lia. reflexivity.
    + destruct (isLowSurrogate c) eqn:El.
      * destruct (surrogate_plain c (or_intror El)) as (H1 & H2 & H3 & H4).
        rewrite <- app_assoc, parseChars_unicodeEscape by exact H4.
        rewrite IH by lia. reflexivity.
      * rewrite <- app_assoc, parseChars_escapeUnit.
        rewrite IH by lia. reflexivity.
Qed.

(** *** Numbers *)

Lemma digitOfChar_chars u c t :
  chars_of_uint u = c :: t ->
  N.eqb c 34 = false /\ N.eqb c 91 = false /\ N.eqb c 123 = false
  /\ isWs c = false /\ digitOfChar c <> None.
Proof. destruct u; simpl; intros H; inversion H; subst; repeat split; discriminate. Qed.

Lemma parseDigits_chars : forall u rest,
  noDigitAhead rest -> parseDigits (chars_of_uint u ++ rest) = (u, rest).
Proof.
  induction u; intros rest Hr; simpl;
    try (rewrite (IHu rest Hr); reflexivity).
  destruct rest as [|c r]; [reflexivity|]. simpl in *. rewrite Hr. reflexivity.
Qed.

Lemma unorm_no_leading_zero u v :
  Decimal.unorm u = Decimal.D0 v -> v = Decimal.Nil.
Proof.
  induction u; simpl; intros H; try discriminate; auto.
  inversion H; reflexivity.
Qed.

Lemma to_uint_normal n : Decimal.unorm (Nat.to_uint n) = Nat.to_uint n.
Proof.
  rewrite <- (Unsigned.to_of (Nat.to_uint n)), Unsigned.of_to. reflexivity.
Qed.

Lemma parseNumber_toString n rest :
  noDigitAhead rest -> parseNumber (toString n ++ rest) = Some (n, rest).
Proof.
  intros Hr. unfold parseNumber, toString.
  rewrite (parseDigits_chars _ _ Hr).
  pose proof (Unsigned.of_to n) as Hof.
  pose proof (to_uint_normal n) as Hnorm.
  destruct (Nat.to_uint n) as [|u|u|u|u|u|u|u|u|u|u] eqn:E;
    try (rewrite <- Hof; reflexivity).
  - simpl in Hnorm. discriminate.
  - apply unorm_no_leading_zero in Hnorm. subst u.
    rewrite <- Hof. reflexivity.
Qed.

(** *** Values *)

Lemma value_nested_ind (P : value -> Prop) :
  (forall n, P (Num n)) ->
  (forall s, P (Str s)) ->
  (forall items, Forall P items -> P (Arr items)) ->
  (forall members, Forall (fun kv => P (snd kv)) members -> P (Obj members)) ->
  forall v, P v.
Proof.
  intros Hn Hs Ha Ho. fix IH 1. intros [n | s | items | members].
  - apply Hn.
  - apply Hs.
  - apply Ha. induction items as [|v items IHi]; constructor;
      [apply IH | exact IHi].
  - apply Ho. induction members as [|[k v] members IHm]; constructor;
      [apply IH | exact IHm].
Qed.

Lemma skipWs_app pre c t :
  allWs pre -> isWs c = false -> skipWs (pre ++ c :: t) = c :: t.
Proof.
  intros Hpre Hc. induction Hpre as [|d pre Hd _ IH]; simpl.
  - rewrite Hc. reflexivity.
  - rewrite Hd. exact IH.
Qed.

Lemma allWs_noDigit pre c t :
  allWs pre -> digitOfChar c = None -> noDigitAhead (pre ++ c :: t).
Proof.
  intros Hpre Hc. destruct Hpre as [|d pre Hd _]; simpl; [exact Hc|].
  unfold isWs in Hd. rewrite !orb_true_iff, !N.eqb_eq in Hd.
  destruct Hd as [[[-> | ->] | ->] | ->]; reflexivity.
Qed.

Lemma toString_head n :
  exists c t, toString n = c :: t
    /\ N.eqb c 34 = false /\ N.eqb c 91 = false /\ N.eqb c 123 = false
    /\ isWs c = false /\ N.eqb c 93 = false.
Proof.
  unfold toString. pose proof (to_uint_normal n) as Hnorm.
  destruct (Nat.to_uint n); simpl in *; try discriminate;
    eexists; eexists; repeat split.
Qed.

Lemma serialize_Arr gap indent v vs :
  serialize gap indent (Arr (v :: vs))
  = 91%N :: NL :: (indent ++ gap)
    ++ join (44%N :: NL :: (indent ++ gap))
         (map (serialize gap (indent ++ gap)) (v :: vs))
    ++ (NL :: indent) ++ 93%N :: [].
Proof.
  cbn [serialize]. change (js "[") with [91%N]. change (js "]") with [93%N].
  change (js ",") with [44%N]. cbn [app]. rewrite <- !app_assoc. reflexivity.
Qed.

Lemma serialize_Obj gap indent kv kvs :
  serialize gap indent (Obj (kv :: kvs))
  = 123%N :: NL :: (indent ++ gap)
    ++ join (44%N :: NL :: (indent ++ gap))
         (map (memberText gap (indent ++ gap)) (kv :: kvs))
    ++ (NL :: indent) ++ 125%N :: [].
Proof.
  cbn [serialize]. change (js "{") with [123%N]. change (js "}") with [125%N].
  change (js ",") with [44%N]. cbn [app]. rewrite <- !app_assoc. reflexivity.
Qed.

(** The text of a value starts with a character that is neither white
    space nor a closing bracket. *)
Lemma serialize_head gap indent v :
  exists c t, serialize gap indent v = c :: t
    /\ isWs c = false /\ N.eqb c 93 = false.
Proof.
  destruct v as [n | s | [|v vs] | [|kv kvs]].
  - destruct (toString_head n) as (c & t & E & _ & _ & _ & H1 & H2).
    exists c, t. auto.
  - eexists; eexists; repeat split.
  - eexists; eexists; repeat split.
  - rewrite serialize_Arr. eexists; eexists; repeat split.
  - eexists; eexists; repeat split.
  - rewrite serialize_Obj. eexists; eexists; repeat split.
Qed.

Section RoundTrip.

Variable gap : jsstring.
Hypothesis gap_ws : allWs gap.

Lemma reads_elements : forall items,
  Forall (reads gap) items -> items <> [] ->
  forall inner pre closing rest fuel,
    allWs inner -> allWs pre -> allWs closing ->
    length (join (44%N :: NL :: inner) (map (serialize gap inner) items)) + 1
      < fuel ->
    parseElements fuel
      (pre ++ join (44%N :: NL :: inner) (map (serialize gap inner) items)
           ++ closing ++ 93%N :: rest)
    = Some (items, rest).
Proof.
  induction 1 as [|v items Hv Hitems IH]; intros Hne; [congruence|].
  intros inner pre closing rest fuel Hin Hpre Hcl Hfuel.
  destruct fuel as [|fuel]; [lia|].
  destruct items as [|v2 items].
  - cbn [map join] in *. cbn [parseElements].
    rewrite (Hv inner pre (closing ++ 93%N :: rest) fuel Hin Hpre);
      [|apply allWs_noDigit; [exact Hcl | reflexivity] | lia].
    cbv beta iota.
    rewrite (skipWs_app closing 93%N rest Hcl eq_refl). reflexivity.
  - change (join (44%N :: NL :: inner)
              (map (serialize gap inner) (v :: v2 :: items)))
      with (serialize gap inner v ++ (44%N :: NL :: inner)
            ++ join (44%N :: NL :: inner)
                 (map (serialize gap inner) (v2 :: items))) in *.
    rewrite !length_app in Hfuel. cbn [length] in Hfuel.
    cbn [parseElements]. rewrite <- !app_assoc.
    rewrite (Hv inner pre _ fuel Hin Hpre); [|reflexivity | lia].
    cbn [app skipWs isWs N.eqb Pos.eqb orb].
    assert (Hnl : allWs (NL :: inner))
      by (constructor; [reflexivity | exact Hin]).
    pose proof (IH ltac:(discriminate) inner (NL :: inner) closing rest fuel
                  Hin Hnl Hcl ltac:(lia)) as Hrec.
    cbn [app] in Hrec. rewrite Hrec. reflexivity.
Qed.

Lemma reads_members : forall members,
  Forall (fun kv => reads gap (snd kv)) members -> members <> [] ->
  forall inner pre closing rest fuel,
    allWs inner -> allWs pre -> allWs closing ->
    length (join (44%N :: NL :: inner) (map (memberText gap inner) members)) + 1
      < fuel ->
    parseMembers fuel
      (pre ++ join (44%N :: NL :: inner) (map (memberText gap inner) members)
           ++ closing ++ 125%N :: rest)
    = Some (members, rest).
Proof.
  induction 1 as [|[k v] members Hv Hmembers IH]; intros Hne; [congruence|].
  intros inner pre closing rest fuel Hin Hpre Hcl Hfuel.
  destruct fuel as [|fuel]; [lia|].
  assert (Hmember : forall tail,
            memberText gap inner (k, v) ++ tail
            = 34%N :: quoteBody k
              ++ 34%N :: 58%N :: 32%N :: serialize gap inner v ++ tail).
  { intros tail. unfold memberText, quote. cbn [fst snd].
    change (js ": ") with [58%N; 32%N]. cbn [app].
    rewrite <- !app_assoc. reflexivity. }
  assert (Hlen : length (serialize gap inner v)
                 < length (memberText gap inner (k, v))).
  { unfold memberText, quote. cbn [fst snd]. rewrite !length_app.
    cbn [length]. lia. }
  cbn [snd] in Hv.
  destruct members as [|kv2 members].
  - cbn [map join] in *. cbn [parseMembers].
    rewrite Hmember. rewrite (skipWs_app pre 34%N _ Hpre eq_refl).
    cbn [N.eqb Pos.eqb].
    rewrite (parseChars_quoteBody (length k) k _ (le_n _)).
    cbn [skipWs isWs N.eqb Pos.eqb orb].
    assert (Hsp : allWs [32%N]) by (constructor; [reflexivity | constructor]).
    pose proof (Hv inner [32%N] (closing ++ 125%N :: rest) fuel Hin Hsp
                  (allWs_noDigit closing 125%N rest Hcl eq_refl) ltac:(lia))
      as Hval.
    cbn [app] in Hval. rewrite Hval.
    cbv beta iota.
    rewrite (skipWs_app closing 125%N rest Hcl eq_refl). reflexivity.
  - change (join (44%N :: NL :: inner)
              (map (memberText gap inner) ((k, v) :: kv2 :: members)))
      with (memberText gap inner (k, v) ++ (44%N :: NL :: inner)
            ++ join (44%N :: NL :: inner)
                 (map (memberText gap inner) (kv2 :: members))) in *.
    rewrite !length_app in Hfuel. cbn [length] in Hfuel.
    cbn [parseMembers]. rewrite <- !app_assoc. rewrite Hmember.
    rewrite (skipWs_app pre 34%N _ Hpre eq_refl).
    cbn [N.eqb Pos.eqb].
    rewrite (parseChars_quoteBody (length k) k _ (le_n _)).
    cbn [skipWs isWs N.eqb Pos.eqb orb].
    assert (Hsp : allWs [32%N]) by (constructor; [reflexivity | constructor]).
    pose proof (Hv inner [32%N]
                  ((44%N :: NL :: inner)
                   ++ join (44%N :: NL :: inner)
                        (map (memberText gap inner) (kv2 :: members))
                   ++ closing ++ 125%N :: rest)
                  fuel Hin Hsp eq_refl ltac:(lia)) as Hval.
    cbn [app] in Hval. cbn [app]. rewrite Hval.
    cbn [app skipWs isWs N.eqb Pos.eqb orb].
    assert (Hnl : allWs (NL :: inner))
      by (constructor; [reflexivity | exact Hin]).
    pose proof (IH ltac:(discriminate) inner (NL :: inner) closing rest fuel
                  Hin Hnl Hcl ltac:(lia)) as Hrec.
    cbn [app] in Hrec. rewrite Hrec. reflexivity.
Qed.

Lemma allWs_cons c l : isWs c = true -> allWs l -> allWs (c :: l).
Proof. intros Hc Hl. constructor; assumption. Qed.

Lemma allWs_nil : allWs [].
Proof. constructor. Qed.

Lemma allWs_app a b : allWs a -> allWs b -> allWs (a ++ b).
Proof. unfold allWs. intros Ha Hb. apply Forall_app. auto. Qed.

Lemma text_Arr indent v vs pre rest :
  pre ++ serialize gap indent (Arr (v :: vs)) ++ rest
  = pre ++ 91%N
      :: (NL :: indent ++ gap)
         ++ (join (44%N :: NL :: (indent ++ gap))
               (map (serialize gap (indent ++ gap)) (v :: vs))
             ++ (NL :: indent) ++ 93%N :: rest).
Proof.
  rewrite serialize_Arr. cbn [app].
  repeat (rewrite <- app_assoc; cbn [app]). reflexivity.
Qed.

Lemma text_Obj indent kv kvs pre rest :
  pre ++ serialize gap indent (Obj (kv :: kvs)) ++ rest
  = pre ++ 123%N
      :: (NL :: indent ++ gap)
         ++ (join (44%N :: NL :: (indent ++ gap))
               (map (memberText gap (indent ++ gap)) (kv :: kvs))
             ++ (NL :: indent) ++ 125%N :: rest).
Proof.
  rewrite serialize_Obj. cbn [app].
  repeat (rewrite <- app_assoc; cbn [app]). reflexivity.
Qed.

Lemma reads_all : forall v, reads gap v.
Proof.
  induction v as [n | s | items IH | members IH] using value_nested_ind;
    intros indent pre rest fuel Hin Hpre Hrest Hfuel;
    (destruct fuel as [|fuel]; [lia|]).
  - cbn [serialize] in *.
    destruct (toString_head n) as (c & t & E & H1 & H2 & H3 & H4 & _).
    cbn [parseValue]. rewrite E. cbn [app].
    rewrite (skipWs_app pre c (t ++ rest) Hpre H4). rewrite H1, H2, H3.
    change (c :: t ++ rest) with ((c :: t) ++ rest). rewrite <- E.
    rewrite (parseNumber_toString n rest Hrest). reflexivity.
  - cbn [serialize] in *. unfold quote. cbn [parseValue]. cbn [app].
    rewrite (skipWs_app pre 34%N _ Hpre eq_refl). cbn [N.eqb Pos.eqb].
    rewrite <- app_assoc. cbn [app].
    rewrite (parseChars_quoteBody (length s) s rest (le_n _)). reflexivity.
  - destruct items as [|v vs].
    + cbn [serialize]. change (js "[]") with [91%N; 93%N].
      cbn [parseValue app].
      rewrite (skipWs_app pre 91%N _ Hpre eq_refl). reflexivity.
    + assert (Hlen : length (join (44%N :: NL :: (indent ++ gap))
                               (map (serialize gap (indent ++ gap)) (v :: vs)))
                     + 1 < fuel).
      { rewrite serialize_Arr in Hfuel. cbn [length] in Hfuel.
        rewrite !length_app in Hfuel. cbn [length] in Hfuel. lia. }
      rewrite text_Arr. cbn [parseValue].
      rewrite (skipWs_app pre 91%N _ Hpre eq_refl). cbn [N.eqb Pos.eqb].
      assert (Hinner : allWs (indent ++ gap)) by (apply allWs_app; assumption).
      destruct (serialize_head gap (indent ++ gap) v) as (c & t & E & Hc & Hc').
      remember (join (44%N :: NL :: (indent ++ gap))
                  (map (serialize gap (indent ++ gap)) (v :: vs))
                ++ (NL :: indent) ++ 93%N :: rest) as body eqn:Hbody.
      assert (Hj : exists t', body = c :: t').
      { subst body. destruct vs; cbn [map join]; rewrite E; cbn [app]; eauto. }
      destruct Hj as [t' Hj]. rewrite Hj.
      rewrite (skipWs_app (NL :: indent ++ gap) c t'
                 (allWs_cons NL _ eq_refl Hinner) Hc).
      rewrite Hc'. rewrite <- Hj, Hbody.
      pose proof (reads_elements (v :: vs) IH ltac:(discriminate)
                    (indent ++ gap) [] (NL :: indent) rest fuel
                    Hinner allWs_nil (allWs_cons NL _ eq_refl Hin) Hlen)
        as Hrec.
      cbn [app] in Hrec. cbn [app]. rewrite Hrec. reflexivity.
  - destruct members as [|kv kvs].
    + cbn [serialize]. change (js "{}") with [123%N; 125%N].
      cbn [parseValue app].
      rewrite (skipWs_app pre 123%N _ Hpre eq_refl). reflexivity.
    + assert (Hlen : length (join (44%N :: NL :: (indent ++ gap))
                               (map (memberText gap (indent ++ gap)) (kv :: kvs)))
                     + 1 < fuel).
      { rewrite serialize_Obj in Hfuel. cbn [length] in Hfuel.
        rewrite !length_app in Hfuel. cbn [length] in Hfuel. lia. }
      rewrite text_Obj. cbn [parseValue].
      rewrite (skipWs_app pre 123%N _ Hpre eq_refl). cbn [N.eqb Pos.eqb].
      assert (Hinner : allWs (indent ++ gap)) by (apply allWs_app; assumption).
      remember (join (44%N :: NL :: (indent ++ gap))
                  (map (memberText gap (indent ++ gap)) (kv :: kvs))
                ++ (NL :: indent) ++ 125%N :: rest) as body eqn:Hbody.
      assert (Hj : exists t', body = 34%N :: t').
      { subst body. destruct kvs; cbn [map join]; unfold memberText at 1, quote;
          cbn [app]; eauto. }
      destruct Hj as [t' Hj]. rewrite Hj.
      rewrite (skipWs_app (NL :: indent ++ gap) 34%N t'
                 (allWs_cons NL _ eq_refl Hinner) eq_refl).
      cbn [N.eqb Pos.eqb]. rewrite <- Hj, Hbody.
      pose proof (reads_members (kv :: kvs) IH ltac:(discriminate)
                    (indent ++ gap) [] (NL :: indent) rest fuel
                    Hinner allWs_nil (allWs_cons NL _ eq_refl Hin) Hlen)
        as Hrec.
      cbn [app] in Hrec. cbn [app]. rewrite Hrec. reflexivity.
Qed.

End RoundTrip.

(** [JSON.parse(JSON.stringify(v, null, n))] is [v]. *)
Lemma parse_stringify v space : parse (stringify v space) = Some v.
Proof.
  unfold parse, stringify.
  assert (Hgap : allWs (repeat 32%N space)).
  { unfold allWs. apply Forall_forall. intros c Hc.
    apply repeat_spec in Hc. subst. reflexivity. }
  pose proof (reads_all (repeat 32%N space) Hgap v [] [] []
                (S (length (serialize (repeat 32%N space) [] v)))
                allWs_nil allWs_nil I (Nat.lt_succ_diag_r _)) as H.
  cbn [app] in H. rewrite app_nil_r in H. rewrite H. reflexivity.
Qed.

End JSONFacts.

(** ** The JSON report *)

Lemma Severity_text_inj a b : Severity_text a = Severity_text b -> a = b.
Proof. destruct a, b; intros H; try reflexivity; vm_compute in H; discriminate. Qed.

Lemma scanDirectory_total env st dir r st' :
  scanDirectory env st dir = Normal (r, st') ->
  totalDetections r = length (detections r).
Proof.
  unfold scanDirectory.
  destruct (findTestFiles env dir []) as [files|]; [|discriminate].
  destruct (scanFiles env files st [] []) as [[all m] st1].
  intros H. inversion H; subst. reflexivity.
Qed.

(** C5: the text of the JSON reporter parses back into the object with
    [scannedFiles], [totalDetections], the three counts of [summary], which
    are the lengths of the lists by severity, and the array [detections],
    whose elements are, in order, the objects with the file, line, pattern
    name, matched text, severity, risk and fix of each detection and no
    other key (the context is left out); the severity strings tell the
    severities apart; and for the result of a scan the array has
    [totalDetections] elements. *)
Theorem formatAsJson_round_trip :
  forall result : ScanResult,
    exists elements : list JSON.value,
      JSON.parse (formatAsJson result)
      = Some (JSON.Obj
          [(js "scannedFiles", JSON.Num (scannedFiles result));
           (js "totalDetections", JSON.Num (totalDetections result));
           (js "summary",
            JSON.Obj
              [(js "high", JSON.Num (length (high (bySeverity result))));
               (js "medium", JSON.Num (length (medium (bySeverity result))));
               (js "low", JSON.Num (length (low (bySeverity result))))]);
           (js "detections", JSON.Arr elements)])
      /\ elements
         = map (fun d =>
                  JSON.Obj
                    [(js "file", JSON.Str (file d));
                     (js "line", JSON.Num (line d));
                     (js "pattern", JSON.Str (pattern d));
                     (js "matchedText", JSON.Str (matchedText d));
                     (js "severity", JSON.Str (Severity_text (d_severity d)));
                     (js "risk", JSON.Str (d_risk d));
                     (js "fix", JSON.Str (d_fix d))])
             (detections result)
      /\ (forall a b, Severity_text a = Severity_text b -> a = b)
      /\ (forall env st dir st',
            scanDirectory env st dir = Normal (result, st') ->
            length elements = totalDetections result).
Proof.
  intros result. exists (map detectionJson (detections result)).
  split; [|split; [|split]].
  - unfold formatAsJson. rewrite JSONFacts.parse_stringify. reflexivity.
  - reflexivity.
  - apply Severity_text_inj.
  - intros env st dir st' Hs. rewrite length_map. symmetry.
    apply (scanDirectory_total env st dir result st' Hs).
Qed.

(** The report of the sample tree read back: four detections. *)
Example sample_report_parses :
  match option_map (fun r => JSON.parse (formatAsJson r))
          (resultOf (scanDirectory sampleNode initialState (js "/repo")))
  with
  | Some (Some (JSON.Obj members)) =>
      (JSON.get members (js "scannedFiles"),
       JSON.get members (js "totalDetections"),
       JSON.get members (js "summary"))
  | _ => (None, None, None)
  end
  = (Some (JSON.Num 2), Some (JSON.Num 4),
     Some (JSON.Obj [(js "high", JSON.Num 2); (js "medium", JSON.Num 1);
                     (js "low", JSON.Num 1)])).
Proof. vm_compute. reflexivity. Qed.

(** Characters that need an escape survive the round trip. *)
Example escapes_round_trip :
  JSON.parse (JSON.stringify (JSON.Str [34; 92; 10; 1; 55357; 56832; 55357; 97]%N) 2)
  = Some (JSON.Str [34; 92; 10; 1; 55357; 56832; 55357; 97]%N).
Proof. vm_compute. reflexivity. Qed.

(** ** More on the matching loop *)

Module MatchFacts.
Import Regex RegexFacts.

Lemma nth_error_skipn_head (s : jsstring) i c t :
  skipn i s = c :: t -> nth_error s i = Some c /\ skipn (S i) s = t
                        /\ S i <= length s.
Proof.
  intros H.
  assert (Hl : length (skipn i s) = S (length t)) by (rewrite H; reflexivity).
  rewrite length_skipn in Hl.
  split; [|split; [|lia]].
  - rewrite <- (firstn_skipn i s) at 1. rewrite nth_error_app2;
      rewrite length_firstn, Nat.min_l by lia; [|lia].
    rewrite Nat.sub_diag, H. reflexivity.
  - change (S i) with (1 + i). rewrite <- skipn_skipn, H. reflexivity.
Qed.

Lemma after_cursor_at : forall w s i t,
  skipn i s = w ++ t ->
  after (cursor_at s i) w = cursor_at s (i + length w).
Proof.
  induction w as [|c w IH]; intros s i t H.
  - simpl. rewrite Nat.add_0_r. reflexivity.
  - destruct (nth_error_skipn_head s i c (w ++ t) H) as (Hn & Hs & Hi).
    change (after (cursor_at s i) (c :: w))
      with (after (Cursor (S i) (Some c) (tl (skipn i s))) w).
    assert (Hc : Cursor (S i) (Some c) (tl (skipn i s)) = cursor_at s (S i)).
    { unfold cursor_at. rewrite Hn, Hs, H. reflexivity. }
    rewrite Hc, (IH s (S i) t Hs). f_equal. simpl. lia.
Qed.

(** [search] returns the first position at which the pattern matches. *)
Lemma search_sound ic r : forall input p pv i e,
  search ic r input p pv = Some (i, e) ->
  exists a b, input = a ++ b /\ i = p + length a
    /\ match_at ic r (after (Cursor p pv input) a) = Some e
    /\ forall a' b', input = a' ++ b' -> length a' < length a ->
         match_at ic r (after (Cursor p pv input) a') = None.
Proof.
  induction input as [|c tl IH]; intros p pv i e H; simpl in H.
  - destruct (match_at ic r (Cursor p pv [])) eqn:E; [|discriminate].
    inversion H; subst. exists [], []. simpl.
    repeat split; auto. intros; lia.
  - destruct (match_at ic r (Cursor p pv (c :: tl))) eqn:E.
    + inversion H; subst. exists [], (c :: tl). simpl.
      repeat split; auto. intros; lia.
    + apply IH in H. destruct H as (a & b & Hab & Hi & Hm & Hleast).
      exists (c :: a), b. simpl. subst tl.
      repeat split; auto; [lia|].
      intros a' b' Hab' Hlen. destruct a' as [|c' a']; simpl; [exact E|].
      inversion Hab'; subst. apply (Hleast a' b'); [assumption | simpl in Hlen; lia].
Qed.

Lemma match_at_matchesAt re s i e :
  i <= length s ->
  match_at (ignoreCase re) (source re) (cursor_at s i) = Some e ->
  matchesAt re s i e.
Proof.
  intros Hi H. split; [exact Hi|]. unfold match_at in H.
  apply run_sound in H. destruct H as (y & Hd & Hy). inversion Hy; subst.
  exists y. auto.
Qed.

Lemma matchesAt_match_at re s i e :
  matchesAt re s i e ->
  match_at (ignoreCase re) (source re) (cursor_at s i) <> None.
Proof. intros (_ & y & Hd & _). apply match_at_iff. eauto. Qed.

Lemma split_at (s : jsstring) i j :
  i <= j -> j <= length s ->
  exists a b, skipn i s = a ++ b /\ length a = j - i /\ b = skipn j s.
Proof.
  intros Hij Hj. exists (firstn (j - i) (skipn i s)), (skipn j s).
  split; [|split; [|reflexivity]].
  - rewrite <- (firstn_skipn (j - i) (skipn i s)) at 1. f_equal.
    rewrite skipn_skipn. f_equal. lia.
  - rewrite length_firstn, length_skipn. lia.
Qed.

(** What a successful [exec] of a global regular expression returned: an
    occurrence of the pattern, the first one from [lastIndex] on. *)
Lemma exec_leftmost re s lastIndex m li :
  global re = true ->
  exec re s lastIndex = (Some m, li) ->
  matchesAt re s (index m) (endIndex m)
  /\ lastIndex <= index m
  /\ forall j e, lastIndex <= j -> j < index m -> ~ matchesAt re s j e.
Proof.
  intros Hg. unfold exec. rewrite Hg.
  destruct (Nat.ltb (length s) lastIndex) eqn:El; [discriminate|].
  apply Nat.ltb_ge in El. cbv zeta. unfold cursor_at at 1 2 3.
  cbn [rest pos prev].
  destruct (search _ _ _ _ _) as [[i e]|] eqn:Es; [|discriminate].
  intros H; inversion H; subst; clear H. cbn [index endIndex].
  apply search_sound in Es. destruct Es as (a & b & Hab & Hi & Hm & Hleast).
  fold (cursor_at s lastIndex) in Hm, Hleast.
  rewrite (after_cursor_at a s lastIndex b Hab) in Hm.
  assert (Hlen : lastIndex + length a <= length s).
  { assert (Hl : length (skipn lastIndex s) = length (a ++ b)) by (rewrite Hab; reflexivity).
    rewrite length_skipn, length_app in Hl. lia. }
  subst i. split; [apply match_at_matchesAt; assumption|]. split; [lia|].
  intros j e' Hj1 Hj2 Hocc.
  pose proof (matchesAt_match_at re s j e' Hocc) as Hne.
  destruct Hocc as (Hjl & _).
  destruct (split_at s lastIndex j Hj1 Hjl) as (a' & b' & Hab' & Hla' & _).
  specialize (Hleast a' b' Hab' ltac:(lia)).
  rewrite (after_cursor_at a' s lastIndex b' Hab') in Hleast.
  replace (lastIndex + length a') with j in Hleast by lia.
  congruence.
Qed.

(** [exec] of a global regular expression returns [null] only when the
    pattern occurs nowhere from [lastIndex] on. *)
Lemma exec_none_no_match re s lastIndex li :
  global re = true ->
  exec re s lastIndex = (None, li) ->
  forall j e, lastIndex <= j -> ~ matchesAt re s j e.
Proof.
  intros Hg. unfold exec. rewrite Hg.
  destruct (Nat.ltb (length s) lastIndex) eqn:El.
  - apply Nat.ltb_lt in El. intros _ j e Hj (Hjl & _). lia.
  - apply Nat.ltb_ge in El. cbv zeta. unfold cursor_at at 1 2 3.
    cbn [rest pos prev].
    destruct (search _ _ _ _ _) as [[i e]|] eqn:Es; [discriminate|].
    intros _ j e Hj Hocc.
    pose proof (matchesAt_match_at re s j e Hocc) as Hne.
    destruct Hocc as (Hjl & _).
    destruct (split_at s lastIndex j Hj Hjl) as (a' & b' & Hab' & Hla' & _).
    assert (Hs : search (ignoreCase re) (source re) (skipn lastIndex s)
                   lastIndex
                   (match lastIndex with 0 => None | S k => nth_error s k end)
                 <> None).
    { apply search_iff. exists a', b'. split; [exact Hab'|].
      fold (cursor_at s lastIndex).
      rewrite (after_cursor_at a' s lastIndex b' Hab').
      replace (lastIndex + length a') with j by lia. exact Hne. }
    congruence.
Qed.

(** The matches a loop goes through come in order and do not overlap; with
    a pattern that takes a code unit, none is empty. *)
Lemma Enumerates_ordered re s :
  global re = true ->
  forall lastIndex ms, Enumerates re s lastIndex ms ->
  Forall (fun m => lastIndex <= index m
                   /\ index m + min_len (source re) <= endIndex m
                   /\ endIndex m <= length s) ms
  /\ ForallOrdPairs (fun m m' => endIndex m <= index m') ms.
Proof.
  intros Hg. induction 1 as [lastIndex li E | lastIndex m li ms E H IH].
  - split; constructor.
  - destruct (exec_global_some re s lastIndex m li Hg E) as (-> & H1 & H2 & H3).
    destruct IH as [IH1 IH2]. split.
    + constructor; [auto|].
      eapply Forall_impl; [|exact IH1]. simpl. intros m' (A & B & C).
      repeat split; auto. pose proof (min_len (source re)). lia.
    + constructor; [|exact IH2].
      eapply Forall_impl; [|exact IH1]. simpl. intros m' (A & _). exact A.
Qed.

(** No occurrence is passed over: one that starts at [i], at or after
    [lastIndex], is met by the loop or starts inside a match met before. *)
Lemma Enumerates_complete re s :
  global re = true -> 1 <= min_len (source re) ->
  forall lastIndex ms, Enumerates re s lastIndex ms ->
  forall i e, lastIndex <= i -> matchesAt re s i e ->
  exists m, In m ms /\ index m <= i < endIndex m.
Proof.
  intros Hg Hmin. induction 1 as [lastIndex li E | lastIndex m li ms E H IH];
    intros i e Hi Hocc.
  - exfalso. exact (exec_none_no_match re s lastIndex li Hg E i e Hi Hocc).
  - destruct (exec_global_some re s lastIndex m li Hg E) as (-> & H1 & H2 & H3).
    destruct (exec_leftmost re s lastIndex m (endIndex m) Hg E) as (_ & _ & Hleast).
    assert (Hle : index m <= i).
    { destruct (Nat.le_gt_cases (index m) i) as [Hc | Hc]; [exact Hc|].
      exfalso. exact (Hleast i e Hi Hc Hocc). }
    destruct (Nat.lt_ge_cases i (endIndex m)) as [Hin | Hout].
    + exists m. split; [left; reflexivity | lia].
    + destruct (IH i e Hout Hocc) as (m' & Hm' & Hr).
      exists m'. split; [right; exact Hm' | exact Hr].
Qed.

End MatchFacts.

(** ** More on [scanFile] *)

Lemma catalogue_pattern p :
  In p FLAKY_PATTERNS ->
  Regex.global (regex p) = true
  /\ 1 <= Regex.min_len (Regex.source (regex p)).
Proof.
  intros Hin. pose proof catalogue_patterns as Hc.
  rewrite Forall_forall in Hc. exact (Hc p Hin).
Qed.

Lemma substring_parts (s : jsstring) i e :
  i <= e -> e <= length s ->
  s = firstn i s ++ substring s i e ++ skipn e s
  /\ length (substring s i e) = e - i
  /\ length (firstn i s) = i.
Proof.
  intros Hie He. unfold substring. rewrite Nat.min_l, Nat.max_r by lia.
  split; [|split].
  - rewrite <- (firstn_skipn i s) at 1. f_equal.
    rewrite <- (firstn_skipn (e - i) (skipn i s)) at 1. f_equal.
    rewrite skipn_skipn. f_equal. lia.
  - rewrite length_firstn, length_skipn. lia.
  - rewrite length_firstn. lia.
Qed.

(** The matches of a detection: every detection of a readable file is made
    from a result of [exec] on the text. *)
Lemma scanFile_In_exec env st filePath content d :
  readFileSync env filePath = Some content ->
  In d (fst (scanFile env st filePath)) ->
  exists p m li0 li1,
    In p FLAKY_PATTERNS
    /\ Regex.exec (regex p) content li0 = (Some m, li1)
    /\ skipped p content m = false
    /\ d = mkDetection filePath content (split_nl content) p m.
Proof.
  intros Hr Hin.
  destruct (scanFile_In env st filePath content d Hr Hin)
    as (p & ms & m & Hp & He & Hm & Hsk & Hd).
  destruct (Enumerates_In _ _ _ _ He m Hm) as (li0 & li1 & E).
  exists p, m, li0, li1. auto.
Qed.

(** X1: the matched text of a detection is a piece of the file, not empty,
    that starts on the reported line: the text is the code units before
    it, the matched text and the rest, and the line of the detection is one
    more than the newlines before it. *)
Theorem matchedText_in_content :
  forall env st filePath content d,
    readFileSync env filePath = Some content ->
    In d (fst (scanFile env st filePath)) ->
    exists before rest,
      content = before ++ matchedText d ++ rest
      /\ matchedText d <> []
      /\ line d = 1 + newlines before.
Proof.
  intros env st filePath content d Hr Hin.
  destruct (scanFile_In_exec env st filePath content d Hr Hin)
    as (p & m & li0 & li1 & Hp & E & _ & ->).
  destruct (catalogue_pattern p Hp) as [Hg Hmin].
  destruct (RegexFacts.exec_global_some (regex p) content li0 m li1 Hg E)
    as (_ & _ & H2 & H3).
  destruct (substring_parts content (Regex.index m) (Regex.endIndex m))
    as (Hparts & Hlen & Hpre); [lia | lia |].
  exists (firstn (Regex.index m) content), (skipn (Regex.endIndex m) content).
  cbn [matchedText line mkDetection]. split; [exact Hparts|]. split.
  - intros Hnil. rewrite Hnil in Hlen. simpl in Hlen. lia.
  - apply lineNumberAt_newlines.
Qed.

(** X2: the matches the loop of a pattern of the catalogue goes through are
    in the text, none is empty, they come in increasing order and no two
    overlap. *)
Theorem matches_ordered_disjoint :
  forall p content ms,
    In p FLAKY_PATTERNS ->
    Regex.Enumerates (regex p) content 0 ms ->
    Forall (fun m => Regex.index m < Regex.endIndex m
                     /\ Regex.endIndex m <= length content) ms
    /\ ForallOrdPairs
         (fun m m' => Regex.endIndex m <= Regex.index m') ms.
Proof.
  intros p content ms Hp He.
  destruct (catalogue_pattern p Hp) as [Hg Hmin].
  destruct (MatchFacts.Enumerates_ordered (regex p) content Hg 0 ms He)
    as [H1 H2].
  split; [|exact H2].
  eapply Forall_impl; [|exact H1]. simpl. intros m (_ & A & B). lia.
Qed.

Lemma detectionsOf_intro filePath content found p ms m :
  In (p, ms) found -> In m ms -> skipped p content m = false ->
  In (mkDetection filePath content (split_nl content) p m)
     (detectionsOf filePath content found).
Proof.
  intros Hpm Hm Hsk. unfold detectionsOf. apply in_flat_map.
  exists (p, ms). split; [exact Hpm|]. cbn [fst snd]. apply in_flat_map.
  exists m. split; [exact Hm|]. unfold emit. rewrite Hsk. left. reflexivity.
Qed.

Lemma Forall2_In_combine {A B : Type} (Q : A -> B -> Prop) l l' x :
  Forall2 Q l l' -> In x l -> exists y, In (x, y) (combine l l') /\ Q x y.
Proof.
  induction 1 as [|a b l l' Hab _ IH]; intros Hin; [contradiction|].
  destruct Hin as [<- | Hin].
  - exists b. split; [left; reflexivity | exact Hab].
  - destruct (IH Hin) as (y & Hy & Hq). exists y. split; [right; exact Hy | exact Hq].
Qed.

(** X3: nothing is passed over. Where a pattern of the catalogue occurs in
    a readable file, at offset [i], a match of that pattern starts at or
    before [i] and ends after it, and this match is reported unless the
    mitigation heuristic skips it. *)
Theorem occurrence_reported :
  forall env st filePath content p i e,
    readFileSync env filePath = Some content ->
    In p FLAKY_PATTERNS ->
    matchesAt (regex p) content i e ->
    exists m,
      matchesAt (regex p) content (Regex.index m) (Regex.endIndex m)
      /\ Regex.index m <= i < Regex.endIndex m
      /\ (skipped p content m = true
          \/ In (mkDetection filePath content (split_nl content) p m)
                (fst (scanFile env st filePath))).
Proof.
  intros env st filePath content p i e Hr Hp Hocc.
  destruct (catalogue_pattern p Hp) as [Hg Hmin].
  destruct (scanFile_spec env st filePath content Hr) as (mss & st' & Hm & Hs).
  destruct (Forall2_In_combine _ _ _ p Hm Hp) as (ms & Hpm & He).
  destruct (MatchFacts.Enumerates_complete (regex p) content Hg Hmin 0 ms He
              i e (Nat.le_0_l _) Hocc) as (m & Hin & Hrange).
  exists m. split; [|split; [exact Hrange|]].
  - destruct (Enumerates_In _ _ _ _ He m Hin) as (li0 & li1 & E).
    apply (MatchFacts.exec_leftmost (regex p) content li0 m li1 Hg E).
  - destruct (skipped p content m) eqn:Hsk; [left; reflexivity|]. right.
    rewrite Hs. cbn [fst]. apply detectionsOf_intro with (ms := ms); assumption.
Qed.

(** The [lastIndex] a finished loop leaves is 0. *)
Lemma execLoop_final filePath content lines p :
  Regex.global (regex p) = true ->
  forall fuel lastIndex acc acc' li,
    execLoop fuel filePath content lines p lastIndex acc = Some (acc', li) ->
    li = 0.
Proof.
  intros Hg. induction fuel as [|fuel IH]; intros lastIndex acc acc' li H;
    simpl in H; [discriminate|].
  destruct (Regex.exec (regex p) content lastIndex) as [[m|] li0] eqn:E.
  - destruct (skipped p content m); eapply IH; exact H.
  - inversion H; subst.
    exact (RegexFacts.exec_global_none (regex p) content lastIndex li Hg E).
Qed.

Lemma scanPatterns_state filePath content lines fuel :
  forall ps i st acc acc' st',
    Forall (fun p => Regex.global (regex p) = true) ps ->
    scanPatterns fuel filePath content lines ps i st acc = Some (acc', st') ->
    forall j, st' j = if (i <=? j) && (j <? i + length ps) then 0 else st j.
Proof.
  induction ps as [|p ps IH]; intros i st acc acc' st' Hg H j; simpl in H.
  - inversion H; subst.
    destruct (i <=? j) eqn:E1; [|reflexivity].
    destruct (j <? i + length (@nil FlakyPattern)) eqn:E2; [|reflexivity].
    apply Nat.leb_le in E1. apply Nat.ltb_lt in E2. simpl in E2. lia.
  - inversion Hg as [|p' ps' Hp Hps]; subst.
    destruct (execLoop fuel filePath content lines p (setLastIndex st i 0 i) acc)
      as [[acc1 li]|] eqn:E; [|discriminate].
    pose proof (execLoop_final filePath content lines p Hp _ _ _ _ _ E) as Hli.
    subst li.
    rewrite (IH (S i) _ acc1 acc' st' Hps H j).
    unfold setLastIndex. cbn [length].
    destruct (Nat.eqb j i) eqn:Eji.
    + apply Nat.eqb_eq in Eji. subst j.
      replace (S i <=? i) with false by (symmetry; apply Nat.leb_gt; lia).
      replace (i <=? i) with true by (symmetry; apply Nat.leb_le; lia).
      replace (i <? i + S (length ps)) with true
        by (symmetry; apply Nat.ltb_lt; lia).
      reflexivity.
    + apply Nat.eqb_neq in Eji.
      destruct (S i <=? j) eqn:E1; destruct (i <=? j) eqn:E2;
        destruct (j <? S i + length ps) eqn:E3;
        destruct (j <? i + S (length ps)) eqn:E4; try reflexivity;
        repeat match goal with
        | H : (_ <=? _) = true |- _ => apply Nat.leb_le in H
        | H : (_ <=? _) = false |- _ => apply Nat.leb_gt in H
        | H : (_ <? _) = true |- _ => apply Nat.ltb_lt in H
        | H : (_ <? _) = false |- _ => apply Nat.ltb_ge in H
        end; lia.
Qed.

(** X4: what [scanFile] leaves in the shared regular expressions. After a
    readable file every regular expression of the catalogue has [lastIndex]
    0, whatever it had before; a file that cannot be read leaves them
    untouched. *)
Theorem scanFile_rewinds :
  forall env st filePath,
    (readFileSync env filePath = None ->
     snd (scanFile env st filePath) = st)
    /\ (readFileSync env filePath <> None ->
        forall j, snd (scanFile env st filePath) j
                  = if j <? length FLAKY_PATTERNS then 0 else st j).
Proof.
  intros env st filePath. split.
  - intros Hr. rewrite (scanFile_unreadable env st filePath Hr). reflexivity.
  - intros Hr j. destruct (readFileSync env filePath) as [content|] eqn:E;
      [|congruence].
    destruct (scanFileWithin_spec env st filePath content (turns env filePath) E)
      as (mss & st' & _ & Hs); [unfold turns; rewrite E; lia|].
    unfold scanFile. rewrite Hs. cbn [snd].
    unfold scanFileWithin in Hs. rewrite E in Hs.
    rewrite (scanPatterns_state _ _ _ _ FLAKY_PATTERNS 0 st [] _ st'
               ltac:(eapply Forall_impl; [|exact catalogue_patterns];
                     intros p [Hg _]; exact Hg) Hs j).
    reflexivity.
Qed.

(** ** More on [scanDirectory] *)

Lemma Map_get_set m key v k :
  Map_get (Map_set m key v) k
  = if jsstring_eqb key k then Some v else Map_get m k.
Proof.
  induction m as [|[k0 w] m IH]; simpl.
  - reflexivity.
  - destruct (jsstring_eqb k0 key) eqn:E0; simpl.
    + apply jsstring_eqb_eq in E0. subst k0.
      destruct (jsstring_eqb key k); reflexivity.
    + destruct (jsstring_eqb k0 k) eqn:E1.
      * apply jsstring_eqb_eq in E1. subst k0.
        destruct (jsstring_eqb key k) eqn:E2; [|reflexivity].
        apply jsstring_eqb_eq in E2. subst key.
        assert (Hkk : jsstring_eqb k k = true) by (apply jsstring_eqb_eq; reflexivity).
        congruence.
      * exact IH.
Qed.

Lemma scanFiles_general env : forall files st acc m,
  exists st',
    scanFiles env files st acc m
    = (acc ++ flat_map (detectionsIn env) files, byFileAfter env files m, st').
Proof.
  induction files as [|f files IH]; intros st acc m; simpl.
  - exists st. rewrite app_nil_r. reflexivity.
  - pose proof (scanFile_state_free env st f) as Hf.
    destruct (scanFile env st f) as [ds st1]. simpl in Hf. subst ds.
    unfold byFileAfter. simpl fold_left. fold (nonEmpty (detectionsIn env f)).
    destruct (nonEmpty (detectionsIn env f)) eqn:En.
    + destruct (IH st1 (acc ++ detectionsIn env f)
                  (Map_set m f (detectionsIn env f))) as [st' ->].
      exists st'. rewrite <- app_assoc. reflexivity.
    + destruct (IH st1 acc m) as [st' ->].
      exists st'. unfold nonEmpty in En. apply Nat.ltb_ge in En.
      destruct (detectionsIn env f); [reflexivity | simpl in En; lia].
Qed.

Lemma byFileAfter_get env : forall files m k,
  Map_get (byFileAfter env files m) k
  = if existsb (fun f => jsstring_eqb f k && nonEmpty (detectionsIn env f)) files
    then Some (detectionsIn env k) else Map_get m k.
Proof.
  unfold byFileAfter.
  induction files as [|f files IH]; intros m k; simpl; [reflexivity|].
  rewrite IH.
  destruct (existsb (fun f0 => jsstring_eqb f0 k && nonEmpty (detectionsIn env f0))
              files); [rewrite orb_true_r; reflexivity|].
  rewrite orb_false_r.
  destruct (nonEmpty (detectionsIn env f)) eqn:En.
  - rewrite Map_get_set. destruct (jsstring_eqb f k) eqn:E; simpl; [|reflexivity].
    apply jsstring_eqb_eq in E. subst. reflexivity.
  - rewrite andb_false_r. reflexivity.
Qed.

Lemma scanDirectory_general env st dir files :
  findTestFiles env dir [] = Normal files ->
  exists st',
    scanDirectory env st dir
    = Normal
        (let all := flat_map (detectionsIn env) files in
         {| scannedFiles := length files;
            totalDetections := length all;
            detections := all;
            byFile := byFileAfter env files [];
            bySeverity :=
              {| high := filter (hasSeverity High) all;
                 medium := filter (hasSeverity Medium) all;
                 low := filter (hasSeverity Low) all |} |}, st').
Proof.
  intros Hwalk. unfold scanDirectory. rewrite Hwalk.
  destruct (scanFiles_general env files st [] []) as [st' ->].
  exists st'. reflexivity.
Qed.

Lemma length_flat_map_sum {A B : Type} (f : A -> list B) l :
  length (flat_map f l) = list_sum (map (fun x => length (f x)) l).
Proof.
  induction l as [|x l IH]; simpl; [reflexivity|].
  rewrite length_app, IH. reflexivity.
Qed.

(** X5: where the walk returns, [scanDirectory] returns, and it puts end to
    end, in the order of discovery, what [scanFile] finds in each file,
    whatever state the regular expressions were in; every discovered file
    counts in [scannedFiles], with or without detections, readable or not;
    [totalDetections] is the sum over the files. *)
Theorem scanDirectory_concatenates :
  forall env st dir files,
    findTestFiles env dir [] = Normal files ->
    exists r st',
      scanDirectory env st dir = Normal (r, st')
      /\ detections r
         = flat_map (fun f => fst (scanFile env initialState f)) files
      /\ scannedFiles r = length files
      /\ totalDetections r
         = list_sum
             (map (fun f => length (fst (scanFile env initialState f)))
                files).
Proof.
  intros env st dir files Hwalk.
  destruct (scanDirectory_general env st dir files Hwalk) as [st' Hs].
  cbv zeta in Hs. eexists. exists st'. split; [exact Hs|].
  cbn [detections scannedFiles totalDetections].
  split; [reflexivity|]. split; [reflexivity|].
  apply (length_flat_map_sum (detectionsIn env)).
Qed.

(** X6: looking a path up in [byFile], in the result of a scan whose walk
    returned. A discovered file with detections is bound to its detections;
    a path that was not discovered, or a file without detections (an
    unreadable one among them), is not a key. *)
Theorem byFile_lookup :
  forall env st dir files,
    findTestFiles env dir [] = Normal files ->
    exists r st',
      scanDirectory env st dir = Normal (r, st')
      /\ forall f,
           (In f files ->
            fst (scanFile env initialState f) <> [] ->
            Map_get (byFile r) f = Some (fst (scanFile env initialState f)))
           /\ (~ In f files \/ fst (scanFile env initialState f) = [] ->
               Map_get (byFile r) f = None).
Proof.
  intros env st dir files Hwalk.
  destruct (scanDirectory_general env st dir files Hwalk) as [st' Hs].
  cbv zeta in Hs. eexists. exists st'. split; [exact Hs|]. intros f.
  cbn [byFile]. rewrite byFileAfter_get. cbn [Map_get].
  fold (detectionsIn env f).
  split.
  - intros Hin Hne.
    replace (existsb _ files) with true; [reflexivity|].
    symmetry. apply existsb_exists. exists f. split; [exact Hin|].
    apply andb_true_iff. split; [apply jsstring_eqb_eq; reflexivity|].
    apply nonEmpty_true. exact Hne.
  - intros H.
    replace (existsb _ files) with false; [reflexivity|].
    symmetry. apply not_true_is_false. intros Hex.
    apply existsb_exists in Hex. destruct Hex as (g & Hg & Hb).
    apply andb_true_iff in Hb. destruct Hb as [E Hne].
    apply jsstring_eqb_eq in E. subst g. apply nonEmpty_true in Hne.
    destruct H as [H | H]; [contradiction | congruence].
Qed.

(** *** The order of the detections of a file *)

Lemma FOP_app {A : Type} (R : A -> A -> Prop) l1 l2 :
  ForallOrdPairs R l1 -> ForallOrdPairs R l2 ->
  (forall x y, In x l1 -> In y l2 -> R x y) ->
  ForallOrdPairs R (l1 ++ l2).
Proof.
  induction 1 as [|x l1 Hx Hl1 IH]; intros H2 Hc; simpl; [exact H2|].
  constructor.
  - apply Forall_app. split; [exact Hx|].
    apply Forall_forall. intros y Hy. apply Hc; [left; reflexivity | exact Hy].
  - apply IH; [exact H2|]. intros a b Ha Hb. apply Hc; [right; exact Ha | exact Hb].
Qed.

Lemma FOP_same {A : Type} (R : A -> A -> Prop) l :
  (forall x y, In x l -> In y l -> R x y) -> ForallOrdPairs R l.
Proof.
  induction l as [|x l IH]; intros H; constructor.
  - apply Forall_forall. intros y Hy. apply H; [left; reflexivity | right; exact Hy].
  - apply IH. intros a b Ha Hb. apply H; right; assumption.
Qed.

Lemma emit_severity filePath content lines p m d :
  In d (emit filePath content lines p m) -> d_severity d = severity p.
Proof.
  unfold emit. destruct (skipped p content m); [contradiction|].
  intros [<- | []]. reflexivity.
Qed.

Lemma detectionsOf_ranked filePath content : forall found,
  ForallOrdPairs
    (fun pm pm' => severityRank (severity (fst pm))
                   <= severityRank (severity (fst pm'))) found ->
  ForallOrdPairs rankLe (detectionsOf filePath content found).
Proof.
  unfold detectionsOf. induction 1 as [|pm found Hpm Hfound IH]; simpl.
  - constructor.
  - apply FOP_app; [|exact IH|].
    + apply FOP_same. intros x y Hx Hy. unfold rankLe.
      apply in_flat_map in Hx. destruct Hx as (m & _ & Hx).
      apply in_flat_map in Hy. destruct Hy as (m' & _ & Hy).
      rewrite (emit_severity _ _ _ _ _ _ Hx), (emit_severity _ _ _ _ _ _ Hy).
      apply Nat.le_refl.
    + intros x y Hx Hy. unfold rankLe.
      apply in_flat_map in Hx. destruct Hx as (m & _ & Hx).
      apply in_flat_map in Hy. destruct Hy as (pm' & Hpm' & Hy).
      apply in_flat_map in Hy. destruct Hy as (m' & _ & Hy).
      rewrite (emit_severity _ _ _ _ _ _ Hx), (emit_severity _ _ _ _ _ _ Hy).
      rewrite Forall_forall in Hpm. exact (Hpm pm' Hpm').
Qed.

Lemma filter_none s (l : list Detection) :
  Forall (fun d => d_severity d <> s) l -> filter (hasSeverity s) l = [].
Proof.
  induction 1 as [|d l Hd _ IH]; simpl; [reflexivity|].
  unfold hasSeverity at 1. destruct (Severity_eqb (d_severity d) s) eqn:E.
  - apply Severity_eqb_eq in E. contradiction.
  - exact IH.
Qed.

Lemma ranked_partition : forall l,
  ForallOrdPairs rankLe l ->
  l = filter (hasSeverity High) l ++ filter (hasSeverity Medium) l
      ++ filter (hasSeverity Low) l.
Proof.
  induction 1 as [|d l Hd _ IH]; [reflexivity|].
  unfold rankLe in Hd. cbn [filter].
  assert (Hsev : forall s, hasSeverity s d = Severity_eqb (d_severity d) s)
    by reflexivity.
  rewrite !Hsev.
  destruct (d_severity d) eqn:Ed; cbn [Severity_eqb].
  - cbn [app]. f_equal. exact IH.
  - assert (Hh : filter (hasSeverity High) l = []).
    { apply filter_none. eapply Forall_impl; [|exact Hd]. simpl.
      intros d' H E. rewrite E in H. simpl in H. lia. }
    rewrite Hh in *. cbn [app] in *. f_equal. exact IH.
  - assert (Hh : filter (hasSeverity High) l = []).
    { apply filter_none. eapply Forall_impl; [|exact Hd]. simpl.
      intros d' H E. rewrite E in H. simpl in H. lia. }
    assert (Hm : filter (hasSeverity Medium) l = []).
    { apply filter_none. eapply Forall_impl; [|exact Hd]. simpl.
      intros d' H E. rewrite E in H. simpl in H. lia. }
    rewrite Hh, Hm in *. cbn [app] in *. f_equal. exact IH.
Qed.

Lemma catalogue_ranked :
  ForallOrdPairs
    (fun p p' => severityRank (severity p) <= severityRank (severity p'))
    FLAKY_PATTERNS.
Proof.
  unfold FLAKY_PATTERNS, Catalogue.FLAKY_PATTERNS.
  repeat (constructor; [repeat (constructor; [simpl; lia|]); constructor|]).
  constructor.
Qed.

Lemma FOP_map_fst {A B : Type} (R : A -> A -> Prop) (l : list (A * B)) :
  ForallOrdPairs R (map fst l) ->
  ForallOrdPairs (fun x y => R (fst x) (fst y)) l.
Proof.
  induction l as [|x l IH]; intros H; [constructor|].
  inversion H as [|a l' Ha Hl]; subst. constructor; [|apply IH; exact Hl].
  apply Forall_forall. intros y Hy. rewrite Forall_forall in Ha.
  apply Ha. apply in_map. exact Hy.
Qed.

(** X7: in the detections of one file those of severity high come first,
    then the medium ones, then the low ones, as the catalogue is laid out:
    the list is its three filters put end to end. *)
Theorem scanFile_by_severity :
  forall env st filePath,
    fst (scanFile env st filePath)
    = filter (hasSeverity High) (fst (scanFile env st filePath))
      ++ filter (hasSeverity Medium) (fst (scanFile env st filePath))
      ++ filter (hasSeverity Low) (fst (scanFile env st filePath)).
Proof.
  intros env st filePath. apply ranked_partition.
  destruct (readFileSync env filePath) as [content|] eqn:Hr.
  - destruct (scanFile_spec env st filePath content Hr) as (mss & st' & Hm & ->).
    cbn [fst]. apply detectionsOf_ranked.
    apply (FOP_map_fst (fun p p' => severityRank (severity p)
                                    <= severityRank (severity p'))).
    destruct (map_fst_combine _ _ _ Hm) as [-> _]. exact catalogue_ranked.
  - rewrite (scanFile_unreadable env st filePath Hr). constructor.
Qed.

(** ** [extractContext] *)

Lemma mapi_from_seq {A B : Type} (f : A -> nat -> B) (d : A) : forall l j,
  mapi_from f j l = map (fun k => f (nth (k - j) l d) k) (seq j (length l)).
Proof.
  induction l as [|x l IH]; intros j; simpl; [reflexivity|].
  rewrite Nat.sub_diag. f_equal. rewrite IH.
  apply map_ext_in. intros k Hk. apply in_seq in Hk.
  replace (k - j) with (S (k - S j)) by lia. reflexivity.
Qed.

Lemma slice_length {A : Type} (l : list A) a b :
  b <= length l -> length (slice l a b) = b - a.
Proof.
  intros Hb. unfold slice. rewrite length_firstn, length_skipn. lia.
Qed.

Lemma slice_nth {A : Type} (l : list A) a b k d :
  k < b - a -> nth k (slice l a b) d = nth (a + k) l d.
Proof.
  intros Hk. unfold slice. rewrite nth_firstn.
  replace (k <? b - a) with true by (symmetry; apply Nat.ltb_lt; exact Hk).
  apply nth_skipn.
Qed.

Lemma seq_from : forall n j, seq j n = map (fun k => j + k) (seq 0 n).
Proof.
  induction n as [|n IH]; intros j; simpl; [reflexivity|].
  rewrite Nat.add_0_r. f_equal.
  rewrite (IH (S j)), <- seq_shift, map_map.
  apply map_ext. intros k. lia.
Qed.

Lemma extractContext_lines lines lineIndex contextSize :
  extractContext lines lineIndex contextSize
  = map (contextLine lines lineIndex)
      (seq (lineIndex - contextSize)
         (Nat.min (length lines) (lineIndex + contextSize + 1)
          - (lineIndex - contextSize))).
Proof.
  unfold extractContext, mapi.
  replace (Z.to_nat (Z.max 0 (Z.of_nat lineIndex - Z.of_nat contextSize)))
    with (lineIndex - contextSize) by lia.
  set (start := lineIndex - contextSize).
  set (stop := Nat.min (length lines) (lineIndex + contextSize + 1)).
  rewrite (mapi_from_seq _ []). rewrite slice_length by (unfold stop; lia).
  rewrite (seq_from (stop - start) start), map_map.
  apply map_ext_in. intros k Hk. apply in_seq in Hk.
  unfold contextLine. rewrite Nat.sub_0_r.
  rewrite (slice_nth lines start stop k []) by lia.
  replace (start + k + 1 =? lineIndex + 1) with (start + k =? lineIndex).
  2:{ destruct (start + k =? lineIndex) eqn:E; symmetry.
      - apply Nat.eqb_eq in E. apply Nat.eqb_eq. lia.
      - apply Nat.eqb_neq in E. apply Nat.eqb_neq. lia. }
  reflexivity.
Qed.

(** X8: [extractContext] renders the lines from [lineIndex - contextSize],
    or the first line, up to [lineIndex + contextSize], or the last line:
    each with its number from 1, padded to four columns, and a [>] on the
    line of index [lineIndex], a space on the others. The block has at most
    [2 * contextSize + 1] lines and is empty when the text ends before
    [lineIndex - contextSize]. *)
Theorem extractContext_block :
  forall lines lineIndex contextSize,
    extractContext lines lineIndex contextSize
    = map (contextLine lines lineIndex)
        (seq (lineIndex - contextSize)
           (Nat.min (length lines) (lineIndex + contextSize + 1)
            - (lineIndex - contextSize)))
    /\ length (extractContext lines lineIndex contextSize)
       <= 2 * contextSize + 1
    /\ (length lines <= lineIndex - contextSize ->
        extractContext lines lineIndex contextSize = []).
Proof.
  intros lines lineIndex contextSize.
  rewrite extractContext_lines. split; [reflexivity|]. split.
  - rewrite length_map, length_seq. lia.
  - intros H.
    replace (Nat.min (length lines) (lineIndex + contextSize + 1)
             - (lineIndex - contextSize)) with 0 by lia.
    reflexivity.
Qed.

Lemma lineNumberAt_range content i :
  i <= length content ->
  1 <= lineNumberAt content i <= length (split_nl content).
Proof. intros Hi. apply (onLine_lineNumberAt content i Hi). Qed.

(** X9: the context of a detection. It has from one to seven lines, among
    them the line of the match, numbered with the line of the detection and
    marked with [>]; no other line of the block starts with [>]. *)
Theorem context_marks_line :
  forall env st filePath content d,
    readFileSync env filePath = Some content ->
    In d (fst (scanFile env st filePath)) ->
    1 <= length (context d) <= 7
    /\ line d <= length (split_nl content)
    /\ In (js "> " ++ padStart (toString (line d)) 4 ++ js ": "
           ++ nth (line d - 1) (split_nl content) [])
          (context d)
    /\ Forall (fun l => hd_error l = Some 62%N ->
                 l = js "> " ++ padStart (toString (line d)) 4 ++ js ": "
                     ++ nth (line d - 1) (split_nl content) [])
         (context d).
Proof.
  intros env st filePath content d Hr Hin.
  destruct (scanFile_In_exec env st filePath content d Hr Hin)
    as (p & m & li0 & li1 & Hp & E & _ & ->).
  destruct (catalogue_pattern p Hp) as [Hg Hmin].
  destruct (RegexFacts.exec_global_some (regex p) content li0 m li1 Hg E)
    as (_ & _ & H2 & H3).
  cbn [context line mkDetection].
  pose proof (lineNumberAt_range content (Regex.index m) ltac:(lia)) as [Hn1 Hn2].
  set (N := lineNumberAt content (Regex.index m)) in *.
  rewrite extractContext_lines.
  set (lines := split_nl content) in *.
  assert (Hmark : contextLine lines (N - 1) (N - 1)
                  = js "> " ++ padStart (toString N) 4 ++ js ": "
                    ++ nth (N - 1) lines []).
  { unfold contextLine. rewrite Nat.eqb_refl.
    replace (N - 1 + 1) with N by lia. reflexivity. }
  split; [rewrite length_map, length_seq; lia|]. split; [exact Hn2|]. split.
  - rewrite <- Hmark. apply in_map. apply in_seq. lia.
  - apply Forall_forall. intros l Hl Hhd. apply in_map_iff in Hl.
    destruct Hl as (n & <- & Hn). rewrite <- Hmark.
    unfold contextLine in Hhd |- *.
    destruct (Nat.eqb n (N - 1)) eqn:En.
    + apply Nat.eqb_eq in En. subst n. rewrite Nat.eqb_refl. reflexivity.
    + simpl in Hhd. discriminate.
Qed.

(** ** More on [findTestFiles] *)

Lemma endsWith_iff : forall s p,
  endsWith s p = true <-> exists a, s = a ++ p.
Proof.
  assert (Hsw : forall p s, startsWith s p = true <-> exists b, s = p ++ b).
  { induction p as [|c p IH]; intros s; simpl.
    - split; [intros _; exists s; reflexivity | intros _; destruct s; reflexivity].
    - destruct s as [|d s]; simpl;
        [split; [discriminate | intros [b H]; discriminate]|].
      rewrite andb_true_iff, N.eqb_eq, IH. split.
      + intros [-> [b ->]]. exists b. reflexivity.
      + intros [b H]. inversion H; subst. split; [reflexivity | eauto]. }
  intros s p. unfold endsWith. rewrite Hsw. split.
  - intros [b H]. exists (rev b).
    rewrite <- (rev_involutive s), H, rev_app_distr, rev_involutive. reflexivity.
  - intros [a ->]. exists (rev a). apply rev_app_distr.
Qed.

(** X10: a name is a test-file name exactly when it ends with one of the
    six endings [.test.ts], [.spec.ts], [.test.tsx], [.spec.tsx],
    [.test.js], [.spec.js] (it may be the ending alone). *)
Theorem isTestFileName_suffix :
  forall n,
    isTestFileName n = true <->
    exists stem suffix, In suffix testSuffixes /\ n = stem ++ suffix.
Proof.
  intros n. unfold isTestFileName, testSuffixes.
  rewrite !orb_true_iff, !endsWith_iff. split.
  - intros [[[[[[a H] | [a H]] | [a H]] | [a H]] | [a H]] | [a H]];
      eexists a, _; (split; [|exact H]); simpl; tauto.
  - intros (stem & suffix & Hin & ->). simpl in Hin.
    destruct Hin as [<- | [<- | [<- | [<- | [<- | [<- | []]]]]]]; eauto 10.
Qed.



(** ** What the patterns of the catalogue match *)

Module ShapeFacts.
Import Regex RegexFacts.

Lemma Derives_Alt_elim ic r1 r2 x y :
  Derives ic (Alt r1 r2) x y -> Derives ic r1 x y \/ Derives ic r2 x y.
Proof. inversion 1; subst; auto. Qed.

Lemma Derives_Group_elim ic r x y :
  Derives ic (Group r) x y -> Derives ic r x y.
Proof. inversion 1; subst; auto. Qed.

Lemma Derives_Seq_elim ic r1 r2 x z :
  Derives ic (Seq r1 r2) x z ->
  exists y, Derives ic r1 x y /\ Derives ic r2 y z.
Proof. inversion 1; subst; eauto. Qed.

Lemma Derives_WordBoundary_elim ic x y :
  Derives ic WordBoundary x y -> y = x /\ at_word_boundary x = true.
Proof. inversion 1; subst; auto. Qed.

(** A quantified atom reads a run of code units of the atom, no longer
    than its upper bound and no shorter than its lower bound allows. *)
Lemma Derives_Quant_elim ic a : forall min max x y,
  Derives ic (Quant a min max) x y ->
  exists u, rest x = u ++ rest y /\ y = after x u
    /\ Forall (fun c => atom_matches ic a c = true) u
    /\ min_len (Quant a min max) <= length u
    /\ match max with Some mx => length u <= mx | None => True end.
Proof.
  intros min max x y H.
  remember (Quant a min max) as r eqn:Er. revert min max Er.
  induction H as [x | a' x c y Hadv Ha | a' max' x | a' min' x
               | a' min' max' x c x' y Hmax Hadv Ha Hd IH
               | r1 r2 x y z H1 IH1 H2 IH2 | r1 r2 x y H1 IH1
               | r1 r2 x y H1 IH1 | r x y H1 IH1 | x Hb];
    intros min max Er; try discriminate; inversion Er; subst; clear Er.
  - exists []. simpl. repeat split; auto; destruct max; lia.
  - exists []. simpl. repeat split; auto; lia.
  - destruct (IH _ _ eq_refl) as (u & Hr & Hy & Hf & Hlo & Hhi).
    apply advance_after in Hadv. destruct Hadv as [Hr' Hx'].
    exists (c :: u). split; [simpl; rewrite Hr', Hr; reflexivity|].
    split; [rewrite Hy, Hx'; reflexivity|].
    split; [constructor; auto|].
    simpl in *. destruct max as [mx|]; simpl in *; split; try lia; auto.
    destruct mx; [congruence | simpl in *; lia].
Qed.

Lemma after_prev : forall w x c,
  prev (after x (w ++ [c])) = Some c.
Proof.
  induction w as [|d w IH]; intros x c; simpl; [reflexivity | apply IH].
Qed.

(** An occurrence as a word: the code units between the two offsets. *)
Lemma matchesAt_word re s i e :
  matchesAt re s i e ->
  exists y,
    Derives (ignoreCase re) (source re) (cursor_at s i) y
    /\ skipn i s = substring s i e ++ rest y
    /\ y = after (cursor_at s i) (substring s i e)
    /\ i <= e.
Proof.
  intros (Hi & y & Hd & He). exists y. split; [exact Hd|].
  destruct (Derives_word _ _ _ _ Hd) as (w & Hw & Hy & _).
  rewrite cursor_at_rest in Hw.
  assert (Hpos : e = i + length w).
  { rewrite <- He, Hy, after_pos. reflexivity. }
  assert (Hsub : substring s i e = w).
  { unfold substring. rewrite Nat.min_l, Nat.max_r by lia.
    rewrite Hw. replace (e - i) with (length w + 0) by lia.
    rewrite firstn_app_2. simpl. apply app_nil_r. }
  rewrite Hsub. split; [exact Hw|]. split; [exact Hy | lia].
Qed.

Lemma digit_matches c : atom_matches false digit c = is_digit c.
Proof.
  unfold digit, atom_matches, in_class. simpl. rewrite !orb_false_r. reflexivity.
Qed.

Lemma ws_run u :
  Forall (fun c => atom_matches false ws c = true) u -> blank u.
Proof. apply Mitigation.blank_iff. Qed.

Lemma digit_run u :
  Forall (fun c => atom_matches false digit c = true) u ->
  Forall (fun c => is_digit c = true) u.
Proof.
  intros H. eapply Forall_impl; [|exact H]. intros c Hc.
  cbv beta in Hc. rewrite digit_matches in Hc. exact Hc.
Qed.

Lemma lits_word x y cs :
  Derives false (lits cs) x y -> rest x = cs ++ rest y /\ y = after x cs.
Proof.
  intros H. apply Derives_lits_elim in H. destruct H as (u & Hr & Hy & Ha).
  apply Mitigation.agree_exact in Ha. subst u. auto.
Qed.

Lemma one_of_two c a b :
  atom_matches false (Cls [CChar a; CChar b]) c = true -> c = a \/ c = b.
Proof.
  unfold atom_matches, in_class. simpl. rewrite !orb_false_r, orb_true_iff.
  rewrite !N.eqb_eq. tauto.
Qed.

(** After a word character, a word boundary means that no word character
    comes next. *)
Lemma boundary_after_word x c :
  prev x = Some c -> is_word c = true -> at_word_boundary x = true ->
  match rest x with
  | [] => True
  | d :: _ => is_word d = false
  end.
Proof.
  unfold at_word_boundary. intros -> Hc. simpl. rewrite Hc.
  destruct (rest x) as [|d t]; simpl; [auto|].
  destruct (is_word d); [discriminate | reflexivity].
Qed.

End ShapeFacts.

Lemma detection_of_named env st filePath content d :
  readFileSync env filePath = Some content ->
  In d (fst (scanFile env st filePath)) ->
  exists p m,
    In p FLAKY_PATTERNS /\ name p = pattern d
    /\ matchesAt (regex p) content (Regex.index m) (Regex.endIndex m)
    /\ Regex.endIndex m <= length content
    /\ matchedText d
       = substring content (Regex.index m) (Regex.endIndex m).
Proof.
  intros Hr Hin.
  destruct (scanFile_In_exec env st filePath content d Hr Hin)
    as (p & m & li0 & li1 & Hp & E & _ & ->).
  destruct (catalogue_pattern p Hp) as [Hg _].
  exists p, m. split; [exact Hp|]. split; [reflexivity|].
  split; [apply (MatchFacts.exec_leftmost (regex p) content li0 m li1 Hg E)|].
  split; [|reflexivity].
  apply (RegexFacts.exec_global_some (regex p) content li0 m li1 Hg E).
Qed.

(** The pattern of the catalogue that has a given name. *)
Ltac pick_pattern Hp Hn :=
  unfold FLAKY_PATTERNS, Catalogue.FLAKY_PATTERNS in Hp; cbn [In] in Hp;
  repeat (destruct Hp as [Hp | Hp];
          [subst; try (exfalso; vm_compute in Hn; discriminate Hn)|]);
  try contradiction.

Ltac seq_step H y Hy :=
  apply RegexFacts.Derives_seq_cons in H; destruct H as (y & Hy & H).

(** X12: what the rule [Short delay/sleep] reports: a call of [delay],
    [sleep] or [wait] whose only argument is a number of one or two
    digits, white space allowed around the parenthesis and the number. *)
Theorem shortDelay_shape :
  forall env st filePath content d,
    readFileSync env filePath = Some content ->
    In d (fst (scanFile env st filePath)) ->
    pattern d = js "Short delay/sleep" ->
    exists kw s1 s2 digits s3,
      In kw [js "delay"; js "sleep"; js "wait"]
      /\ blank s1 /\ blank s2 /\ blank s3
      /\ Forall (fun c => Regex.is_digit c = true) digits
      /\ 1 <= length digits <= 2
      /\ matchedText d
         = kw ++ s1 ++ js "(" ++ s2 ++ digits ++ s3 ++ js ")".
Proof.
  intros env st filePath content d Hr Hin Hname.
  destruct (detection_of_named env st filePath content d Hr Hin)
    as (p & m & Hp & Hn & Hocc & _ & ->).
  rewrite Hname in Hn. pick_pattern Hp Hn.
  apply ShapeFacts.matchesAt_word in Hocc.
  destruct Hocc as (y & Hd & Hskip & _ & _).
  cbn [regex Catalogue.g Regex.source Regex.ignoreCase] in Hd.
  unfold Catalogue.re_delay in Hd.
  set (x0 := Regex.cursor_at content (Regex.index m)) in *.
  assert (Hx0 : Regex.rest x0 = skipn (Regex.index m) content) by reflexivity.
  seq_step Hd x1 H1. seq_step Hd x2 H2. seq_step Hd x3 H3.
  seq_step Hd x4 H4. seq_step Hd x5 H5. seq_step Hd x6 H6.
  seq_step Hd x7 H7. apply RegexFacts.Derives_Eps_iff in Hd. subst x7.
  assert (Hkw : exists kw, In kw [js "delay"; js "sleep"; js "wait"]
                           /\ Regex.rest x0 = kw ++ Regex.rest x1).
  { apply ShapeFacts.Derives_Alt_elim in H1. destruct H1 as [H1 | H1].
    - apply ShapeFacts.lits_word in H1. exists (js "delay"). simpl. tauto.
    - apply ShapeFacts.Derives_Alt_elim in H1. destruct H1 as [H1 | H1];
        apply ShapeFacts.lits_word in H1;
        [exists (js "sleep") | exists (js "wait")]; simpl; tauto. }
  destruct Hkw as (kw & Hkw & R1).
  apply RegexFacts.Derives_star_elim in H2. destruct H2 as (s1 & R2 & _ & B1).
  apply ShapeFacts.lits_word in H3. destruct H3 as [R3 _].
  apply RegexFacts.Derives_star_elim in H4. destruct H4 as (s2 & R4 & _ & B2).
  apply ShapeFacts.Derives_Group_elim in H5.
  apply ShapeFacts.Derives_Quant_elim in H5.
  destruct H5 as (digits & R5 & _ & D & Hlo & Hhi).
  apply RegexFacts.Derives_star_elim in H6. destruct H6 as (s3 & R6 & _ & B3).
  apply ShapeFacts.lits_word in H7. destruct H7 as [R7 _].
  exists kw, s1, s2, digits, s3.
  split; [exact Hkw|]. split; [apply ShapeFacts.ws_run; exact B1|].
  split; [apply ShapeFacts.ws_run; exact B2|].
  split; [apply ShapeFacts.ws_run; exact B3|].
  split; [apply ShapeFacts.digit_run; exact D|].
  split; [simpl in Hlo, Hhi; lia|].
  apply (app_inv_tail (Regex.rest y)).
  rewrite <- Hskip, <- Hx0, R1, R2, R3, R4, R5, R6, R7.
  rewrite <- !app_assoc. reflexivity.
Qed.

Lemma optional_run (P : N -> Prop) (u : list N) :
  Forall P u -> length u <= 1 -> u = [] \/ exists c, u = [c] /\ P c.
Proof.
  intros Hf Hl. destruct u as [|c [|d u]]; [left; reflexivity | right | simpl in Hl; lia].
  inversion Hf; subst. eauto.
Qed.

Lemma not_comma c :
  Regex.atom_matches false (Regex.NotCls (Regex.chars ",")) c = true ->
  c <> 44%N.
Proof.
  unfold Regex.atom_matches, Regex.in_class. simpl.
  rewrite !orb_false_r, negb_true_iff, N.eqb_neq. auto.
Qed.

Lemma digit_is_word c : Regex.is_digit c = true -> Regex.is_word c = true.
Proof. intros H. unfold Regex.is_word. rewrite H. apply orb_true_iff. left. apply orb_true_r. Qed.

(** The text after an occurrence. *)
Lemma occurrence_parts content i e (tail : list N) :
  skipn i content = substring content i e ++ tail ->
  content = firstn i content ++ substring content i e ++ tail.
Proof. intros H. rewrite <- H. symmetry. apply firstn_skipn. Qed.

(** X13: what the rule [Very short setTimeout] reports: a call of
    [setTimeout] whose first argument has no comma in it and whose second
    argument is a number of one or two digits. *)
Theorem shortSetTimeout_shape :
  forall env st filePath content d,
    readFileSync env filePath = Some content ->
    In d (fst (scanFile env st filePath)) ->
    pattern d = js "Very short setTimeout" ->
    exists s1 arg s2 digits s3,
      blank s1 /\ blank s2 /\ blank s3
      /\ arg <> [] /\ ~ In 44%N arg
      /\ Forall (fun c => Regex.is_digit c = true) digits
      /\ 1 <= length digits <= 2
      /\ matchedText d
         = js "setTimeout" ++ s1 ++ js "(" ++ arg ++ js "," ++ s2
           ++ digits ++ s3 ++ js ")".
Proof.
  intros env st filePath content d Hr Hin Hname.
  destruct (detection_of_named env st filePath content d Hr Hin)
    as (p & m & Hp & Hn & Hocc & _ & ->).
  rewrite Hname in Hn. pick_pattern Hp Hn.
  apply ShapeFacts.matchesAt_word in Hocc.
  destruct Hocc as (y & Hd & Hskip & _ & _).
  cbn [regex Catalogue.g Regex.source Regex.ignoreCase] in Hd.
  unfold Catalogue.re_setTimeout in Hd.
  set (x0 := Regex.cursor_at content (Regex.index m)) in *.
  assert (Hx0 : Regex.rest x0 = skipn (Regex.index m) content) by reflexivity.
  seq_step Hd x1 H1. seq_step Hd x2 H2. seq_step Hd x3 H3.
  seq_step Hd x4 H4. seq_step Hd x5 H5. seq_step Hd x6 H6.
  seq_step Hd x7 H7. seq_step Hd x8 H8. seq_step Hd x9 H9.
  apply RegexFacts.Derives_Eps_iff in Hd. subst x9.
  apply ShapeFacts.lits_word in H1. destruct H1 as [R1 _].
  apply RegexFacts.Derives_star_elim in H2. destruct H2 as (s1 & R2 & _ & B1).
  apply ShapeFacts.lits_word in H3. destruct H3 as [R3 _].
  apply ShapeFacts.Derives_Quant_elim in H4.
  destruct H4 as (arg & R4 & _ & A & Alo & _).
  apply ShapeFacts.lits_word in H5. destruct H5 as [R5 _].
  apply RegexFacts.Derives_star_elim in H6. destruct H6 as (s2 & R6 & _ & B2).
  apply ShapeFacts.Derives_Group_elim in H7.
  apply ShapeFacts.Derives_Quant_elim in H7.
  destruct H7 as (digits & R7 & _ & D & Hlo & Hhi).
  apply RegexFacts.Derives_star_elim in H8. destruct H8 as (s3 & R8 & _ & B3).
  apply ShapeFacts.lits_word in H9. destruct H9 as [R9 _].
  exists s1, arg, s2, digits, s3.
  split; [apply ShapeFacts.ws_run; exact B1|].
  split; [apply ShapeFacts.ws_run; exact B2|].
  split; [apply ShapeFacts.ws_run; exact B3|].
  split; [intros ->; simpl in Alo; lia|].
  split.
  { intros Hc. rewrite Forall_forall in A. apply (not_comma 44%N (A _ Hc)).
    reflexivity. }
  split; [apply ShapeFacts.digit_run; exact D|].
  split; [simpl in Hlo, Hhi; lia|].
  apply (app_inv_tail (Regex.rest y)).
  rewrite <- Hskip, <- Hx0, R1, R2, R3, R4, R5, R6, R7, R8, R9.
  rewrite <- !app_assoc. reflexivity.
Qed.

(** X14: what the rule [Low timeout value] reports: [timeout], an equal
    sign or a colon, and a number that is one digit from 1 to 9, followed
    or not by one 0 - so 1 to 9 and 10, 20, ... 90 - after which comes no
    letter, digit or underscore. *)
Theorem lowTimeout_shape :
  forall env st filePath content d,
    readFileSync env filePath = Some content ->
    In d (fst (scanFile env st filePath)) ->
    pattern d = js "Low timeout value" ->
    exists before s1 c s2 d1 z rest,
      blank s1 /\ blank s2
      /\ (c = 61%N \/ c = 58%N)
      /\ (49 <= d1 <= 57)%N
      /\ (z = [] \/ z = [48%N])
      /\ matchedText d = js "timeout" ++ s1 ++ [c] ++ s2 ++ d1 :: z
      /\ content = before ++ matchedText d ++ rest
      /\ match rest with
         | [] => True
         | c' :: _ => Regex.is_word c' = false
         end.
Proof.
  intros env st filePath content d Hr Hin Hname.
  destruct (detection_of_named env st filePath content d Hr Hin)
    as (p & m & Hp & Hn & Hocc & _ & ->).
  rewrite Hname in Hn. pick_pattern Hp Hn.
  apply ShapeFacts.matchesAt_word in Hocc.
  destruct Hocc as (y & Hd & Hskip & _ & _).
  cbn [regex Catalogue.g Regex.source Regex.ignoreCase] in Hd.
  unfold Catalogue.re_timeout in Hd.
  set (x0 := Regex.cursor_at content (Regex.index m)) in *.
  assert (Hx0 : Regex.rest x0 = skipn (Regex.index m) content) by reflexivity.
  seq_step Hd x1 H1. seq_step Hd x2 H2. seq_step Hd x3 H3.
  seq_step Hd x4 H4. seq_step Hd x5 H5. seq_step Hd x6 H6.
  apply RegexFacts.Derives_Eps_iff in Hd. subst x6.
  apply ShapeFacts.lits_word in H1. destruct H1 as [R1 _].
  apply RegexFacts.Derives_star_elim in H2. destruct H2 as (s1 & R2 & _ & B1).
  apply RegexFacts.Derives_One_elim in H3. destruct H3 as (c & R3 & _ & C).
  apply ShapeFacts.one_of_two in C.
  apply RegexFacts.Derives_star_elim in H4. destruct H4 as (s2 & R4 & _ & B2).
  apply ShapeFacts.Derives_Group_elim in H5.
  apply ShapeFacts.Derives_Seq_elim in H5. destruct H5 as (x4' & H5a & H5b).
  apply RegexFacts.Derives_One_elim in H5a. destruct H5a as (d1 & R5 & X5 & D1).
  apply ShapeFacts.Derives_Quant_elim in H5b.
  destruct H5b as (z & R6 & X6 & Z & _ & Zhi).
  apply ShapeFacts.Derives_WordBoundary_elim in H6. destruct H6 as [-> Hb].
  assert (Hd1 : (49 <= d1 <= 57)%N).
  { unfold Regex.atom_matches, Regex.in_class in D1. simpl in D1.
    rewrite !orb_false_r, andb_true_iff, !N.leb_le in D1. exact D1. }
  assert (Hz : z = [] \/ z = [48%N]).
  { destruct (optional_run _ z Z Zhi) as [-> | (c0 & -> & Hc0)]; [left; reflexivity|].
    right. simpl in Hc0. apply N.eqb_eq in Hc0. subst. reflexivity. }
  exists (firstn (Regex.index m) content), s1, c, s2, d1, z, (Regex.rest x5).
  split; [apply ShapeFacts.ws_run; exact B1|].
  split; [apply ShapeFacts.ws_run; exact B2|].
  split; [exact C|]. split; [exact Hd1|]. split; [exact Hz|].
  assert (Hm : substring content (Regex.index m) (Regex.endIndex m)
               = js "timeout" ++ s1 ++ [c] ++ s2 ++ d1 :: z).
  { apply (app_inv_tail (Regex.rest x5)).
    rewrite <- Hskip, <- Hx0, R1, R2, R3, R4, R5, R6.
    rewrite <- !app_assoc. reflexivity. }
  cbn [matchedText mkDetection].
  split; [exact Hm|]. split; [apply occurrence_parts; exact Hskip|].
  assert (Hprev : exists w, Regex.prev x5 = Some w /\ Regex.is_digit w = true).
  { destruct Hz as [-> | ->].
    - simpl in X6. subst x5. rewrite X5. simpl. exists d1. split; [reflexivity|].
      unfold Regex.is_digit. apply andb_true_iff. rewrite !N.leb_le. lia.
    - subst x5. simpl. exists 48%N. split; reflexivity. }
  destruct Hprev as (w & Hw & Hdig).
  apply (ShapeFacts.boundary_after_word x5 w Hw (digit_is_word w Hdig) Hb).
Qed.

Lemma last_of_run (P : N -> Prop) (u : list N) :
  Forall P u -> 1 <= length u -> exists w c, u = w ++ [c] /\ P c.
Proof.
  intros Hf Hl. destruct (exists_last (l := u)) as (w & c & E).
  - intros ->. simpl in Hl. lia.
  - exists w, c. split; [exact E|]. rewrite Forall_forall in Hf.
    apply Hf. rewrite E. apply in_or_app. right. left. reflexivity.
Qed.

(** X15: what the rule [Hardcoded port numbers] reports: [port] or [PORT],
    an equal sign or a colon, and a number of four or five digits after
    which comes no letter, digit or underscore. *)
Theorem hardcodedPort_shape :
  forall env st filePath content d,
    readFileSync env filePath = Some content ->
    In d (fst (scanFile env st filePath)) ->
    pattern d = js "Hardcoded port numbers" ->
    exists before kw s1 c s2 digits rest,
      (kw = js "port" \/ kw = js "PORT")
      /\ blank s1 /\ blank s2
      /\ (c = 61%N \/ c = 58%N)
      /\ Forall (fun c => Regex.is_digit c = true) digits
      /\ 4 <= length digits <= 5
      /\ matchedText d = kw ++ s1 ++ [c] ++ s2 ++ digits
      /\ content = before ++ matchedText d ++ rest
      /\ match rest with
         | [] => True
         | c' :: _ => Regex.is_word c' = false
         end.
Proof.
  intros env st filePath content d Hr Hin Hname.
  destruct (detection_of_named env st filePath content d Hr Hin)
    as (p & m & Hp & Hn & Hocc & _ & ->).
  rewrite Hname in Hn. pick_pattern Hp Hn.
  apply ShapeFacts.matchesAt_word in Hocc.
  destruct Hocc as (y & Hd & Hskip & _ & _).
  cbn [regex Catalogue.g Regex.source Regex.ignoreCase] in Hd.
  unfold Catalogue.re_port in Hd.
  set (x0 := Regex.cursor_at content (Regex.index m)) in *.
  assert (Hx0 : Regex.rest x0 = skipn (Regex.index m) content) by reflexivity.
  seq_step Hd x1 H1. seq_step Hd x2 H2. seq_step Hd x3 H3.
  seq_step Hd x4 H4. seq_step Hd x5 H5. seq_step Hd x6 H6.
  apply RegexFacts.Derives_Eps_iff in Hd. subst x6.
  assert (Hkw : exists kw, (kw = js "port" \/ kw = js "PORT")
                           /\ Regex.rest x0 = kw ++ Regex.rest x1).
  { apply ShapeFacts.Derives_Alt_elim in H1. destruct H1 as [H1 | H1];
      apply ShapeFacts.lits_word in H1;
      [exists (js "port") | exists (js "PORT")]; tauto. }
  destruct Hkw as (kw & Hkw & R1).
  apply RegexFacts.Derives_star_elim in H2. destruct H2 as (s1 & R2 & _ & B1).
  apply RegexFacts.Derives_One_elim in H3. destruct H3 as (c & R3 & _ & C).
  apply ShapeFacts.one_of_two in C.
  apply RegexFacts.Derives_star_elim in H4. destruct H4 as (s2 & R4 & _ & B2).
  apply ShapeFacts.Derives_Group_elim in H5.
  apply ShapeFacts.Derives_Quant_elim in H5.
  destruct H5 as (digits & R5 & X5 & D & Hlo & Hhi).
  apply ShapeFacts.Derives_WordBoundary_elim in H6. destruct H6 as [-> Hb].
  apply ShapeFacts.digit_run in D. simpl in Hlo, Hhi.
  exists (firstn (Regex.index m) content), kw, s1, c, s2, digits,
         (Regex.rest x5).
  split; [exact Hkw|].
  split; [apply ShapeFacts.ws_run; exact B1|].
  split; [apply ShapeFacts.ws_run; exact B2|].
  split; [exact C|]. split; [exact D|]. split; [lia|].
  assert (Hm : substring content (Regex.index m) (Regex.endIndex m)
               = kw ++ s1 ++ [c] ++ s2 ++ digits).
  { apply (app_inv_tail (Regex.rest x5)).
    rewrite <- Hskip, <- Hx0, R1, R2, R3, R4, R5.
    rewrite <- !app_assoc. reflexivity. }
  cbn [matchedText mkDetection].
  split; [exact Hm|]. split; [apply occurrence_parts; exact Hskip|].
  destruct (last_of_run _ digits D ltac:(lia)) as (w & c0 & E & Hc0).
  assert (Hprev : Regex.prev x5 = Some c0)
    by (rewrite X5, E; apply ShapeFacts.after_prev).
  apply (ShapeFacts.boundary_after_word x5 c0 Hprev (digit_is_word c0 Hc0) Hb).
Qed.

(** X16: what the rule [1-second TTL] reports: [ttl] in lower case, then
    [econd] with or without [S] or [s] before it and [s] after it, an equal
    sign or a colon, and the digit 1 after which comes no letter, digit or
    underscore. *)
Theorem oneSecondTtl_shape :
  forall env st filePath content d,
    readFileSync env filePath = Some content ->
    In d (fst (scanFile env st filePath)) ->
    pattern d = js "1-second TTL" ->
    exists before o1 o2 s1 c s2 rest,
      (o1 = [] \/ o1 = js "S" \/ o1 = js "s")
      /\ (o2 = [] \/ o2 = js "s")
      /\ blank s1 /\ blank s2
      /\ (c = 61%N \/ c = 58%N)
      /\ matchedText d
         = js "ttl" ++ o1 ++ js "econd" ++ o2 ++ s1 ++ [c] ++ s2 ++ js "1"
      /\ content = before ++ matchedText d ++ rest
      /\ match rest with
         | [] => True
         | c' :: _ => Regex.is_word c' = false
         end.
Proof.
  intros env st filePath content d Hr Hin Hname.
  destruct (detection_of_named env st filePath content d Hr Hin)
    as (p & m & Hp & Hn & Hocc & _ & ->).
  rewrite Hname in Hn. pick_pattern Hp Hn.
  apply ShapeFacts.matchesAt_word in Hocc.
  destruct Hocc as (y & Hd & Hskip & _ & _).
  cbn [regex Catalogue.g Regex.source Regex.ignoreCase] in Hd.
  unfold Catalogue.re_ttl in Hd.
  set (x0 := Regex.cursor_at content (Regex.index m)) in *.
  assert (Hx0 : Regex.rest x0 = skipn (Regex.index m) content) by reflexivity.
  seq_step Hd x1 H1. seq_step Hd x2 H2. seq_step Hd x3 H3.
  seq_step Hd x4 H4. seq_step Hd x5 H5. seq_step Hd x6 H6.
  seq_step Hd x7 H7. seq_step Hd x8 H8. seq_step Hd x9 H9.
  apply RegexFacts.Derives_Eps_iff in Hd. subst x9.
  apply ShapeFacts.lits_word in H1. destruct H1 as [R1 _].
  apply ShapeFacts.Derives_Quant_elim in H2.
  destruct H2 as (o1 & R2 & _ & O1 & _ & O1hi).
  apply ShapeFacts.lits_word in H3. destruct H3 as [R3 _].
  apply ShapeFacts.Derives_Quant_elim in H4.
  destruct H4 as (o2 & R4 & _ & O2 & _ & O2hi).
  apply RegexFacts.Derives_star_elim in H5. destruct H5 as (s1 & R5 & _ & B1).
  apply RegexFacts.Derives_One_elim in H6. destruct H6 as (c & R6 & _ & C).
  apply ShapeFacts.one_of_two in C.
  apply RegexFacts.Derives_star_elim in H7. destruct H7 as (s2 & R7 & _ & B2).
  apply ShapeFacts.lits_word in H8. destruct H8 as [R8 X8].
  apply ShapeFacts.Derives_WordBoundary_elim in H9. destruct H9 as [-> Hb].
  assert (Ho1 : o1 = [] \/ o1 = js "S" \/ o1 = js "s").
  { destruct (optional_run _ o1 O1 O1hi) as [-> | (c0 & -> & Hc0)]; [tauto|].
    apply ShapeFacts.one_of_two in Hc0. destruct Hc0 as [-> | ->]; tauto. }
  assert (Ho2 : o2 = [] \/ o2 = js "s").
  { destruct (optional_run _ o2 O2 O2hi) as [-> | (c0 & -> & Hc0)]; [tauto|].
    simpl in Hc0. apply N.eqb_eq in Hc0. subst. tauto. }
  exists (firstn (Regex.index m) content), o1, o2, s1, c, s2, (Regex.rest x8).
  split; [exact Ho1|]. split; [exact Ho2|].
  split; [apply ShapeFacts.ws_run; exact B1|].
  split; [apply ShapeFacts.ws_run; exact B2|].
  split; [exact C|].
  assert (Hm : substring content (Regex.index m) (Regex.endIndex m)
               = js "ttl" ++ o1 ++ js "econd" ++ o2 ++ s1 ++ [c] ++ s2
                 ++ js "1").
  { apply (app_inv_tail (Regex.rest x8)).
    rewrite <- Hskip, <- Hx0, R1, R2, R3, R4, R5, R6, R7, R8.
    rewrite <- !app_assoc. reflexivity. }
  cbn [matchedText mkDetection].
  split; [exact Hm|]. split; [apply occurrence_parts; exact Hskip|].
  assert (Hprev : Regex.prev x8 = Some 49%N) by (rewrite X8; reflexivity).
  apply (ShapeFacts.boundary_after_word x8 49%N Hprev eq_refl Hb).
Qed.

(** ** The command line *)

Lemma find_after_flags (flags : list jsstring) d rest :
  Forall (fun a => startsWith a (js "--") = true) flags ->
  startsWith d (js "--") = false ->
  find (fun arg => negb (startsWith arg (js "--"))) (flags ++ d :: rest)
  = Some d.
Proof.
  intros Hf Hd. induction Hf as [|a flags Ha _ IH]; cbn [app find].
  - rewrite Hd. reflexivity.
  - rewrite Ha. exact IH.
Qed.

Lemma find_only_flags (flags : list jsstring) :
  Forall (fun a => startsWith a (js "--") = true) flags ->
  find (fun arg => negb (startsWith arg (js "--"))) flags = None.
Proof.
  intros Hf. induction Hf as [|a flags Ha _ IH]; cbn [find].
  - reflexivity.
  - rewrite Ha. exact IH.
Qed.

Lemma flags_without_h (flags : list jsstring) :
  Forall (fun a => startsWith a (js "--") = true) flags ->
  ~ In (js "-h") flags.
Proof.
  intros Hf Hin. rewrite Forall_forall in Hf. apply Hf in Hin.
  vm_compute in Hin. discriminate Hin.
Qed.

Lemma main_scans env args :
  ~ In (js "--help") args -> ~ In (js "-h") args ->
  scanned (main env args)
  = resultOf (scanDirectory env initialState (targetDirOf env args)).
Proof.
  intros H1 H2. pose proof (main_outcome env args H1 H2) as Hm.
  destruct (scanDirectory env initialState (targetDirOf env args))
    as [[r st']|]; rewrite Hm; reflexivity.
Qed.

(** X17: the directory that a run scans is named by the first argument
    that does not begin with two dashes, wherever the options stand: the
    path resolved from it, or the current directory when that argument is
    the empty string; arguments after it are not looked at. With options
    only, the run scans the current directory. The result that the run
    keeps is the one this scan returns, and none when it throws. *)
Theorem main_directory :
  forall env flags,
    Forall (fun a => startsWith a (js "--") = true) flags ->
    ~ In (js "--help") flags ->
    scanned (main env flags)
    = resultOf (scanDirectory env initialState (cwd env))
    /\ forall d rest,
         startsWith d (js "--") = false ->
         ~ In (js "-h") (d :: rest) -> ~ In (js "--help") rest ->
         scanned (main env (flags ++ d :: rest))
         = resultOf (scanDirectory env initialState
                       match d with
                       | [] => cwd env
                       | _ :: _ => path_resolve env d
                       end).
Proof.
  intros env flags Hf Hh. split.
  - rewrite (main_scans env flags Hh (flags_without_h flags Hf)).
    unfold targetDirOf. rewrite (find_only_flags flags Hf). reflexivity.
  - intros d rest Hd Hh1 Hh2. rewrite main_scans.
    + unfold targetDirOf. rewrite (find_after_flags flags d rest Hf Hd).
      destruct d; reflexivity.
    + intros Hin. apply in_app_or in Hin. destruct Hin as [Hin | [-> | Hin]].
      * exact (Hh Hin).
      * vm_compute in Hd. discriminate Hd.
      * exact (Hh2 Hin).
    + intros Hin. apply in_app_or in Hin. destruct Hin as [Hin | Hin].
      * exact (flags_without_h flags Hf Hin).
      * exact (Hh1 Hin).
Qed.

(** X18: what a run prints on the standard output. When the help is asked
    for, by [--help] or [-h], the run prints the help text and nothing else,
    scans nothing and ends with status 0, whatever the other options, [--ci]
    and [--quiet] too. Otherwise it makes one scan, of the target
    directory. When that scan throws, because a directory cannot be listed,
    the run prints nothing and ends with status 1, whatever the options.
    When it returns, the run prints at most one text: with [--json] the
    JSON report, which reads back as the object of the result, even with
    [--quiet]; without [--json], nothing with [--quiet] and the Markdown
    report else; and without [--ci] the status is 0 whatever the scan
    found. *)
Theorem main_stdout :
  forall env args,
    (In (js "--help") args \/ In (js "-h") args ->
     stdout (main env args) = [helpText]
     /\ exitCode (main env args) = 0
     /\ scanned (main env args) = None)
    /\ (~ In (js "--help") args -> ~ In (js "-h") args ->
        (scanDirectory env initialState (targetDirOf env args) = Throw ->
         stdout (main env args) = []
         /\ exitCode (main env args) = 1
         /\ scanned (main env args) = None)
        /\ (forall r st',
              scanDirectory env initialState (targetDirOf env args)
              = Normal (r, st') ->
              scanned (main env args) = Some r
              /\ (In (js "--json") args ->
                  exists t, stdout (main env args) = [t]
                            /\ JSON.parse t = Some (reportJson r))
              /\ (~ In (js "--json") args -> In (js "--quiet") args ->
                  stdout (main env args) = [])
              /\ (~ In (js "--json") args -> ~ In (js "--quiet") args ->
                  stdout (main env args) = [formatAsMarkdown env r])
              /\ (~ In (js "--ci") args -> exitCode (main env args) = 0))).
Proof.
  intros env args. split.
  - intros H. rewrite (main_help env args H). repeat split.
  - intros H1 H2. pose proof (main_outcome env args H1 H2) as Hm. split.
    + intros Hs. rewrite Hs in Hm. rewrite Hm. repeat split.
    + intros r st' Hs. rewrite Hs in Hm. rewrite Hm.
      cbn [stdout exitCode scanned].
      split; [reflexivity|]. split; [|split; [|split]].
      * intros Hj. apply includes_In in Hj. rewrite Hj.
        exists (formatAsJson r). split; [reflexivity|].
        unfold formatAsJson. apply JSONFacts.parse_stringify.
      * intros Hj Hq. rewrite (includes_false args (js "--json") Hj).
        apply includes_In in Hq. rewrite Hq. reflexivity.
      * intros Hj Hq. rewrite (includes_false args (js "--json") Hj),
                              (includes_false args (js "--quiet") Hq).
        reflexivity.
      * intros Hc. rewrite (includes_false args (js "--ci") Hc).
        reflexivity.
Qed.

(** ** Paths of a file system *)

(** X19: when [path.join] puts a separator between the directory and the
    name, and in every directory of the tree the names are distinct and
    have no separator, no path is found twice. *)
Theorem findTestFiles_distinct :
  forall env dir entries files,
    path_join env = posixJoin ->
    readdirSync env dir = Some entries ->
    wellNamed entries ->
    findTestFiles env dir [] = Normal files ->
    NoDup files.
Proof.
  intros env dir entries files Hj Hr Hwn Hwalk.
  exact (posix_paths_distinct env Hj dir entries files Hr Hwn Hwalk).
Qed.


(** ** The properties above on the samples *)

Lemma named_detection env st filePath n :
  existsb (fun d => jsstring_eqb (pattern d) n)
    (fst (scanFile env st filePath)) = true ->
  exists d, In d (fst (scanFile env st filePath)) /\ pattern d = n.
Proof.
  intros H. apply existsb_exists in H. destruct H as (d & Hin & E).
  exists d. split; [exact Hin | apply jsstring_eqb_eq; exact E].
Qed.

Lemma shortDelay_shape_witness :
  readFileSync sampleNode serverPath = Some serverSpec
  /\ exists d,
       In d (fst (scanFile sampleNode initialState serverPath))
       /\ pattern d = js "Short delay/sleep"
       /\ exists kw s1 s2 digits s3,
            In kw [js "delay"; js "sleep"; js "wait"]
            /\ blank s1 /\ blank s2 /\ blank s3
            /\ Forall (fun c => Regex.is_digit c = true) digits
            /\ 1 <= length digits <= 2
            /\ matchedText d
               = kw ++ s1 ++ js "(" ++ s2 ++ digits ++ s3 ++ js ")".
Proof.
  split; [reflexivity|].
  destruct (named_detection sampleNode initialState serverPath
              (js "Short delay/sleep") ltac:(vm_compute; reflexivity))
    as (d & Hin & Hn).
  exists d. split; [exact Hin|]. split; [exact Hn|].
  exact (shortDelay_shape sampleNode initialState serverPath serverSpec d
           eq_refl Hin Hn).
Defined.

Lemma shortSetTimeout_shape_witness :
  readFileSync timersNode timersPath = Some timersSpec
  /\ exists d,
       In d (fst (scanFile timersNode initialState timersPath))
       /\ pattern d = js "Very short setTimeout"
       /\ exists s1 arg s2 digits s3,
            blank s1 /\ blank s2 /\ blank s3
            /\ arg <> [] /\ ~ In 44%N arg
            /\ Forall (fun c => Regex.is_digit c = true) digits
            /\ 1 <= length digits <= 2
            /\ matchedText d
               = js "setTimeout" ++ s1 ++ js "(" ++ arg ++ js "," ++ s2
                 ++ digits ++ s3 ++ js ")".
Proof.
  split; [reflexivity|].
  destruct (named_detection timersNode initialState timersPath
              (js "Very short setTimeout") ltac:(vm_compute; reflexivity))
    as (d & Hin & Hn).
  exists d. split; [exact Hin|]. split; [exact Hn|].
  exact (shortSetTimeout_shape timersNode initialState timersPath timersSpec d
           eq_refl Hin Hn).
Defined.

Lemma lowTimeout_shape_witness :
  readFileSync timersNode timersPath = Some timersSpec
  /\ exists d,
       In d (fst (scanFile timersNode initialState timersPath))
       /\ pattern d = js "Low timeout value"
       /\ exists before s1 c s2 d1 z rest,
            blank s1 /\ blank s2
            /\ (c = 61%N \/ c = 58%N)
            /\ (49 <= d1 <= 57)%N
            /\ (z = [] \/ z = [48%N])
            /\ matchedText d = js "timeout" ++ s1 ++ [c] ++ s2 ++ d1 :: z
            /\ timersSpec = before ++ matchedText d ++ rest
            /\ match rest with
               | [] => True
               | c' :: _ => Regex.is_word c' = false
               end.
Proof.
  split; [reflexivity|].
  destruct (named_detection timersNode initialState timersPath
              (js "Low timeout value") ltac:(vm_compute; reflexivity))
    as (d & Hin & Hn).
  exists d. split; [exact Hin|]. split; [exact Hn|].
  exact (lowTimeout_shape timersNode initialState timersPath timersSpec d
           eq_refl Hin Hn).
Defined.

Lemma hardcodedPort_shape_witness :
  readFileSync sampleNode serverPath = Some serverSpec
  /\ exists d,
       In d (fst (scanFile sampleNode initialState serverPath))
       /\ pattern d = js "Hardcoded port numbers"
       /\ exists before kw s1 c s2 digits rest,
            (kw = js "port" \/ kw = js "PORT")
            /\ blank s1 /\ blank s2
            /\ (c = 61%N \/ c = 58%N)
            /\ Forall (fun c => Regex.is_digit c = true) digits
            /\ 4 <= length digits <= 5
            /\ matchedText d = kw ++ s1 ++ [c] ++ s2 ++ digits
            /\ serverSpec = before ++ matchedText d ++ rest
            /\ match rest with
               | [] => True
               | c' :: _ => Regex.is_word c' = false
               end.
Proof.
  split; [reflexivity|].
  destruct (named_detection sampleNode initialState serverPath
              (js "Hardcoded port numbers") ltac:(vm_compute; reflexivity))
    as (d & Hin & Hn).
  exists d. split; [exact Hin|]. split; [exact Hn|].
  exact (hardcodedPort_shape sampleNode initialState serverPath serverSpec d
           eq_refl Hin Hn).
Defined.

Lemma oneSecondTtl_shape_witness :
  readFileSync sampleNode clockPath = Some clockTest
  /\ exists d,
       In d (fst (scanFile sampleNode initialState clockPath))
       /\ pattern d = js "1-second TTL"
       /\ exists before o1 o2 s1 c s2 rest,
            (o1 = [] \/ o1 = js "S" \/ o1 = js "s")
            /\ (o2 = [] \/ o2 = js "s")
            /\ blank s1 /\ blank s2
            /\ (c = 61%N \/ c = 58%N)
            /\ matchedText d
               = js "ttl" ++ o1 ++ js "econd" ++ o2 ++ s1 ++ [c] ++ s2
                 ++ js "1"
            /\ clockTest = before ++ matchedText d ++ rest
            /\ match rest with
               | [] => True
               | c' :: _ => Regex.is_word c' = false
               end.
Proof.
  split; [reflexivity|].
  destruct (named_detection sampleNode initialState clockPath
              (js "1-second TTL") ltac:(vm_compute; reflexivity))
    as (d & Hin & Hn).
  exists d. split; [exact Hin|]. split; [exact Hn|].
  exact (oneSecondTtl_shape sampleNode initialState clockPath clockTest d
           eq_refl Hin Hn).
Defined.

Lemma matchedText_in_content_witness :
  readFileSync timersNode timersPath = Some timersSpec
  /\ exists d,
       In d (fst (scanFile timersNode initialState timersPath))
       /\ exists before rest,
            timersSpec = before ++ matchedText d ++ rest
            /\ matchedText d <> []
            /\ line d = 1 + newlines before.
Proof.
  split; [reflexivity|].
  destruct (named_detection timersNode initialState timersPath
              (js "Low timeout value") ltac:(vm_compute; reflexivity))
    as (d & Hin & _).
  exists d. split; [exact Hin|].
  exact (matchedText_in_content timersNode initialState timersPath timersSpec
           d eq_refl Hin).
Defined.

Lemma context_marks_line_witness :
  readFileSync timersNode timersPath = Some timersSpec
  /\ exists d,
       In d (fst (scanFile timersNode initialState timersPath))
       /\ 1 <= length (context d) <= 7
       /\ line d <= length (split_nl timersSpec)
       /\ In (js "> " ++ padStart (toString (line d)) 4 ++ js ": "
              ++ nth (line d - 1) (split_nl timersSpec) [])
             (context d)
       /\ Forall (fun l => hd_error l = Some 62%N ->
                    l = js "> " ++ padStart (toString (line d)) 4 ++ js ": "
                        ++ nth (line d - 1) (split_nl timersSpec) [])
            (context d).
Proof.
  split; [reflexivity|].
  destruct (named_detection timersNode initialState timersPath
              (js "Low timeout value") ltac:(vm_compute; reflexivity))
    as (d & Hin & _).
  exists d. split; [exact Hin|].
  exact (context_marks_line timersNode initialState timersPath timersSpec
           d eq_refl Hin).
Defined.

Lemma timers_readings :
  exists p ms,
    nth_error FLAKY_PATTERNS 4 = Some p
    /\ Regex.Enumerates (regex p) timersSpec 0 ms
    /\ length ms = 2.
Proof.
  eexists. eexists. split; [reflexivity|]. split.
  - eapply Regex.E_next; [vm_compute; reflexivity|].
    eapply Regex.E_next; [vm_compute; reflexivity|].
    eapply Regex.E_done. vm_compute. reflexivity.
  - reflexivity.
Qed.

Lemma matches_ordered_disjoint_witness :
  exists p ms,
    In p FLAKY_PATTERNS
    /\ Regex.Enumerates (regex p) timersSpec 0 ms
    /\ length ms = 2
    /\ Forall (fun m => Regex.index m < Regex.endIndex m
                        /\ Regex.endIndex m <= length timersSpec) ms
    /\ ForallOrdPairs
         (fun m m' => Regex.endIndex m <= Regex.index m') ms.
Proof.
  destruct timers_readings as (p & ms & Hp & He & Hl).
  exists p, ms. apply nth_error_In in Hp.
  split; [exact Hp|]. split; [exact He|]. split; [exact Hl|].
  exact (matches_ordered_disjoint p timersSpec ms Hp He).
Defined.

Lemma server_reading :
  exists p,
    nth_error FLAKY_PATTERNS 4 = Some p
    /\ matchesAt (regex p) serverSpec 12 22.
Proof.
  eexists. split; [reflexivity|].
  apply MatchFacts.match_at_matchesAt.
  - apply Nat.leb_le. vm_compute. reflexivity.
  - vm_compute. reflexivity.
Qed.

Lemma occurrence_reported_witness :
  readFileSync sampleNode serverPath = Some serverSpec
  /\ exists p,
       In p FLAKY_PATTERNS
       /\ matchesAt (regex p) serverSpec 12 22
       /\ exists m,
            matchesAt (regex p) serverSpec (Regex.index m) (Regex.endIndex m)
            /\ Regex.index m <= 12 < Regex.endIndex m
            /\ (skipped p serverSpec m = true
                \/ In (mkDetection serverPath serverSpec
                         (split_nl serverSpec) p m)
                      (fst (scanFile sampleNode initialState serverPath))).
Proof.
  split; [reflexivity|].
  destruct server_reading as (p & Hp & Hm).
  exists p. apply nth_error_In in Hp.
  split; [exact Hp|]. split; [exact Hm|].
  exact (occurrence_reported sampleNode initialState serverPath serverSpec
           p 12 22 eq_refl Hp Hm).
Defined.

Lemma main_directory_witness :
  Forall (fun a => startsWith a (js "--") = true) [js "--json"; js "--ci"]
  /\ ~ In (js "--help") [js "--json"; js "--ci"]
  /\ scanned (main sampleNode [js "--json"; js "--ci"])
     = resultOf (scanDirectory sampleNode initialState (cwd sampleNode))
  /\ scanned (main sampleNode
                [js "--json"; js "--ci"; js "/repo/src"; js "--quiet";
                 js "/elsewhere"])
     = resultOf (scanDirectory sampleNode initialState
                   (path_resolve sampleNode (js "/repo/src"))).
Proof.
  assert (Hf : Forall (fun a => startsWith a (js "--") = true)
                 [js "--json"; js "--ci"])
    by (repeat constructor).
  assert (Hh : ~ In (js "--help") [js "--json"; js "--ci"])
    by (intros [H | [H | []]]; vm_compute in H; discriminate H).
  split; [exact Hf|]. split; [exact Hh|].
  destruct (main_directory sampleNode [js "--json"; js "--ci"] Hf Hh)
    as [H1 H2].
  split; [exact H1|].
  apply (H2 (js "/repo/src") [js "--quiet"; js "/elsewhere"]).
  - reflexivity.
  - intros [H | [H | [H | []]]]; vm_compute in H; discriminate H.
  - intros [H | [H | []]]; vm_compute in H; discriminate H.
Defined.

Lemma sample_tree_wellNamed : wellNamed sampleTree.
Proof.
  assert (Hsrc : wellNamed [File (js "clock.test.ts"); File (js "clock.ts")]).
  { constructor.
    - repeat constructor; cbn [In]; intros H;
        repeat (destruct H as [H | H]; [vm_compute in H; discriminate H|]);
        exact H.
    - repeat constructor; vm_compute; intros H;
        repeat (destruct H as [H | H]; [discriminate H|]); exact H.
    - intros d sub [H | [H | []]]; discriminate H. }
  assert (Hdep : wellNamed [File (js "dep.test.js")]).
  { constructor.
    - repeat constructor; cbn [In]; intros H; exact H.
    - repeat constructor; vm_compute; intros H;
        repeat (destruct H as [H | H]; [discriminate H|]); exact H.
    - intros d sub [H | []]; discriminate H. }
  constructor.
  - repeat constructor; cbn [In map]; intros H;
      repeat (destruct H as [H | H]; [vm_compute in H; discriminate H|]);
      exact H.
  - repeat constructor; vm_compute; intros H;
      repeat (destruct H as [H | H]; [discriminate H|]); exact H.
  - intros d sub [H | [H | [H | [H | []]]]]; try discriminate H;
      inversion H; subst; assumption.
Qed.

Lemma findTestFiles_distinct_witness :
  path_join sampleNode = posixJoin
  /\ readdirSync sampleNode (js "/repo") = Some sampleTree
  /\ wellNamed sampleTree
  /\ findTestFiles sampleNode (js "/repo") [] = Normal [clockPath; serverPath]
  /\ NoDup [clockPath; serverPath].
Proof.
  split; [reflexivity|]. split; [reflexivity|].
  split; [exact sample_tree_wellNamed|]. split; [exact sample_files|].
  exact (findTestFiles_distinct sampleNode (js "/repo") sampleTree
           [clockPath; serverPath] eq_refl eq_refl sample_tree_wellNamed
           sample_files).
Defined.

Lemma scanDirectory_concatenates_witness :
  findTestFiles sampleNode (js "/repo") [] = Normal [clockPath; serverPath]
  /\ exists r st',
       scanDirectory sampleNode usedState (js "/repo") = Normal (r, st')
       /\ detections r
          = flat_map (fun f => fst (scanFile sampleNode initialState f))
              [clockPath; serverPath]
       /\ scannedFiles r = length [clockPath; serverPath]
       /\ totalDetections r
          = list_sum
              (map (fun f => length (fst (scanFile sampleNode initialState f)))
                 [clockPath; serverPath]).
Proof.
  split; [exact sample_files|].
  exact (scanDirectory_concatenates sampleNode usedState (js "/repo")
           [clockPath; serverPath] sample_files).
Defined.

Lemma byFile_lookup_witness :
  findTestFiles sampleNode (js "/repo") [] = Normal [clockPath; serverPath]
  /\ exists r st',
       scanDirectory sampleNode usedState (js "/repo") = Normal (r, st')
       /\ forall f,
            (In f [clockPath; serverPath] ->
             fst (scanFile sampleNode initialState f) <> [] ->
             Map_get (byFile r) f
             = Some (fst (scanFile sampleNode initialState f)))
            /\ (~ In f [clockPath; serverPath]
                \/ fst (scanFile sampleNode initialState f) = [] ->
                Map_get (byFile r) f = None).
Proof.
  split; [exact sample_files|].
  exact (byFile_lookup sampleNode usedState (js "/repo")
           [clockPath; serverPath] sample_files).
Defined.
